(** * Fireworks canvas: projectile / particle simulation

    A shallow embedding of [FireworksCanvas] (the component holding
    [getNextFireworkType], [normalizePath], [triggerFinale],
    [createExplosion], [animate] and [launchFirework]) together with the
    properties the specification states about it.

    Number model.  A JavaScript [number] is embedded as a real of [R]: the
    arithmetic of the source is read as exact arithmetic, so rounding, NaN
    and the infinities are outside the model (the two [Infinity] seeds of
    [normalizePath] are represented by [None]).  [Math.random()] is the
    next element of a sequence [rnd : nat -> R]; its contract (a value in
    [[0, 1)]) is a hypothesis of the theorems that need it.  Canvas drawing
    calls have no effect on the simulation state and are left out, except
    for the fill / stroke colour string, which is a function of the
    particle. *)

From Stdlib Require Import Reals Lra Lia List String Bool Arith ZArith.
Import ListNotations.

Open Scope string_scope.
Open Scope list_scope.
Open Scope R_scope.

(** ** The parts of the JavaScript runtime the component uses *)

Module Math.

Definition PI : R := Rtrigo1.PI.
Definition cos : R -> R := Rtrigo_def.cos.
Definition sin : R -> R := Rtrigo_def.sin.
Definition sqrt : R -> R := R_sqrt.sqrt.
Definition abs : R -> R := Rabs.
Definition min : R -> R -> R := Rmin.
Definition max : R -> R -> R := Rmax.

(** [Math.floor], as an integer. *)
Definition floor (r : R) : Z := Int_part r.

(** [Math.pow]: an integral exponent is repeated multiplication, a
    fractional one is defined on positive bases (and gives 0 at base 0,
    the only other base the component passes). *)
Definition pow (b e : R) : R :=
  if Req_dec_T e (IZR (Int_part e)) then powerRZ b (Int_part e)
  else if Rlt_dec 0 b then Rpower b e else 0.

(** [Math.atan2 y x], by quadrant. *)
Definition atan2 (y x : R) : R :=
  if Rlt_dec 0 x then atan (y / x)
  else if Rlt_dec x 0 then
         (if Rle_dec 0 y then atan (y / x) + PI else atan (y / x) - PI)
  else if Rlt_dec 0 y then PI / 2
  else if Rlt_dec y 0 then - (PI / 2)
  else 0.

End Math.

(** Comparisons of numbers, as booleans. *)
Definition Rltb (a b : R) : bool := if Rlt_dec a b then true else false.
Definition Rleb (a b : R) : bool := if Rle_dec a b then true else false.
Definition Rgtb (a b : R) : bool := Rltb b a.
Definition Rgeb (a b : R) : bool := Rleb b a.
Definition Req_b (a b : R) : bool := if Req_dec_T a b then true else false.

Infix "<?" := Rltb : R_scope.
Infix "<=?" := Rleb : R_scope.
Infix ">?" := Rgtb : R_scope.
Infix ">=?" := Rgeb : R_scope.

(** [a || b] on numbers: [a] unless it is falsy, that is, 0. *)
Definition num_or (a b : R) : R := if Req_b a 0 then b else a.

(** Truthiness of an optional string ([undefined] and [''] are falsy). *)
Definition truthy_str (s : option string) : bool :=
  match s with
  | Some s => negb (String.eqb s "")
  | None => false
  end.

(** Truthiness of an optional boolean flag. *)
Definition truthy_flag (b : option bool) : bool :=
  match b with
  | Some b => b
  | None => false
  end.

(** [s.startsWith(p)]. *)
Definition startsWith (s p : string) : bool := String.prefix p s.

(** In-place array operations: [a.splice(i, 1)] and [a[i] = v]. *)
Definition splice1 {A} (i : nat) (a : list A) : list A :=
  firstn i a ++ skipn (S i) a.

Definition set_at {A} (i : nat) (v : A) (a : list A) : list A :=
  match skipn i a with
  | [] => a
  | _ :: rest => firstn i a ++ v :: rest
  end.

(** ** Data model (types.ts) *)

Module Point.
Record t : Type := mk { x : R; y : R }.
End Point.

Module FireworkParticle.
Record t : Type := mk {
  x : R;
  y : R;
  vx : R;
  vy : R;
  alpha : R;
  color : string;
  decay : R;
  useTrail : option bool;
  trail : option (list Point.t);
  size : option R;
  shimmer : option bool;
  shape : option string
}.
End FireworkParticle.

Module Firework.
Record t : Type := mk {
  x : R;
  y : R;
  targetX : R;
  targetY : R;
  speed : R;
  angle : R;
  hue : R;
  brightness : R;
  distanceToTarget : R;
  distanceTraveled : R;
  coordinates : list Point.t;
  coordinateCount : nat;
  exploded : bool;
  type : option string;
  customColor : option string;
  trailWidth : option R
}.
End Firework.

(** ** Constants of the component *)

Definition FIREWORK_TYPES : list string :=
  ["standard"; "cosmic"; "streamer"; "palm"; "ring"; "heart"; "glitter";
   "galaxy"; "gold_flower"; "strobe_flower"; "violet_burst"; "floral_burst";
   "cyan_flower"; "neon_flower"; "love_burst"; "tree_burst"].

Definition STANDARD_COLORS : list string :=
  ["255, 182, 193"; "216, 191, 216"; "176, 196, 222";
   "143, 188, 143"; "233, 150, 122"; "176, 224, 230"].
Definition COSMIC_RAY_COLORS : list string :=
  ["255, 255, 255"; "224, 255, 255"].
Definition STREAMER_COLORS : list string :=
  ["255, 250, 250"; "224, 255, 255"; "192, 192, 192"; "255, 182, 193";
   "135, 206, 250"].
Definition NEON_COLORS : list string :=
  ["255, 20, 147"; "0, 255, 127"; "0, 255, 255"; "138, 43, 226"].
Definition ICE_COLORS : list string :=
  ["240, 255, 255"; "224, 255, 255"; "175, 238, 238"].

Definition GRAVITY : R := 0.
Definition FRICTION : R := 0.95.

(** [palette[Math.floor(r * palette.length)]].  For [r] in [[0, 1)], which
    is what [Math.random()] returns, the index is inside the array (lemma
    [pick_In]); the default of [nth] stands for the [undefined] an index
    outside it would read. *)
Definition pick (palette : list string) (r : R) : string :=
  nth (Z.to_nat (Math.floor (r * INR (List.length palette)))) palette "".

(** ** Mutable state of the component and the monad threading it *)

Record World : Type := mkWorld {
  fireworks : list Firework.t;          (* fireworksRef.current *)
  particles : list FireworkParticle.t;  (* particlesRef.current *)
  currentFireworkIndex : nat;           (* currentFireworkIndexRef.current *)
  nextAutoFireTime : R;                 (* nextAutoFireTimeRef.current *)
  isDrawing : bool;                     (* isDrawingRef.current *)
  randomCalls : nat                     (* Math.random() calls made so far *)
}.

Definition M (A : Type) : Type := World -> A * World.

Definition ret {A} (a : A) : M A := fun w => (a, w).
Definition bind {A B} (m : M A) (k : A -> M B) : M B :=
  fun w => let (a, w') := m w in k a w'.

Notation "x <- m ;; k" := (bind m (fun x => k))
  (at level 61, m at next level, right associativity).
Notation "m ;;; k" := (bind m (fun _ => k))
  (at level 61, right associativity).

Definition exec {A} (m : M A) (w : World) : World := snd (m w).
Definition eval {A} (m : M A) (w : World) : A := fst (m w).

(** [for (let i = 0; i < n; i++) body(i)]. *)
Fixpoint for_from (start n : nat) (body : nat -> M unit) : M unit :=
  match n with
  | O => ret tt
  | S n' => body start ;;; for_from (S start) n' body
  end.
Definition for_ (n : nat) (body : nat -> M unit) : M unit := for_from 0 n body.

(** [arr.forEach(f)]. *)
Fixpoint forEach {A} (arr : list A) (f : A -> M unit) : M unit :=
  match arr with
  | [] => ret tt
  | a :: rest => f a ;;; forEach rest f
  end.

Definition when (b : bool) (m : M unit) : M unit := if b then m else ret tt.

Definition push_particle (p : FireworkParticle.t) : M unit :=
  fun w => (tt, mkWorld (fireworks w) (particles w ++ [p])
                        (currentFireworkIndex w) (nextAutoFireTime w)
                        (isDrawing w) (randomCalls w)).

Definition push_firework (f : Firework.t) : M unit :=
  fun w => (tt, mkWorld (fireworks w ++ [f]) (particles w)
                        (currentFireworkIndex w) (nextAutoFireTime w)
                        (isDrawing w) (randomCalls w)).

Definition set_fireworks (fs : list Firework.t) : M unit :=
  fun w => (tt, mkWorld fs (particles w)
                        (currentFireworkIndex w) (nextAutoFireTime w)
                        (isDrawing w) (randomCalls w)).

Definition set_particles (ps : list FireworkParticle.t) : M unit :=
  fun w => (tt, mkWorld (fireworks w) ps
                        (currentFireworkIndex w) (nextAutoFireTime w)
                        (isDrawing w) (randomCalls w)).

Definition set_nextAutoFireTime (t : R) : M unit :=
  fun w => (tt, mkWorld (fireworks w) (particles w)
                        (currentFireworkIndex w) t (isDrawing w)
                        (randomCalls w)).

Definition get_fireworks : M (list Firework.t) := fun w => (fireworks w, w).
Definition get_particles : M (list FireworkParticle.t) :=
  fun w => (particles w, w).

(** ** Pure helpers *)

(** The running bounding box of [normalizePath]; [None] is the seed
    ([Infinity] for the minima, [-Infinity] for the maxima), for which
    [Math.min(Infinity, v) = v] and [Math.max(-Infinity, v) = v]. *)
Definition acc_min (a : option R) (v : R) : option R :=
  match a with
  | None => Some v
  | Some m => Some (Math.min m v)
  end.

Definition acc_max (a : option R) (v : R) : option R :=
  match a with
  | None => Some v
  | Some m => Some (Math.max m v)
  end.

Record Bounds : Type := mkBounds {
  minX : option R; maxX : option R; minY : option R; maxY : option R
}.

Definition bounds_step (b : Bounds) (p : Point.t) : Bounds :=
  mkBounds (acc_min (minX b) (Point.x p)) (acc_max (maxX b) (Point.x p))
           (acc_min (minY b) (Point.y p)) (acc_max (maxY b) (Point.y p)).

Definition bounds_of (points : list Point.t) : Bounds :=
  fold_left bounds_step points (mkBounds None None None None).

(** [Math.max(width, height) || 1]. *)
Definition maxDim_of (lx hx ly hy : R) : R :=
  num_or (Math.max (hx - lx) (hy - ly)) 1.

Definition normalizePath (points : list Point.t) : list Point.t :=
  match points with
  | [] => []
  | _ =>
    match bounds_of points with
    | mkBounds (Some lx) (Some hx) (Some ly) (Some hy) =>
        let centerX := (lx + hx) / 2 in
        let centerY := (ly + hy) / 2 in
        let maxDim := maxDim_of lx hx ly hy in
        let scaleFactor := 2 / maxDim in
        map (fun p => Point.mk ((Point.x p - centerX) * scaleFactor)
                               ((Point.y p - centerY) * scaleFactor)) points
    | _ => []   (* not reached: the seeds are replaced by the first point *)
    end
  end.

Definition calculateDistance (x1 y1 x2 y2 : R) : R :=
  Math.sqrt (Math.pow (x2 - x1) 2 + Math.pow (y2 - y1) 2).

(** [getNextFireworkType]; reading past the end of [FIREWORK_TYPES] is
    [undefined], here [None]. *)
Definition getNextFireworkType : M (option string) :=
  fun w =>
    let type := nth_error FIREWORK_TYPES (currentFireworkIndex w) in
    (type, mkWorld (fireworks w) (particles w)
                   ((currentFireworkIndex w + 1)
                      mod List.length FIREWORK_TYPES)%nat
                   (nextAutoFireTime w) (isDrawing w) (randomCalls w)).

(** [n] consecutive calls of the selector, with what each returned. *)
Fixpoint selectMany (n : nat) : M (list (option string)) :=
  match n with
  | O => ret []
  | S n' => t <- getNextFireworkType ;; ts <- selectMany n' ;; ret (t :: ts)
  end.

(** ** The component *)

Section FireworksCanvas.

(** The values successive [Math.random()] calls return. *)
Variable rnd : nat -> R.

(** Props of the component and the browser window. *)
Variable customShape : option (list Point.t).
Variable isHandDrawingMode : bool.
Variable enableAutoFire : bool.
Variable innerWidth innerHeight : R.

(** How a number is printed inside a template string. *)
Variable Number_toString : R -> string.

Definition Math_random : M R :=
  fun w => (rnd (randomCalls w),
            mkWorld (fireworks w) (particles w) (currentFireworkIndex w)
                    (nextAutoFireTime w) (isDrawing w) (S (randomCalls w))).

Definition random (min max : R) : M R :=
  r <- Math_random ;; ret (r * (max - min) + min).

(** A particle literal; no literal of the component sets [trail]. *)
Definition particle (x y vx vy alpha : R) (color : string) (decay : R)
    (useTrail : option bool) (size : option R) (shimmer : option bool)
    (shape : option string) : FireworkParticle.t :=
  FireworkParticle.mk x y vx vy alpha color decay useTrail None size
                      shimmer shape.

(** *** createExplosion: the branches, in source order *)

Definition explode_custom_shape (x y : R) (shape : list Point.t) : M unit :=
  let scale := 60 in
  forEach shape (fun p =>
    rand <- Math_random ;;
    let color := if rand >? 0.8 then "#FFFFFF"
                 else if rand >? 0.5 then "#1E90FF" else "#00FFFF" in
    r1 <- Math_random ;;
    r2 <- Math_random ;;
    d <- random 0.04 0.06 ;;
    push_particle
      (particle (x + Point.x p * scale) (y + Point.y p * scale)
                ((r1 - 0.5) * 0.15) ((r2 - 0.5) * 0.15) 1 color d
                (Some false) (Some (if rand >? 0.9 then 1.5 else 0.8))
                (Some true) None)).

Definition explode_customColor (x y : R) (customColor : string) : M unit :=
  for_ 10 (fun _ =>
    r1 <- Math_random ;;
    r2 <- Math_random ;;
    push_particle
      (particle x y ((r1 - 0.5) * 3) ((r2 - 0.5) * 3) 1 customColor 0.1
                (Some false) (Some 2) None None)).

Definition explode_tree_burst (x y : R) : M unit :=
  let treeWidth := 62 in
  let treeHeight := 55 in
  for_ 60 (fun i =>
    let t := INR i / 60 in
    let yPos := y + t * treeHeight * 0.7 in
    let xWag := Math.sin (t * Math.PI * 4) * 2 in
    let spread := (1 - t) * 3.5 in
    r0 <- Math_random ;;
    let xPos := x + xWag + (r0 - 0.5) * spread in
    r1 <- Math_random ;;
    r2 <- Math_random ;;
    r3 <- Math_random ;;
    d <- random 0.04 0.06 ;;
    push_particle
      (particle xPos yPos ((r1 - 0.5) * 0.2) ((r2 - 0.5) * 0.2) 1
                (if r3 >? 0.6 then "#00BFFF" else "#E0FFFF") d
                (Some false) (Some 0.9) (Some true) None)) ;;;
  let rootY := y + treeHeight * 0.7 in
  for_ 40 (fun _ =>
    r0 <- Math_random ;;
    let angle := Math.PI / 2 + (r0 - 0.5) * 1.5 in
    r1 <- Math_random ;;
    let len := r1 * 12 in
    let spiralX := Math.cos angle * len in
    let spiralY := Math.sin angle * len in
    d <- random 0.04 0.06 ;;
    push_particle
      (particle (x + spiralX) (rootY + spiralY) 0 0 1 "#00BFFF" d
                None (Some 0.8) (Some true) None)) ;;;
  for_ 350 (fun _ =>
    r0 <- Math_random ;;
    let angle := Math.PI + r0 * Math.PI in
    r1 <- Math_random ;;
    let rNorm := Math.pow r1 0.6 in
    let r := rNorm * treeWidth * 0.8 in
    let lx := x + r * Math.cos angle in
    let ly := y + r * Math.sin angle * 0.75 in
    rand <- Math_random ;;
    let color := if rand >? 0.8 then "#FFFFFF"
                 else if rand >? 0.5 then "#1E90FF" else "#00FFFF" in
    r2 <- Math_random ;;
    r3 <- Math_random ;;
    d <- random 0.04 0.07 ;;
    push_particle
      (particle lx ly ((r2 - 0.5) * 0.3) ((r3 - 0.5) * 0.3) 1 color d
                (Some false) (Some (if rand >? 0.9 then 1.2 else 0.7))
                (Some true) None)).

Definition explode_love_burst (x y : R) : M unit :=
  for_ 120 (fun _ =>
    r0 <- Math_random ;;
    let angle := r0 * Math.PI * 2 in
    r1 <- Math_random ;;
    let speed := r1 * 6 + 2 in
    let dist := speed / 8 in
    let color := if dist <? 0.4 then "#FFFFE0"
                 else if dist <? 0.7 then "#FF1493" else "#EE82EE" in
    d <- random 0.04 0.06 ;;
    push_particle
      (particle x y (Math.cos angle * speed) (Math.sin angle * speed) 1
                color d (Some true) (Some 2.5) (Some true) (Some "heart"))).

Definition explode_neon_flower (x y : R) : M unit :=
  let petals := 5%nat in
  let pointsPerPetal := 50%nat in
  let baseSize := 8.5 in
  for_ (petals * pointsPerPetal) (fun i =>
    let theta := (Math.PI * 2 * INR i) / INR (petals * pointsPerPetal) in
    let rNorm := Math.pow (Math.abs (Math.cos (2.5 * theta))) 0.6 in
    let r := rNorm * baseSize in
    d <- random 0.04 0.06 ;;
    push_particle
      (particle x y (r * Math.cos theta) (r * Math.sin theta) 1 "#FF4500" d
                (Some true) (Some 2) (Some true) None)) ;;;
  for_ (petals * (pointsPerPetal / 2)) (fun i =>
    let theta :=
      (Math.PI * 2 * INR i) / INR (petals * (pointsPerPetal / 2)) in
    let rNorm := Math.pow (Math.abs (Math.cos (2.5 * theta))) 0.6 in
    let r := rNorm * baseSize * 0.65 in
    d <- random 0.05 0.07 ;;
    push_particle
      (particle x y (r * Math.cos theta) (r * Math.sin theta) 1 "#FFFFE0" d
                (Some false) (Some 1.6) (Some true) None)) ;;;
  for_ 20 (fun i =>
    let angle := (Math.PI * 2 * INR i) / 20 in
    speed <- random 2 5 ;;
    push_particle
      (particle x y (Math.cos angle * speed) (Math.sin angle * speed) 1
                "#E0FFFF" 0.05 (Some true) (Some 1.8) (Some true) None)).

Definition explode_cyan_flower (x y : R) : M unit :=
  for_ 300 (fun _ =>
    r0 <- Math_random ;;
    let angle := r0 * Math.PI * 2 in
    r1 <- Math_random ;;
    let dist := Math.pow r1 0.5 in
    r2 <- Math_random ;;
    let speed := (5 + r2 * 6) * dist in
    let color := if dist <? 0.2 then "rgb(255, 255, 255)"
                 else if dist <? 0.6 then "rgb(0, 255, 255)"
                 else "rgb(30, 144, 255)" in
    d <- random 0.04 0.06 ;;
    r3 <- Math_random ;;
    push_particle
      (particle x y (Math.cos angle * speed) (Math.sin angle * speed) 1
                color d (Some true) (Some (r3 * 2.5 + 1)) (Some true) None)).

Definition explode_floral_burst (x y : R) : M unit :=
  let petalCount := 5 in
  for_ 350 (fun _ =>
    r0 <- Math_random ;;
    let angle := r0 * Math.PI * 2 in
    let petalShape :=
      Math.pow (Math.abs (Math.sin (angle * petalCount * 0.5))) 0.4 in
    r1 <- Math_random ;;
    let dist := r1 * 0.85 + 0.15 in
    r2 <- Math_random ;;
    let speed := (4 + r2 * 5) * petalShape * dist in
    let color := if dist <? 0.35 then "#FFF59D"
                 else if dist <? 0.65 then "#FF7043"
                 else if dist <? 0.85 then "#E91E63" else "#9C27B0" in
    d <- random 0.04 0.07 ;;
    push_particle
      (particle x y (Math.cos angle * speed) (Math.sin angle * speed) 1
                color d (Some true) (Some 2) (Some true) None)) ;;;
  for_ 60 (fun _ =>
    r0 <- Math_random ;;
    let angle := r0 * Math.PI * 2 in
    r1 <- Math_random ;;
    let speed := r1 * 2.5 in
    push_particle
      (particle x y (Math.cos angle * speed) (Math.sin angle * speed) 1
                "#FFFFFF" 0.09 (Some false) (Some 1.8) None None)).

Definition explode_violet_burst (x y : R) : M unit :=
  for_ 120 (fun i =>
    let t := INR i / 120 in
    let a := t * Math.PI * 2 in
    r0 <- Math_random ;;
    let angle := a + r0 * 0.05 in
    speed <- random 5 7.5 ;;
    r1 <- Math_random ;;
    let color := if r1 >? 0.3 then "rgb(138, 43, 226)"
                 else "rgb(180, 130, 255)" in
    d <- random 0.05 0.07 ;;
    push_particle
      (particle x y (Math.cos angle * speed) (Math.sin angle * speed) 1
                color d (Some true) (Some 2) (Some true) None) ;;;
    when (Nat.eqb (i mod 3) 0)
      (let coreSpeed := speed * 0.3 in
       push_particle
         (particle x y (Math.cos angle * coreSpeed)
                   (Math.sin angle * coreSpeed) 1 "rgb(230, 230, 255)" 0.08
                   (Some false) (Some 2.5) None None))).

Definition explode_strobe_flower (x y : R) : M unit :=
  let rayCount := 40%nat in
  for_ rayCount (fun i =>
    let angle := (Math.PI * 2 * INR i) / INR rayCount in
    let speed := 7 in
    push_particle
      (particle x y (Math.cos angle * speed) (Math.sin angle * speed) 1
                "rgb(255, 215, 0)" 0.05 (Some true) (Some 1.8) None None) ;;;
    for_ 3 (fun _ =>
      r0 <- Math_random ;;
      let sVar := speed * (0.9 + r0 * 0.2) in
      r1 <- Math_random ;;
      let aVar := angle + (r1 - 0.5) * 0.15 in
      d <- random 0.06 0.1 ;;
      push_particle
        (particle x y (Math.cos aVar * sVar) (Math.sin aVar * sVar) 1
                  "rgb(255, 255, 240)" d (Some false) (Some 2.2)
                  (Some true) None))) ;;;
  for_ 24 (fun i =>
    let angle := (Math.PI * 2 * INR i) / 24 in
    let speed := 3 in
    push_particle
      (particle x y (Math.cos angle * speed) (Math.sin angle * speed) 1
                "rgb(65, 105, 225)" 0.06 (Some false) (Some 2.5) None None)).

Definition explode_gold_flower (x y : R) : M unit :=
  for_ 100 (fun i =>
    r0 <- Math_random ;;
    let angle := (Math.PI * 2 * INR i) / 100 + r0 * 0.1 in
    speed <- random 6 9 ;;
    d <- random 0.045 0.07 ;;
    push_particle
      (particle x y (Math.cos angle * speed) (Math.sin angle * speed) 1
                "#FFC107" d (Some true) (Some 2) None None)) ;;;
  for_ 50 (fun i =>
    let angle := (Math.PI * 2 * INR i) / 50 in
    let speed := 3.5 in
    r0 <- Math_random ;;
    d <- random 0.06 0.09 ;;
    push_particle
      (particle x y (Math.cos angle * speed) (Math.sin angle * speed) 1
                (if r0 >? 0.5 then "#E0F7FA" else "#80DEEA") d
                (Some false) (Some 2.5) (Some true) None)).

Definition explode_galaxy (x y : R) : M unit :=
  let arms := 3%nat in
  for_ 80 (fun i =>
    let t := INR i / 80 in
    let speed := 1 + t * 5 in
    let angle :=
      t * Math.PI * 4 + INR (i mod arms) * (Math.PI * 2 / INR arms) in
    d <- random 0.06 0.08 ;;
    push_particle
      (particle x y (Math.cos angle * speed) (Math.sin angle * speed) 1
                (if t <? 0.3 then "255, 255, 255" else "0, 255, 255") d
                (Some true) (Some 1.5) None None)) ;;;
  for_ 60 (fun i =>
    let angle := (Math.PI * 2 * INR i) / 60 in
    speed <- random 6 8 ;;
    d <- random 0.07 0.09 ;;
    push_particle
      (particle x y (Math.cos angle * speed) (Math.sin angle * speed) 1
                "138, 43, 226" d (Some false) (Some 2.2) (Some true) None)).

Definition explode_heart (x y : R) : M unit :=
  let color := nth 0 NEON_COLORS "" in
  let count := 60%nat in
  for_ count (fun i =>
    let t := (Math.PI * 2 * INR i) / INR count in
    let hx := 16 * Math.pow (Math.sin t) 3 in
    let hy := - (13 * Math.cos t - 5 * Math.cos (2 * t)
                 - 2 * Math.cos (3 * t) - Math.cos (4 * t)) in
    scale <- random 0.15 0.25 ;;
    d <- random 0.05 0.07 ;;
    push_particle
      (particle x y (hx * scale) (hy * scale) 1 color d
                (Some true) (Some 1.8) (Some true) None)).

Definition explode_ring (x y : R) : M unit :=
  r0 <- Math_random ;;
  let color := pick ICE_COLORS r0 in
  let count := 50%nat in
  for_ count (fun i =>
    let angle := (Math.PI * 2 * INR i) / INR count in
    let speed := 4 in
    d <- random 0.05 0.07 ;;
    push_particle
      (particle x y (Math.cos angle * speed) (Math.sin angle * speed) 1
                color d (Some false) (Some 2) None None)).

Definition explode_glitter (x y : R) : M unit :=
  r0 <- Math_random ;;
  let color := if r0 >? 0.5 then "255, 255, 255" else "175, 238, 238" in
  for_ 100 (fun _ =>
    angle <- random 0 (Math.PI * 2) ;;
    speed <- random 1 6 ;;
    d <- random 0.08 0.12 ;;
    push_particle
      (particle x y (Math.cos angle * speed) (Math.sin angle * speed) 1
                color d (Some false) (Some 1.5) (Some true) None)).

Definition explode_palm (x y : R) : M unit :=
  randTheme <- Math_random ;;
  let theme := if randTheme >? 0.55 then "BLUE"
               else if randTheme >? 0.15 then "SILVER" else "GOLD" in
  let baseColor := if String.eqb theme "BLUE" then "65, 105, 225"
                   else if String.eqb theme "SILVER" then "192, 192, 192"
                   else "255, 165, 0" in
  let accentColor := if String.eqb theme "BLUE" then "224, 255, 255"
                     else if String.eqb theme "SILVER" then "255, 250, 250"
                     else "255, 215, 0" in
  for_ 80 (fun _ =>
    angle <- random 0 (Math.PI * 2) ;;
    speed <- random 4 9 ;;
    r0 <- Math_random ;;
    let color := if r0 >? 0.3 then baseColor else accentColor in
    d <- random 0.06 0.08 ;;
    push_particle
      (particle x y (Math.cos angle * speed) (Math.sin angle * speed) 1
                color d (Some true) (Some 2.8) (Some true) None)).

Definition explode_cosmic (x y : R) : M unit :=
  let rays := 48%nat in
  let angleStep := (Math.PI * 2) / INR rays in
  let raySpeed := 6 in
  r0 <- Math_random ;;
  let rayColor := pick COSMIC_RAY_COLORS r0 in
  for_ rays (fun i =>
    let angle := INR i * angleStep in
    push_particle
      (particle x y (Math.cos angle * raySpeed) (Math.sin angle * raySpeed)
                1 rayColor 0.07 (Some true) (Some 1.5) (Some true) None)) ;;;
  r1 <- Math_random ;;
  let coreColor := pick NEON_COLORS r1 in
  for_ 40 (fun _ =>
    angle <- random 0 (Math.PI * 2) ;;
    speed <- random 0.5 2.5 ;;
    d <- random 0.07 0.09 ;;
    push_particle
      (particle x y (Math.cos angle * speed) (Math.sin angle * speed) 1
                coreColor d (Some false) (Some 2) None None)).

Definition explode_streamer (x y : R) : M unit :=
  r0 <- Math_random ;;
  let color := pick STREAMER_COLORS r0 in
  for_ 60 (fun _ =>
    angle <- random 0 (Math.PI * 2) ;;
    speed <- random 2 5 ;;
    d <- random 0.05 0.07 ;;
    push_particle
      (particle x y (Math.cos angle * speed) (Math.sin angle * speed) 1
                color d (Some true) (Some 1.2) (Some true) None)).

(** One particle of the final [else] branch. *)
Definition standard_particle (x y : R) (color : string) : M unit :=
  angle <- random 0 (Math.PI * 2) ;;
  speed <- random 1 5 ;;
  a <- random 0.6 1 ;;
  d <- random 0.06 0.09 ;;
  push_particle
    (particle x y (Math.cos angle * speed) (Math.sin angle * speed) a
              color d (Some false) (Some 2) None None).

Definition explode_standard (x y : R) : M unit :=
  r0 <- Math_random ;;
  let color := pick STANDARD_COLORS r0 in
  for_ 60 (fun _ => standard_particle x y color).

(** The guard of the drone display:
    [type === 'custom_shape' && customShape && customShape.length > 0]. *)
Definition drone_guard (type : string) : option (list Point.t) :=
  if String.eqb type "custom_shape" then
    match customShape with
    | Some (p :: ps) => Some (p :: ps)
    | _ => None
    end
  else None.

Definition createExplosion (x y hue : R) (type_arg : option string)
    (customColor : option string) : M unit :=
  let type := match type_arg with Some t => t | None => "standard" end in
  match drone_guard type with
  | Some shape => explode_custom_shape x y shape
  | None =>
    if truthy_str customColor then
      explode_customColor x y
        (match customColor with Some c => c | None => "" end)
    else if String.eqb type "tree_burst" then explode_tree_burst x y
    else if String.eqb type "love_burst" then explode_love_burst x y
    else if String.eqb type "neon_flower" then explode_neon_flower x y
    else if String.eqb type "cyan_flower" then explode_cyan_flower x y
    else if String.eqb type "floral_burst" then explode_floral_burst x y
    else if String.eqb type "violet_burst" then explode_violet_burst x y
    else if String.eqb type "strobe_flower" then explode_strobe_flower x y
    else if String.eqb type "gold_flower" then explode_gold_flower x y
    else if String.eqb type "galaxy" then explode_galaxy x y
    else if String.eqb type "heart" then explode_heart x y
    else if String.eqb type "ring" then explode_ring x y
    else if String.eqb type "glitter" then explode_glitter x y
    else if String.eqb type "palm" then explode_palm x y
    else if String.eqb type "cosmic" then explode_cosmic x y
    else if String.eqb type "streamer" then explode_streamer x y
    else explode_standard x y
  end.

(** *** launchFirework and triggerFinale *)

Definition launchFirework (sx sy tx ty : R) (type_arg : option string)
    : M unit :=
  let type := match type_arg with Some t => t | None => "standard" end in
  let angle := Math.atan2 (ty - sy) (tx - sx) in
  let distance :=
    Math.sqrt (Math.pow (tx - sx) 2 + Math.pow (ty - sy) 2) in
  r0 <- Math_random ;;
  push_firework
    (Firework.mk sx sy tx ty 2 angle (IZR (Math.floor (r0 * 360))) 100
                 distance 0 (repeat (Point.mk sx sy) 3) 3 false
                 (Some type) None None).

(** The colour band of ray [i] of the finale, [t = i / rayCount]. *)
Definition finaleColor (t : R) : string :=
  if t <? 0.15 then "hsl(200, 100%, 60%)"
  else if t <? 0.3 then "hsl(170, 100%, 50%)"
  else if t <? 0.45 then "hsl(120, 100%, 60%)"
  else if t <? 0.6 then "hsl(60, 100%, 60%)"
  else if t <? 0.75 then "hsl(0, 100%, 65%)"
  else if t <? 0.9 then "hsl(300, 100%, 60%)"
  else "hsl(270, 100%, 65%)".

Definition triggerFinale : M unit :=
  let width := innerWidth in
  let height := innerHeight in
  let centerX := width / 2 in
  let bottomY := height in
  let rayCount := 60%nat in
  let angleStart := - Math.PI * 0.9 in
  let angleEnd := - Math.PI * 0.1 in
  let angleStep := (angleEnd - angleStart) / INR rayCount in
  for_ rayCount (fun i =>
    let angle := angleStart + INR i * angleStep in
    let t := INR i / INR rayCount in
    let color := finaleColor t in
    r0 <- Math_random ;;
    let velocity := 8 + r0 * 3 in
    push_firework
      (Firework.mk centerX bottomY
                   (centerX + Math.cos angle * height * 0.8)
                   (bottomY + Math.sin angle * height * 0.8)
                   velocity angle 0 100 (height * 0.8) 0
                   (repeat (Point.mk centerX bottomY) 5) 5 false
                   (Some "streamer") (Some color) (Some 3))).

(** *** animate: rockets *)

(** The stroke the rocket loop draws for one projectile
    ([strokeStyle], [lineWidth]). *)
Definition type_in (fw : Firework.t) (tags : list string) : bool :=
  match Firework.type fw with
  | Some t => existsb (String.eqb t) tags
  | None => false
  end.

Definition fireworkStroke (fw : Firework.t) : string * R :=
  if truthy_str (Firework.customColor fw) then
    (match Firework.customColor fw with Some c => c | None => "" end,
     num_or (match Firework.trailWidth fw with Some w => w | None => 0 end)
            2)
  else if type_in fw ["cosmic"; "ring"; "galaxy"; "violet_burst";
                      "cyan_flower"] then
    ("rgba(200, 200, 255, 0.5)", 1.5)
  else if type_in fw ["neon_flower"] then ("rgba(255, 150, 150, 0.6)", 1.5)
  else if type_in fw ["love_burst"] then ("rgba(255, 105, 180, 0.5)", 1)
  else if type_in fw ["tree_burst"; "custom_shape"] then
    ("rgba(0, 255, 255, 0.5)", 1)
  else if type_in fw ["streamer"] then ("rgba(255, 220, 100, 0.4)", 1)
  else if type_in fw ["palm"; "glitter"; "gold_flower"; "strobe_flower";
                      "floral_burst"] then
    ("rgba(255, 250, 250, 0.6)", 2)
  else if type_in fw ["heart"] then ("rgba(255, 105, 180, 0.6)", 1.5)
  else
    (String.concat ""
       ["hsla("; Number_toString (Firework.hue fw); ", 40%, 70%, 0.3)"], 1).

(** The body of the rocket loop up to the arrival test: what it does to
    the projectile object. *)
Definition stepFirework (fw : Firework.t) : Firework.t :=
  (* fw.coordinates.pop(); fw.coordinates.unshift({ x: fw.x, y: fw.y }) *)
  let coordinates :=
    Point.mk (Firework.x fw) (Firework.y fw)
      :: removelast (Firework.coordinates fw) in
  let '(angle, speed) :=
    if truthy_str (Firework.customColor fw) then
      let speed := Firework.speed fw * 0.96 in
      let gravityX := 0 in
      let gravityY := 0.15 in
      let vx := Math.cos (Firework.angle fw) * speed + gravityX in
      let vy := Math.sin (Firework.angle fw) * speed + gravityY in
      (Math.atan2 vy vx, Math.sqrt (vx * vx + vy * vy))
    else
      (Firework.angle fw, Firework.speed fw * 1.015) in
  let vx := Math.cos angle * speed in
  let vy := Math.sin angle * speed in
  let distanceTraveled :=
    calculateDistance (Firework.x fw) (Firework.y fw)
                      (Firework.x fw + vx) (Firework.y fw + vy)
    + Firework.distanceTraveled fw in
  Firework.mk (Firework.x fw + vx) (Firework.y fw + vy)
              (Firework.targetX fw) (Firework.targetY fw)
              speed angle (Firework.hue fw) (Firework.brightness fw)
              (Firework.distanceToTarget fw) distanceTraveled
              coordinates (Firework.coordinateCount fw)
              (Firework.exploded fw) (Firework.type fw)
              (Firework.customColor fw) (Firework.trailWidth fw).

(** [fw.distanceTraveled >= fw.distanceToTarget ||
     (fw.customColor && fw.speed < 1.5)]. *)
Definition arrived (fw : Firework.t) : bool :=
  (Firework.distanceTraveled fw >=? Firework.distanceToTarget fw)
  || (truthy_str (Firework.customColor fw) && (Firework.speed fw <? 1.5)).

Definition explodeFirework (fw : Firework.t) : M unit :=
  createExplosion (Firework.x fw) (Firework.y fw) (Firework.hue fw)
                  (Firework.type fw) (Firework.customColor fw).

(** [for (let i = fireworksRef.current.length - 1; i >= 0; i--)], with
    [k = i + 1] iterations left.  The projectile is updated in place;
    on arrival [createExplosion] runs and the entry is spliced out. *)
Fixpoint fireworksLoop (k : nat) : M unit :=
  match k with
  | O => ret tt
  | S i =>
      fws <- get_fireworks ;;
      match nth_error fws i with
      | None => ret tt     (* not reached: index [i] is always present *)
      | Some fw =>
          let fw := stepFirework fw in
          set_fireworks (set_at i fw fws) ;;;
          when (arrived fw)
            (explodeFirework fw ;;;
             fws <- get_fireworks ;;
             set_fireworks (splice1 i fws))
      end ;;;
      fireworksLoop i
  end.

Definition updateFireworks : M unit :=
  fws <- get_fireworks ;; fireworksLoop (List.length fws).

(** *** animate: particles *)

(** Friction, gravity, motion and the decay subtraction. *)
Definition moveParticle (p : FireworkParticle.t) : FireworkParticle.t :=
  let vx := FireworkParticle.vx p * FRICTION in
  let vy := FireworkParticle.vy p * FRICTION + GRAVITY in
  FireworkParticle.mk (FireworkParticle.x p + vx) (FireworkParticle.y p + vy)
                      vx vy
                      (FireworkParticle.alpha p - FireworkParticle.decay p)
                      (FireworkParticle.color p) (FireworkParticle.decay p)
                      (FireworkParticle.useTrail p) (FireworkParticle.trail p)
                      (FireworkParticle.size p) (FireworkParticle.shimmer p)
                      (FireworkParticle.shape p).

Definition set_alpha (a : R) (p : FireworkParticle.t) : FireworkParticle.t :=
  FireworkParticle.mk (FireworkParticle.x p) (FireworkParticle.y p)
                      (FireworkParticle.vx p) (FireworkParticle.vy p) a
                      (FireworkParticle.color p) (FireworkParticle.decay p)
                      (FireworkParticle.useTrail p) (FireworkParticle.trail p)
                      (FireworkParticle.size p) (FireworkParticle.shimmer p)
                      (FireworkParticle.shape p).

Definition set_trail (t : list Point.t) (p : FireworkParticle.t)
    : FireworkParticle.t :=
  FireworkParticle.mk (FireworkParticle.x p) (FireworkParticle.y p)
                      (FireworkParticle.vx p) (FireworkParticle.vy p)
                      (FireworkParticle.alpha p)
                      (FireworkParticle.color p) (FireworkParticle.decay p)
                      (FireworkParticle.useTrail p) (Some t)
                      (FireworkParticle.size p) (FireworkParticle.shimmer p)
                      (FireworkParticle.shape p).

(** [if (p.shimmer) { if (Math.random() > 0.85)
                        p.alpha = Math.random() * 0.4 + 0.6 }]. *)
Definition shimmerParticle (p : FireworkParticle.t) : M FireworkParticle.t :=
  if truthy_flag (FireworkParticle.shimmer p) then
    r0 <- Math_random ;;
    if r0 >? 0.85 then
      r1 <- Math_random ;; ret (set_alpha (r1 * 0.4 + 0.6) p)
    else ret p
  else ret p.

(** [p.size && p.size > 2 ? 15 : 8]. *)
Definition maxTrail (p : FireworkParticle.t) : nat :=
  match FireworkParticle.size p with
  | Some s => if negb (Req_b s 0) && (s >? 2) then 15%nat else 8%nat
  | None => 8%nat
  end.

Definition trailParticle (p : FireworkParticle.t) : FireworkParticle.t :=
  if truthy_flag (FireworkParticle.useTrail p) then
    let t0 := match FireworkParticle.trail p with
              | Some t => t
              | None => []
              end in
    let t1 := t0 ++ [Point.mk (FireworkParticle.x p) (FireworkParticle.y p)] in
    set_trail (if (maxTrail p <? List.length t1)%nat then tl t1 else t1) p
  else p.

Definition stepParticle (p : FireworkParticle.t) : M FireworkParticle.t :=
  p <- shimmerParticle (moveParticle p) ;; ret (trailParticle p).

(** [p.alpha <= 0]: the particle is spliced out instead of drawn. *)
Definition faded (p : FireworkParticle.t) : bool :=
  FireworkParticle.alpha p <=? 0.

(** The colour the renderer hands to the canvas for a trail stroke and
    for a dot fill. *)
Definition particleStyle (p : FireworkParticle.t) : string :=
  if startsWith (FireworkParticle.color p) "hsl" then FireworkParticle.color p
  else if startsWith (FireworkParticle.color p) "rgb"
       then FireworkParticle.color p
  else String.concat ""
         ["rgba("; FireworkParticle.color p; ", ";
          Number_toString (FireworkParticle.alpha p); ")"].

(** What the render branch of the particle loop draws. *)
Inductive Draw : Type :=
| StrokeTrail (strokeStyle : string) (lineWidth : R) (path : list Point.t)
| FillHeart (fillStyle : string) (hx hy s : R)
| FillDot (fillStyle : string) (x y radius : R).

Definition size_or_2 (p : FireworkParticle.t) : R :=
  num_or (match FireworkParticle.size p with Some s => s | None => 0 end) 2.

Definition renderParticle (p : FireworkParticle.t) : list Draw :=
  (match FireworkParticle.trail p with
   | Some t =>
       if truthy_flag (FireworkParticle.useTrail p)
          && (1 <? List.length t)%nat
       then [StrokeTrail (particleStyle p) (size_or_2 p * 0.5) t]
       else []
   | None => []
   end)
  ++
  (if match FireworkParticle.shape p with
      | Some s => String.eqb s "heart"
      | None => false
      end
   then
     let s := size_or_2 p in
     [FillHeart (FireworkParticle.color p) (FireworkParticle.x p)
                (FireworkParticle.y p - s * 0.5) s]
   else if negb (truthy_flag (FireworkParticle.useTrail p)) then
     [FillDot (particleStyle p) (FireworkParticle.x p) (FireworkParticle.y p)
              (size_or_2 p)]
   else []).

(** [for (let i = particlesRef.current.length - 1; i >= 0; i--)], with
    [k = i + 1] iterations left. *)
Fixpoint particlesLoop (k : nat) : M unit :=
  match k with
  | O => ret tt
  | S i =>
      ps <- get_particles ;;
      match nth_error ps i with
      | None => ret tt     (* not reached: index [i] is always present *)
      | Some p =>
          p <- stepParticle p ;;
          if faded p then set_particles (splice1 i (set_at i p ps))
          else set_particles (set_at i p ps)
      end ;;;
      particlesLoop i
  end.

Definition updateParticles : M unit :=
  ps <- get_particles ;; particlesLoop (List.length ps).

(** *** animate: auto-fire and the whole frame *)

Definition autoFire (now : R) : M unit :=
  fun w =>
    if enableAutoFire && negb (isDrawing w) && negb isHandDrawingMode then
      if now >? nextAutoFireTime w then
        (r0 <- Math_random ;;
         let startX := innerWidth * 0.5 + (r0 - 0.5) * 300 in
         let startY := innerHeight in
         r1 <- Math_random ;;
         let targetX := innerWidth * 0.15 + r1 * innerWidth * 0.7 in
         r2 <- Math_random ;;
         let targetY := innerHeight * 0.15 + r2 * innerHeight * 0.35 in
         type <- getNextFireworkType ;;
         launchFirework startX startY targetX targetY type ;;;
         delay <- random 800 2000 ;;
         set_nextAutoFireTime (now + delay)) w
      else (tt, w)
    else (tt, w).

(** One frame, as far as projectiles and particles are concerned (the
    background fade, the stars and the hand-drawn strokes touch neither). *)
Definition animate (now : R) : M unit :=
  autoFire now ;;; updateFireworks ;;; updateParticles.

(** [n] frames of the rocket loop / of the particle loop alone. *)
Fixpoint frames (n : nat) (step : M unit) : M unit :=
  match n with
  | O => ret tt
  | S n' => step ;;; frames n' step
  end.

End FireworksCanvas.

(** ** The rest of the component: stars, drawing buffers, pointer handlers *)

Module Star.
Record t : Type := mk {
  x : R;
  y : R;
  size : R;
  opacity : R;
  blinkSpeed : R
}.
End Star.

(** A pointer event as [getEventPos] reads it: a mouse event with its
    [clientX], [clientY], or a touch event with its [touches] list. *)
Inductive PointerEvent : Type :=
| MouseEvent (clientX clientY : R)
| TouchEvent (touches : list Point.t).

(** [getEventPos]; reading [e.touches[0].clientX] of an empty touch list
    throws, here [None]. *)
Definition getEventPos (e : PointerEvent) : option Point.t :=
  match e with
  | TouchEvent [] => None
  | TouchEvent (t :: _) => Some (Point.mk (Point.x t) (Point.y t))
  | MouseEvent clientX clientY => Some (Point.mk clientX clientY)
  end.

(** The refs of the component that [World] does not hold. *)
Record Canvas : Type := mkCanvas {
  world : World;
  stars : list Star.t;                     (* starsRef.current *)
  completedPaths : list (list Point.t);    (* completedPathsRef.current *)
  currentPath : list Point.t;              (* currentPathRef.current *)
  lastInteractionTime : R                  (* lastInteractionTimeRef.current *)
}.

Definition set_isDrawing (b : bool) (w : World) : World :=
  mkWorld (fireworks w) (particles w) (currentFireworkIndex w)
          (nextAutoFireTime w) b (randomCalls w).

(** The update the star loop of [animate] makes to one star. *)
Definition blinkStar (star : Star.t) : Star.t :=
  let opacity := Star.opacity star + Star.blinkSpeed star in
  let blinkSpeed :=
    if (opacity >? 1) || (opacity <? 0) then Star.blinkSpeed star * -1
    else Star.blinkSpeed star in
  Star.mk (Star.x star) (Star.y star) (Star.size star) opacity blinkSpeed.

(** The alpha of the star's fill style, [Math.abs(star.opacity)]. *)
Definition starAlpha (star : Star.t) : R := Math.abs (Star.opacity star).

Section CanvasHandlers.

Variable rnd : nat -> R.
Variable customShape : option (list Point.t).
Variable isHandDrawingMode : bool.
Variable enableAutoFire : bool.
Variable innerWidth innerHeight : R.

(** One iteration of the loop of [initStars]. *)
Definition newStar : M Star.t :=
  r0 <- Math_random rnd ;;
  r1 <- Math_random rnd ;;
  r2 <- Math_random rnd ;;
  r3 <- Math_random rnd ;;
  r4 <- Math_random rnd ;;
  ret (Star.mk (r0 * innerWidth) (r1 * innerHeight * 0.8) (r2 * 2) r3
               (r4 * 0.02 + 0.005)).

Fixpoint makeStars (count : nat) : M (list Star.t) :=
  match count with
  | O => ret []
  | S count' =>
      star <- newStar ;; rest <- makeStars count' ;; ret (star :: rest)
  end.

(** [initStars]: the star array is rebuilt wholesale. *)
Definition initStars (c : Canvas) : Canvas :=
  let count := if innerWidth <? 600 then 50%nat else 100%nat in
  let (new_stars, w) := makeStars count (world c) in
  mkCanvas w new_stars (completedPaths c) (currentPath c)
           (lastInteractionTime c).


(** [clearDrawingCanvas]. *)
Definition clearDrawingCanvas (c : Canvas) : Canvas :=
  mkCanvas (world c) (stars c) [] [] (lastInteractionTime c).

(** [handleInteractionStart] at time [now]; when [getEventPos] throws, the
    refs keep what was written before the call. *)
Definition handleInteractionStart (now : R) (e : PointerEvent) (c : Canvas)
    : Canvas :=
  if isHandDrawingMode then
    let w := set_isDrawing true (world c) in
    match getEventPos e with
    | Some p =>
        mkCanvas w (stars c) (completedPaths c)
                 [Point.mk (Point.x p) (Point.y p)] now
    | None => mkCanvas w (stars c) (completedPaths c) [] now
    end
  else
    match customShape with
    | Some _ =>
        match getEventPos e with
        | Some p =>
            mkCanvas (exec (createExplosion rnd customShape (Point.x p)
                                            (Point.y p) 0
                                            (Some "custom_shape") None)
                           (world c))
                     (stars c) (completedPaths c) (currentPath c) now
        | None =>
            mkCanvas (world c) (stars c) (completedPaths c) (currentPath c)
                     now
        end
    | None =>
        match getEventPos e with
        | Some p =>
            let startX := innerWidth / 2 in
            let startY := innerHeight in
            mkCanvas (exec (type <- getNextFireworkType ;;
                            launchFirework rnd startX startY (Point.x p)
                                           (Point.y p) type)
                           (world c))
                     (stars c) (completedPaths c) (currentPath c) now
        | None =>
            mkCanvas (world c) (stars c) (completedPaths c) (currentPath c)
                     now
        end
    end.

(** [handleInteractionMove]. *)
Definition handleInteractionMove (e : PointerEvent) (c : Canvas) : Canvas :=
  if isHandDrawingMode && isDrawing (world c) then
    match getEventPos e with
    | Some p =>
        mkCanvas (world c) (stars c) (completedPaths c)
                 (currentPath c ++ [Point.mk (Point.x p) (Point.y p)])
                 (lastInteractionTime c)
    | None => c
    end
  else c.

(** [handleInteractionEnd] at time [now]. *)
Definition handleInteractionEnd (now : R) (c : Canvas) : Canvas :=
  if isHandDrawingMode && isDrawing (world c) then
    mkCanvas (set_isDrawing false (world c)) (stars c)
             (if (0 <? List.length (currentPath c))%nat
              then completedPaths c ++ [currentPath c]
              else completedPaths c)
             [] now
  else
    mkCanvas (world c) (stars c) (completedPaths c) (currentPath c) now.

(** One [animate] frame on all the refs: the projectile and particle part
    is [animate]; the star loop blinks every star. *)
Definition animateCanvas (now : R) (c : Canvas) : Canvas :=
  mkCanvas (exec (animate rnd customShape isHandDrawingMode enableAutoFire
                          innerWidth innerHeight now) (world c))
           (map blinkStar (stars c)) (completedPaths c) (currentPath c)
           (lastInteractionTime c).

End CanvasHandlers.

(** ** The page component that drives the canvas (App) *)

Inductive DrawingMode : Type := hand | text.

Record DrawingConfig : Type := mkDrawingConfig {
  isOpen : bool;
  mode : DrawingMode
}.

Record AppState : Type := mkApp {
  drawingConfig : DrawingConfig;
  appCustomShape : option (list Point.t);   (* customShape *)
  hasInteracted : bool;
  textInput : string
}.


Definition prop_enableAutoFire (a : AppState) : bool := hasInteracted a.

Definition handleInteraction (a : AppState) : AppState :=
  if negb (hasInteracted a)
  then mkApp (drawingConfig a) (appCustomShape a) true (textInput a)
  else a.

Definition toggleDrawingMenu (a : AppState) : AppState :=
  mkApp (mkDrawingConfig (negb (isOpen (drawingConfig a))) hand)
        (appCustomShape a) (hasInteracted a) (textInput a).

Definition clearShape (a : AppState) : AppState :=
  mkApp (mkDrawingConfig false hand) None (hasInteracted a) (textInput a).


Definition handleHandDrawClear (ref : option Canvas) : option Canvas :=
  match ref with
  | Some c => Some (clearDrawingCanvas c)
  | None => None
  end.

(** The pixel scan of [processTextToPoints]:
    [for (let v = start; v < bound; v += step)], with [fuel] iterations
    at most. *)
Fixpoint for_step {A} (fuel v bound step : nat) (body : nat -> list A)
    : list A :=
  match fuel with
  | O => []
  | S fuel' =>
      if (v <? bound)%nat
      then body v ++ for_step fuel' (v + step) bound step body
      else []
  end.

(** [data] is [imageData.data], [width] and [height] are those of the
    offscreen canvas; a read past the end of [data] is [undefined], which
    is not [> 128]. *)
Definition scanPixels (data : list nat) (width height : nat)
    : list Point.t :=
  let step := 6%nat in
  for_step height 0 height step (fun y =>
    for_step width 0 width step (fun x =>
      let index := ((y * width + x) * 4)%nat in
      if (128 <? nth index data 0)%nat
      then [Point.mk (INR x) (INR y)]
      else [])).

(** Step 4 of [processTextToPoints]: the scanned points are normalized in
    place and committed; with no bright pixel nothing is set. *)
Definition commitTextPoints (points : list Point.t) (a : AppState)
    : AppState :=
  if (0 <? List.length points)%nat then
    match bounds_of points with
    | mkBounds (Some lx) (Some hx) (Some ly) (Some hy) =>
        let centerX := (lx + hx) / 2 in
        let centerY := (ly + hy) / 2 in
        let width := hx - lx in
        let height := hy - ly in
        let maxDim := num_or (Math.max width height) 1 in
        let scaleFactor := 2 / maxDim in
        let normalizedPoints :=
          map (fun p => Point.mk ((Point.x p - centerX) * scaleFactor)
                                 ((Point.y p - centerY) * scaleFactor))
              points in
        mkApp (mkDrawingConfig false (mode (drawingConfig a)))
              (Some normalizedPoints) (hasInteracted a) ""
    | _ => a   (* not reached: the seeds are replaced by the first point *)
    end
  else a.


(** The segment the rocket loop strokes for a projectile, from
    [fw.coordinates[fw.coordinates.length - 1]] to the current position;
    [None] where that entry is [undefined] and reading its [x] throws. *)
Definition fireworkSegment (fw : Firework.t) : option (Point.t * Point.t) :=
  match nth_error (Firework.coordinates fw)
                  (List.length (Firework.coordinates fw) - 1) with
  | Some c => Some (c, Point.mk (Firework.x fw) (Firework.y fw))
  | None => None
  end.
(** * Vocabulary of the properties *)

(** The state of a freshly mounted component. *)
Definition world0 : World := mkWorld [] [] 0 0 false 0.


(** The bounding box of a point set is [(lx, hx, ly, hy)]. *)
Definition has_box (points : list Point.t) (lx hx ly hy : R) : Prop :=
  bounds_of points = mkBounds (Some lx) (Some hx) (Some ly) (Some hy).


(** The square with corners (-1,-1), (1,-1), (1,1), (-1,1). *)
Definition unit_square : list Point.t :=
  [Point.mk (-1) (-1); Point.mk 1 (-1); Point.mk 1 1; Point.mk (-1) 1].


(** The projectile pushed for ray [i] when [Math.random()] returns [r0]. *)
Definition finaleRay (innerWidth innerHeight : R) (i : nat) (r0 : R)
    : Firework.t :=
  let angle :=
    - Math.PI * 0.9 + INR i * ((- Math.PI * 0.1 - - Math.PI * 0.9) / INR 60) in
  Firework.mk (innerWidth / 2) innerHeight
              (innerWidth / 2 + Math.cos angle * innerHeight * 0.8)
              (innerHeight + Math.sin angle * innerHeight * 0.8)
              (8 + r0 * 3) angle 0 100 (innerHeight * 0.8) 0
              (repeat (Point.mk (innerWidth / 2) innerHeight) 5) 5 false
              (Some "streamer") (Some (finaleColor (INR i / INR 60)))
              (Some 3).

(** [w'] is [w] with the particles [new] appended and [k] more random
    numbers consumed. *)
Definition appended (w : World) (k : nat) (new : list FireworkParticle.t)
    : World :=
  mkWorld (fireworks w) (particles w ++ new) (currentFireworkIndex w)
          (nextAutoFireTime w) (isDrawing w) (randomCalls w + k).

(** [m] consumes [k] random numbers and pushes the single particle
    [new c], where [c] is the number of random numbers consumed before. *)
Definition pushes1 (m : M unit) (k : nat) (new : nat -> FireworkParticle.t)
    : Prop :=
  forall w, exec m w = appended w k [new (randomCalls w)].

(** The tags [createExplosion] tests its [type] argument against. *)
Definition GENERATOR_TAGS : list string :=
  ["custom_shape"; "tree_burst"; "love_burst"; "neon_flower"; "cyan_flower";
   "floral_burst"; "violet_burst"; "strobe_flower"; "gold_flower"; "galaxy";
   "heart"; "ring"; "glitter"; "palm"; "cosmic"; "streamer"].

(** The three colours of the drone display. *)
Definition DRONE_COLORS : list string := ["#00FFFF"; "#FFFFFF"; "#1E90FF"].

(** The particle the final [else] branch pushes when [c] random numbers
    have been consumed before. *)
Definition stdParticle (rnd : nat -> R) (x y : R) (color : string) (c : nat)
    : FireworkParticle.t :=
  let angle := rnd c * (Math.PI * 2 - 0) + 0 in
  let speed := rnd (S c) * (5 - 1) + 1 in
  particle x y (Math.cos angle * speed) (Math.sin angle * speed)
           (rnd (S (S c)) * (1 - 0.6) + 0.6) color
           (rnd (S (S (S c))) * (0.09 - 0.06) + 0.06)
           (Some false) (Some 2) None None.

(** The 60 particles of the standard burst: one palette pick, then four
    random numbers per particle. *)
Definition standardBatch (rnd : nat -> R) (x y : R) (c : nat)
    : list FireworkParticle.t :=
  map (fun j => stdParticle rnd x y (pick STANDARD_COLORS (rnd c))
                            (S c + 4 * j)%nat)
      (seq 0 60).

(** The particle of the override-colour burst. *)
Definition overrideParticle (rnd : nat -> R) (x y : R) (color : string)
    (c : nat) : FireworkParticle.t :=
  particle x y ((rnd c - 0.5) * 3) ((rnd (S c) - 0.5) * 3) 1 color 0.1
           (Some false) (Some 2) None None.

(** The particle of the drone display for shape point [p]. *)
Definition droneParticle (rnd : nat -> R) (x y : R) (p : Point.t) (c : nat)
    : FireworkParticle.t :=
  let rand := rnd c in
  particle (x + Point.x p * 60) (y + Point.y p * 60)
           ((rnd (S c) - 0.5) * 0.15) ((rnd (S (S c)) - 0.5) * 0.15) 1
           (if rand >? 0.8 then "#FFFFFF"
            else if rand >? 0.5 then "#1E90FF" else "#00FFFF")
           (rnd (S (S (S c))) * (0.06 - 0.04) + 0.04)
           (Some false) (Some (if rand >? 0.9 then 1.5 else 0.8))
           (Some true) None.

(** What the standard radial burst adds to a world. *)
Definition standard_burst (w w' : World) : Prop :=
  exists (color : string) (batch : list FireworkParticle.t),
    In color STANDARD_COLORS /\
    List.length batch = 60%nat /\
    particles w' = particles w ++ batch /\
    forall p, In p batch ->
      FireworkParticle.color p = color /\
      0.6 <= FireworkParticle.alpha p <= 1 /\
      FireworkParticle.useTrail p = Some false /\
      FireworkParticle.shimmer p = None.

(** What the override-colour burst adds to a world. *)
Definition override_burst (color : string) (w w' : World) : Prop :=
  exists batch : list FireworkParticle.t,
    List.length batch = 10%nat /\
    particles w' = particles w ++ batch /\
    forall p, In p batch ->
      FireworkParticle.color p = color /\
      FireworkParticle.alpha p = 1 /\
      FireworkParticle.decay p = 0.1 /\
      FireworkParticle.useTrail p = Some false.

(** [w] with [fireworksRef.current] / [particlesRef.current] replaced. *)
Definition with_fireworks (fs : list Firework.t) (w : World) : World :=
  mkWorld fs (particles w) (currentFireworkIndex w) (nextAutoFireTime w)
          (isDrawing w) (randomCalls w).

Definition with_particles (ps : list FireworkParticle.t) (w : World) : World :=
  mkWorld (fireworks w) ps (currentFireworkIndex w) (nextAutoFireTime w)
          (isDrawing w) (randomCalls w).

(** [m] neither reads nor writes [fireworksRef]. *)
Definition fw_frame {A} (m : M A) : Prop :=
  forall w fs,
    m (with_fireworks fs w) = (fst (m w), with_fireworks fs (snd (m w))).

(** The projectiles that stay after this frame, stepped, in array order. *)
Definition survivors (fws : list Firework.t) : list Firework.t :=
  filter (fun f => negb (arrived f)) (map stepFirework fws).

(** The projectiles that arrive in this frame, in the order the loop
    meets them (last index first). *)
Definition arrivals (fws : list Firework.t) : list Firework.t :=
  rev (filter arrived (map stepFirework fws)).


(** The projectile [launchFirework] builds for (400, 600) -> (400, 100). *)
Definition launched (r0 : R) : Firework.t :=
  Firework.mk 400 600 400 100 2 (Math.atan2 (100 - 600) (400 - 400))
              (IZR (Math.floor (r0 * 360))) 100
              (Math.sqrt (Math.pow (400 - 400) 2 + Math.pow (100 - 600) 2)) 0
              (repeat (Point.mk 400 600) 3) 3 false (Some "standard") None None.

(** The loop as a recursion on the array: the last particle is handled
    first, a faded particle is dropped, the others keep their order. *)
Fixpoint settleParticles (rnd : nat -> R) (ps : list FireworkParticle.t)
    : M (list FireworkParticle.t) :=
  match ps with
  | [] => ret []
  | p :: rest =>
      tail <- settleParticles rnd rest ;;
      p' <- stepParticle rnd p ;;
      ret (if faded p' then tail else p' :: tail)
  end.

(** One frame of a particle without the shimmer flag. *)
Definition ageParticle (p : FireworkParticle.t) : FireworkParticle.t :=
  trailParticle (moveParticle p).

(** The shimmer flag is absent or false. *)
Definition plain (p : FireworkParticle.t) : Prop :=
  truthy_flag (FireworkParticle.shimmer p) = false.

(** [p] is still visible after each of the first [n] frames. *)
Definition alive_through (n : nat) (p : FireworkParticle.t) : bool :=
  forallb (fun k => negb (FireworkParticle.alpha p
                          - INR k * FireworkParticle.decay p <=? 0))
          (seq 1 n).

(** A particle of the standard burst with alpha 1 and decay 0.5. *)
Definition fading_particle : FireworkParticle.t :=
  FireworkParticle.mk 0 0 0 0 1 "255, 182, 193" 0.5 (Some false) None
                      (Some 2) None None.

(** *** Vocabulary of the further properties *)


(** The points a drawing holds, stroke after stroke, then the stroke in
    progress. *)
Definition capturedPoints (c : Canvas) : list Point.t :=
  List.concat (completedPaths c) ++ currentPath c.

(** One drag gesture in the canvas: pointer down on [e0], the moves, then
    pointer up. *)
Definition stroke (rnd : nat -> R) (customShape : option (list Point.t))
    (isHandDrawingMode : bool) (innerWidth innerHeight : R)
    (now : R) (e0 : PointerEvent) (moves : list PointerEvent) (now' : R)
    (c : Canvas) : Canvas :=
  handleInteractionEnd isHandDrawingMode now'
    (fold_left (fun c e => handleInteractionMove isHandDrawingMode e c) moves
       (handleInteractionStart rnd customShape isHandDrawingMode
                               innerWidth innerHeight now e0 c)).



(** What the star oscillator keeps: the opacity overshoots [[0, 1]] by at
    most one blink step, and the blink speed points back inside whenever
    the opacity is outside. *)
Definition star_inv (s : Star.t) : Prop :=
  Rabs (Star.blinkSpeed s) <= 1 /\
  - Rabs (Star.blinkSpeed s) <= Star.opacity s
    <= 1 + Rabs (Star.blinkSpeed s) /\
  (1 < Star.opacity s -> Star.blinkSpeed s < 0) /\
  (Star.opacity s < 0 -> 0 < Star.blinkSpeed s).

(** A star as [initStars] makes it. *)
Definition star_fresh (s : Star.t) : Prop :=
  0 <= Star.opacity s < 1 /\ 0.005 <= Star.blinkSpeed s < 0.025 /\
  0 <= Star.size s < 2.

(** The frames of the canvas at the given times, in order. *)
Definition runFrames (rnd : nat -> R) (customShape : option (list Point.t))
    (isHandDrawingMode enableAutoFire : bool) (innerWidth innerHeight : R)
    (times : list R) (c : Canvas) : Canvas :=
  fold_left (fun c now =>
               animateCanvas rnd customShape isHandDrawingMode enableAutoFire
                             innerWidth innerHeight now c)
            times c.

(** [m] returns a value satisfying [R] and appends exactly [n] particles,
    each satisfying [Q], to the particle array, whatever the state. *)
Definition emits (Q : FireworkParticle.t -> Prop) {A} (n : nat) (m : M A)
    (R : A -> Prop) : Prop :=
  forall w,
    R (eval m w) /\
    exists batch,
      particles (exec m w) = particles w ++ batch /\
      List.length batch = n /\ Forall Q batch.

(** [f s + f (s + 1) + ... + f (s + n - 1)]. *)
Fixpoint sumf (f : nat -> nat) (s n : nat) : nat :=
  match n with
  | O => O
  | S n' => (f s + sumf f (S s) n')%nat
  end.

(** A particle as an explosion makes it: no trail yet, alpha in
    [[0.6, 1]], decay in [[0.04, 0.12]], a size in [[0.7, 3.5]]. *)
Definition fresh_particle (p : FireworkParticle.t) : Prop :=
  FireworkParticle.trail p = None /\
  0.6 <= FireworkParticle.alpha p <= 1 /\
  0.04 <= FireworkParticle.decay p <= 0.12 /\
  match FireworkParticle.size p with
  | Some s => 0.7 <= s <= 3.5
  | None => False
  end.

(** The trail holds no more points than the cap of the particle. *)
Definition trail_ok (p : FireworkParticle.t) : Prop :=
  match FireworkParticle.trail p with
  | Some t => (List.length t <= maxTrail p)%nat
  | None => True
  end.

(** How many particles each pattern type bursts into. *)
Definition burstSize (type : string) : nat :=
  if String.eqb type "tree_burst" then 450
  else if String.eqb type "love_burst" then 120
  else if String.eqb type "neon_flower" then 395
  else if String.eqb type "cyan_flower" then 300
  else if String.eqb type "floral_burst" then 410
  else if String.eqb type "violet_burst" then 160
  else if String.eqb type "strobe_flower" then 184
  else if String.eqb type "gold_flower" then 150
  else if String.eqb type "galaxy" then 140
  else if String.eqb type "heart" then 60
  else if String.eqb type "ring" then 50
  else if String.eqb type "glitter" then 100
  else if String.eqb type "palm" then 80
  else if String.eqb type "cosmic" then 88
  else if String.eqb type "streamer" then 60
  else 60.

(** How many particles a call of [createExplosion] appends. *)
Definition explosionSize (customShape : option (list Point.t))
    (type_arg customColor : option string) : nat :=
  let type := match type_arg with Some t => t | None => "standard" end in
  match drone_guard customShape type with
  | Some shape => List.length shape
  | None => if truthy_str customColor then 10%nat else burstSize type
  end.

(** The trail of every particle on the canvas is within its cap. *)
Definition trails_capped (c : Canvas) : Prop :=
  Forall trail_ok (particles (world c)).

(** [p.shape] is not ['heart']. *)
Definition not_heart (p : FireworkParticle.t) : Prop :=
  match FireworkParticle.shape p with
  | Some s => String.eqb s "heart"
  | None => false
  end = false.

(** What the renderer makes of a particle [q] that is not a heart, [k]
    frames after its explosion: a trailing particle has a trail of
    [min k cap] points and is drawn as that stroke alone, except on the
    first frame, where nothing is drawn; any other particle has no trail
    and is drawn as one dot. *)
Definition trail_drawn (toStr : R -> string) (k : nat)
    (q : FireworkParticle.t) : Prop :=
  if truthy_flag (FireworkParticle.useTrail q) then
    exists t,
      FireworkParticle.trail q = Some t /\
      List.length t = Nat.min k (maxTrail q) /\
      renderParticle toStr q
      = if (k =? 1)%nat then []
        else [StrokeTrail (particleStyle toStr q) (size_or_2 q * 0.5) t]
  else
    FireworkParticle.trail q = None /\
    renderParticle toStr q
    = [FillDot (particleStyle toStr q) (FireworkParticle.x q)
               (FireworkParticle.y q) (size_or_2 q)].

(** [p.trail], an absent trail read as empty. *)
Definition trail_or_nil (p : FireworkParticle.t) : list Point.t :=
  match FireworkParticle.trail p with
  | Some t => t
  | None => []
  end.

(** The stored trail of a projectile has as many points as it was created
    with, 3 for a launch and 5 for a finale ray. *)
Definition coords_ok (fw : Firework.t) : Prop :=
  List.length (Firework.coordinates fw) = Firework.coordinateCount fw /\
  (Firework.coordinateCount fw = 3%nat \/ Firework.coordinateCount fw = 5%nat).

Definition trailed (w : World) : Prop := Forall coords_ok (fireworks w).

(** * Properties *)

(** ** Tactics and basic facts *)

Ltac rcases :=
  unfold Math.min, Math.max, Rmin, Rmax, Rgtb, Rgeb, Rltb, Rleb, Req_b in *;
  repeat match goal with
         | |- context [Rle_dec ?a ?b] => destruct (Rle_dec a b)
         | |- context [Rlt_dec ?a ?b] => destruct (Rlt_dec a b)
         | |- context [Req_dec_T ?a ?b] => destruct (Req_dec_T a b)
         | H : context [Rle_dec ?a ?b] |- _ => destruct (Rle_dec a b)
         | H : context [Rlt_dec ?a ?b] |- _ => destruct (Rlt_dec a b)
         | H : context [Req_dec_T ?a ?b] |- _ => destruct (Req_dec_T a b)
         end.

Lemma Rltb_true (a b : R) : (a <? b) = true <-> a < b.
Proof. rcases; split; try lra; try discriminate; auto. Qed.

Lemma Rltb_false (a b : R) : (a <? b) = false <-> b <= a.
Proof. rcases; split; try lra; try discriminate; auto. Qed.

Lemma Rleb_true (a b : R) : (a <=? b) = true <-> a <= b.
Proof. rcases; split; try lra; try discriminate; auto. Qed.

Lemma Rleb_false (a b : R) : (a <=? b) = false <-> b < a.
Proof. rcases; split; try lra; try discriminate; auto. Qed.

(** ** The round-robin selector *)

Section Selector.

Lemma getNextFireworkType_index (w : World) :
  currentFireworkIndex (exec getNextFireworkType w)
  = ((currentFireworkIndex w + 1) mod 16)%nat.
Proof. reflexivity. Qed.

Lemma selectMany_S (n : nat) (w : World) :
  eval (selectMany (S n)) w
  = nth_error FIREWORK_TYPES (currentFireworkIndex w)
      :: eval (selectMany n) (exec getNextFireworkType w).
Proof.
  unfold eval, exec. cbn [selectMany]. unfold bind at 1.
  destruct (getNextFireworkType w) as [t w'] eqn:E. cbn [snd].
  unfold bind. destruct (selectMany n w') as [ts w'']. cbn.
  unfold getNextFireworkType in E. now inversion E.
Qed.

Lemma selectMany_length (n : nat) : forall w,
  List.length (eval (selectMany n) w) = n.
Proof.
  induction n as [|n IH]; intros w; [reflexivity|].
  rewrite selectMany_S. cbn. now rewrite IH.
Qed.

Lemma selectMany_nth (n : nat) : forall w k,
  (currentFireworkIndex w < 16)%nat -> (k < n)%nat ->
  nth k (eval (selectMany n) w) None
  = nth_error FIREWORK_TYPES ((currentFireworkIndex w + k) mod 16).
Proof.
  induction n as [|n IH]; intros w k Hw Hk; [lia|].
  rewrite selectMany_S. destruct k as [|k].
  - cbn [nth]. now rewrite Nat.add_0_r, Nat.mod_small.
  - cbn [nth]. rewrite IH; rewrite ?getNextFireworkType_index;
      [|apply Nat.mod_upper_bound; discriminate|lia].
    rewrite Nat.Div0.add_mod_idemp_l. f_equal. f_equal. lia.
Qed.

Lemma FIREWORK_TYPES_nth_error (t : string) :
  In t FIREWORK_TYPES <->
  exists j, (j < 16)%nat /\ nth_error FIREWORK_TYPES j = Some t.
Proof.
  split.
  - intros H. apply In_nth_error in H as [j Hj]. exists j. split; [|easy].
    change 16%nat with (List.length FIREWORK_TYPES).
    apply nth_error_Some. rewrite Hj. discriminate.
  - intros [j [_ Hj]]. eapply nth_error_In; eauto.
Qed.

Lemma custom_shape_not_listed : ~ In "custom_shape" FIREWORK_TYPES.
Proof.
  cbv [FIREWORK_TYPES In]. intros H.
  repeat (destruct H as [H|H]; [discriminate H|]). exact H.
Qed.

End Selector.

(** What auto-fire launches: nothing, or one projectile whose type the
    selector returned. *)
Lemma autoFire_launch_type rnd isHandDrawingMode enableAutoFire iw ih now w :
  fireworks (exec (autoFire rnd isHandDrawingMode enableAutoFire iw ih now) w)
  = fireworks w \/
  exists fw t,
    fireworks (exec (autoFire rnd isHandDrawingMode enableAutoFire iw ih now) w)
    = fireworks w ++ [fw] /\
    Firework.type fw = Some t /\ In t FIREWORK_TYPES /\ t <> "custom_shape".
Proof.
  unfold exec, autoFire.
  destruct (enableAutoFire && negb (isDrawing w) && negb isHandDrawingMode);
    [|left; reflexivity].
  destruct (now >? nextAutoFireTime w); [|left; reflexivity].
  right.
  unfold bind, Math_random, getNextFireworkType, launchFirework, push_firework,
    random, set_nextAutoFireTime, ret.
  cbn [fst snd fireworks particles currentFireworkIndex nextAutoFireTime
       isDrawing randomCalls].
  eexists. eexists. split; [reflexivity|]. cbn [Firework.type].
  split; [reflexivity|].
  assert (H : In (match nth_error FIREWORK_TYPES (currentFireworkIndex w) with
                  | Some t => t
                  | None => "standard"
                  end) FIREWORK_TYPES).
  { destruct (nth_error FIREWORK_TYPES (currentFireworkIndex w)) eqn:E.
    - eapply nth_error_In; eauto.
    - cbv [FIREWORK_TYPES In]. tauto. }
  split; [exact H|]. intros E. rewrite E in H.
  now apply custom_shape_not_listed.
Qed.

(** C4.  Starting from any index the counter can hold (below 16), [n >= 16]
    consecutive calls of the selector return, call after call, the entries
    of [FIREWORK_TYPES] read round-robin from the current index, wrapping at
    16; no call returns ['custom_shape'] (or [undefined]), and each of the
    16 listed types is returned at least once.  Accordingly the auto-fire
    step of a frame launches nothing or one projectile whose type is one of
    the 16 listed types, never ['custom_shape']. *)
Theorem selector_round_robin_never_drone :
  (forall (w : World) (n : nat),
     (currentFireworkIndex w < 16)%nat -> (16 <= n)%nat ->
     let returned := eval (selectMany n) w in
     List.length returned = n /\
     (forall k, (k < n)%nat ->
        nth k returned None
        = nth_error FIREWORK_TYPES ((currentFireworkIndex w + k) mod 16)) /\
     ~ In (Some "custom_shape") returned /\
     ~ In None returned /\
     (forall t, In t FIREWORK_TYPES -> In (Some t) returned) /\
     (currentFireworkIndex (exec (selectMany n) w) < 16)%nat) /\
  (forall (rnd : nat -> R) (isHandDrawingMode enableAutoFire : bool)
          (innerWidth innerHeight now : R) (w : World),
     let w' := exec (autoFire rnd isHandDrawingMode enableAutoFire
                              innerWidth innerHeight now) w in
     fireworks w' = fireworks w \/
     exists fw t,
       fireworks w' = fireworks w ++ [fw] /\
       Firework.type fw = Some t /\ In t FIREWORK_TYPES /\
       t <> "custom_shape").
Proof.
  split; [|intros; apply autoFire_launch_type].
  intros w n Hw Hn returned.
  assert (Hlen : List.length returned = n) by apply selectMany_length.
  assert (Hnth : forall k, (k < n)%nat ->
            nth k returned None
            = nth_error FIREWORK_TYPES ((currentFireworkIndex w + k) mod 16))
    by (intros; now apply selectMany_nth).
  assert (Hall : forall r, In r returned ->
            exists t, r = Some t /\ In t FIREWORK_TYPES).
  { intros r Hr. apply (In_nth _ _ None) in Hr as [k [Hk Hr]].
    rewrite Hlen in Hk. rewrite Hnth in Hr by exact Hk.
    destruct (nth_error FIREWORK_TYPES ((currentFireworkIndex w + k) mod 16))
      as [t|] eqn:E.
    - exists t. split; [easy|]. eapply nth_error_In; eauto.
    - apply nth_error_None in E.
      change (List.length FIREWORK_TYPES) with 16%nat in E.
      pose proof (Nat.mod_upper_bound (currentFireworkIndex w + k) 16). lia. }
  repeat split; auto.
  - intros H. apply Hall in H as [t [Ht Hin]]. injection Ht as <-.
    now apply custom_shape_not_listed.
  - intros H. apply Hall in H as [t [Ht _]]. discriminate.
  - intros t Ht. apply FIREWORK_TYPES_nth_error in Ht as [j [Hj Ht]].
    set (k := ((j + 16 - currentFireworkIndex w) mod 16)%nat).
    assert (Hk : (k < 16)%nat) by (apply Nat.mod_upper_bound; discriminate).
    rewrite <- Ht.
    replace j with ((currentFireworkIndex w + k) mod 16)%nat.
    + rewrite <- Hnth by lia. apply nth_In. lia.
    + unfold k. rewrite Nat.Div0.add_mod_idemp_r.
      replace (currentFireworkIndex w + (j + 16 - currentFireworkIndex w))%nat
        with (j + 1 * 16)%nat by lia.
      rewrite Nat.Div0.mod_add. now apply Nat.mod_small.
  - clear Hlen Hnth Hall Hn returned. revert w Hw.
    induction n as [|n IH]; intros w Hw; [exact Hw|].
    unfold exec. cbn [selectMany]. unfold bind at 1.
    destruct (getNextFireworkType w) as [t w'] eqn:E.
    unfold bind. specialize (IH w').
    unfold exec in IH. destruct (selectMany n w') as [ts w''].
    cbn [snd ret] in *.
    apply IH. replace w' with (exec getNextFireworkType w)
      by (unfold exec; now rewrite E).
    rewrite getNextFireworkType_index. apply Nat.mod_upper_bound. discriminate.
Qed.

Lemma selector_round_robin_never_drone_witness :
  let returned := eval (selectMany 16) world0 in
  List.length returned = 16%nat /\
  ~ In (Some "custom_shape") returned /\
  (forall t, In t FIREWORK_TYPES -> In (Some t) returned).
Proof.
  pose proof (proj1 selector_round_robin_never_drone world0 16%nat) as H.
  cbn [currentFireworkIndex world0] in H.
  specialize (H ltac:(lia) ltac:(lia)).
  destruct H as (H1 & _ & H3 & _ & H5 & _). auto.
Defined.

(** ** normalizePath *)

Section Normalize.







Lemma bounds_fold (ps : list Point.t) : forall lx hx ly hy,
  fold_left bounds_step ps (mkBounds (Some lx) (Some hx) (Some ly) (Some hy))
  = mkBounds (Some (fold_left Math.min (map Point.x ps) lx))
             (Some (fold_left Math.max (map Point.x ps) hx))
             (Some (fold_left Math.min (map Point.y ps) ly))
             (Some (fold_left Math.max (map Point.y ps) hy)).
Proof.
  induction ps as [|p ps IH]; intros; cbn; [reflexivity|].
  unfold bounds_step at 2. cbn. apply IH.
Qed.

Lemma bounds_of_cons (p : Point.t) (ps : list Point.t) :
  has_box (p :: ps)
    (fold_left Math.min (map Point.x ps) (Point.x p))
    (fold_left Math.max (map Point.x ps) (Point.x p))
    (fold_left Math.min (map Point.y ps) (Point.y p))
    (fold_left Math.max (map Point.y ps) (Point.y p)).
Proof. unfold has_box, bounds_of. cbn. apply bounds_fold. Qed.


Lemma has_box_nonempty pts lx hx ly hy : has_box pts lx hx ly hy -> pts <> [].
Proof. intros H ->. discriminate H. Qed.








End Normalize.




(** ** Running the monad *)

Lemma exec_bind {A B} (m : M A) (k : A -> M B) (w : World) :
  exec (bind m k) w = exec (k (eval m w)) (exec m w).
Proof. unfold exec, eval, bind. now destruct (m w). Qed.

Lemma exec_ret {A} (a : A) (w : World) : exec (ret a) w = w.
Proof. reflexivity. Qed.

Lemma M_eta (m : M unit) (w : World) : m w = (tt, exec m w).
Proof. unfold exec. now destruct (m w) as [[] w']. Qed.

(** ** The finale *)

Section Finale.

Variable rnd : nat -> R.
Variable innerWidth innerHeight : R.

Lemma triggerFinale_unfold :
  triggerFinale rnd innerWidth innerHeight
  = for_ 60 (fun i => r0 <- Math_random rnd ;;
                      push_firework (finaleRay innerWidth innerHeight i r0)).
Proof. reflexivity. Qed.

Lemma finale_loop (n : nat) : forall (s : nat) (w : World),
  exec (for_from s n
          (fun i => r0 <- Math_random rnd ;;
                    push_firework (finaleRay innerWidth innerHeight i r0))) w
  = mkWorld
      (fireworks w
       ++ map (fun j => finaleRay innerWidth innerHeight (s + j)
                                  (rnd (randomCalls w + j)))
              (seq 0 n))
      (particles w) (currentFireworkIndex w) (nextAutoFireTime w)
      (isDrawing w) (randomCalls w + n).
Proof.
  induction n as [|n IH]; intros s w.
  - cbn. rewrite app_nil_r, Nat.add_0_r. now destruct w.
  - cbn [for_from]. rewrite exec_bind, IH.
    unfold exec at 1 2 3 4 5 6 7. unfold bind, Math_random, push_firework.
    cbn [snd fst fireworks particles currentFireworkIndex nextAutoFireTime
         isDrawing randomCalls].
    f_equal; [|lia].
    rewrite <- app_assoc. f_equal. cbn [seq map app].
    rewrite !Nat.add_0_r. f_equal.
    rewrite <- seq_shift, map_map. apply map_ext. intros j.
    f_equal; [lia|f_equal; lia].
Qed.



End Finale.



(** ** Loops that push one particle per iteration *)

Lemma appended_appended w k1 k2 n1 n2 :
  appended (appended w k1 n1) k2 n2 = appended w (k1 + k2) (n1 ++ n2).
Proof.
  unfold appended. cbn. f_equal; [now rewrite app_assoc|lia].
Qed.

Lemma appended_0 w : appended w 0 [] = w.
Proof.
  unfold appended. rewrite app_nil_r, Nat.add_0_r. now destruct w.
Qed.

Lemma for_from_pushes body k new :
  (forall i, pushes1 (body i) k (new i)) ->
  forall n s w,
    exec (for_from s n body) w
    = appended w (k * n)
        (map (fun j => new (s + j)%nat (randomCalls w + k * j)%nat) (seq 0 n)).
Proof.
  intros Hb. induction n as [|n IH]; intros s w.
  - cbn [for_from seq map]. rewrite Nat.mul_0_r, appended_0. reflexivity.
  - cbn [for_from]. rewrite exec_bind, IH, Hb, appended_appended.
    f_equal; [rewrite Nat.mul_succ_r; lia|]. cbn [seq map app]. f_equal.
    + now rewrite Nat.add_0_r, Nat.mul_0_r, Nat.add_0_r.
    + rewrite <- seq_shift, map_map. apply map_ext. intros j.
      rewrite ?Hb, Nat.mul_succ_r. cbn [appended randomCalls]. f_equal; lia.
Qed.

Lemma combine_map_fst {A B C} (f : A -> C) (l1 : list A) : forall l2 : list B,
  combine (map f l1) l2 = map (fun p => (f (fst p), snd p)) (combine l1 l2).
Proof.
  induction l1 as [|a l1 IH]; intros [|b l2]; cbn; try reflexivity.
  now rewrite IH.
Qed.

Lemma forEach_pushes {A} (f : A -> M unit) k new :
  (forall a, pushes1 (f a) k (new a)) ->
  forall l w,
    exec (forEach l f) w
    = appended w (k * List.length l)
        (map (fun ja => new (snd ja) (randomCalls w + k * fst ja)%nat)
             (combine (seq 0 (List.length l)) l)).
Proof.
  intros Hf. induction l as [|a l IH]; intros w.
  - cbn [forEach List.length seq combine map].
    rewrite Nat.mul_0_r, appended_0. reflexivity.
  - cbn [forEach]. rewrite exec_bind, IH, Hf, appended_appended.
    cbn [List.length seq combine map app fst snd].
    f_equal; [rewrite Nat.mul_succ_r; lia|]. f_equal.
    + now rewrite Nat.mul_0_r, Nat.add_0_r.
    + rewrite <- seq_shift, combine_map_fst, map_map.
      apply map_ext. intros [j b]. cbn [fst snd]. rewrite ?Hf, Nat.mul_succ_r.
      cbn [appended randomCalls]. f_equal; lia.
Qed.

(** ** Palette picks *)

Lemma pick_In (palette : list string) (r : R) :
  palette <> [] -> 0 <= r < 1 -> In (pick palette r) palette.
Proof.
  intros Hne Hr. unfold pick, Math.floor.
  set (len := List.length palette).
  assert (Hlen : (0 < len)%nat)
    by (unfold len; destruct palette; [congruence|cbn; lia]).
  apply lt_INR in Hlen. cbn [INR] in Hlen.
  destruct (base_Int_part (r * INR len)) as [H1 H2].
  assert (Hlo : (0 <= Int_part (r * INR len))%Z).
  { assert (IZR (-1) < IZR (Int_part (r * INR len))) by (cbn; nra).
    apply lt_IZR in H. lia. }
  assert (Hhi : (Int_part (r * INR len) < Z.of_nat len)%Z).
  { apply lt_IZR. rewrite <- INR_IZR_INZ. nra. }
  apply nth_In. fold len. lia.
Qed.

(** ** createExplosion *)

Section Explosion.

Variable rnd : nat -> R.
Hypothesis rnd_range : forall n, 0 <= rnd n < 1.

Lemma standard_particle_pushes x y color :
  pushes1 (standard_particle rnd x y color) 4 (stdParticle rnd x y color).
Proof.
  intros w. unfold appended. cbn. f_equal. lia.
Qed.

Lemma explode_standard_spec x y w :
  exec (explode_standard rnd x y) w
  = appended w 241 (standardBatch rnd x y (randomCalls w)).
Proof.
  unfold explode_standard. rewrite exec_bind. unfold for_.
  rewrite (for_from_pushes _ 4 (fun _ => stdParticle rnd x y _)
             (fun _ => standard_particle_pushes x y _)).
  unfold appended, standardBatch.
  cbn [exec eval Math_random snd fst fireworks particles
       currentFireworkIndex nextAutoFireTime isDrawing randomCalls].
  f_equal. lia.
Qed.

(** Every particle of the standard burst. *)
Lemma standardBatch_props x y c :
  List.length (standardBatch rnd x y c) = 60%nat /\
  In (pick STANDARD_COLORS (rnd c)) STANDARD_COLORS /\
  forall p, In p (standardBatch rnd x y c) ->
    FireworkParticle.color p = pick STANDARD_COLORS (rnd c) /\
    FireworkParticle.x p = x /\ FireworkParticle.y p = y /\
    0.6 <= FireworkParticle.alpha p <= 1 /\
    0.06 <= FireworkParticle.decay p <= 0.09 /\
    FireworkParticle.useTrail p = Some false /\
    FireworkParticle.size p = Some 2 /\
    FireworkParticle.shimmer p = None /\
    FireworkParticle.shape p = None.
Proof.
  split; [unfold standardBatch; now rewrite length_map, length_seq|].
  split; [apply pick_In; [discriminate|apply rnd_range]|].
  intros p Hp. unfold standardBatch in Hp.
  apply in_map_iff in Hp as [j [<- _]].
  generalize (S c + 4 * j)%nat. intros c'. cbn.
  pose proof (rnd_range (S (S c'))).
  pose proof (rnd_range (S (S (S c')))).
  repeat split; try reflexivity; lra.
Qed.

Lemma explode_customColor_spec x y color w :
  exec (explode_customColor rnd x y color) w
  = appended w 20
      (map (fun j => overrideParticle rnd x y color (randomCalls w + 2 * j)%nat)
           (seq 0 10)).
Proof.
  unfold explode_customColor, for_.
  rewrite (for_from_pushes _ 2 (fun _ => overrideParticle rnd x y color)).
  - reflexivity.
  - intros i w'. unfold appended. cbn. f_equal. lia.
Qed.

Lemma explode_custom_shape_spec x y shape w :
  exec (explode_custom_shape rnd x y shape) w
  = appended w (4 * List.length shape)
      (map (fun jp => droneParticle rnd x y (snd jp)
                                    (randomCalls w + 4 * fst jp)%nat)
           (combine (seq 0 (List.length shape)) shape)).
Proof.
  unfold explode_custom_shape.
  rewrite (forEach_pushes _ 4 (droneParticle rnd x y)).
  - reflexivity.
  - intros p w'. unfold appended. cbn. f_equal. lia.
Qed.

Lemma droneParticle_props x y p c :
  let q := droneParticle rnd x y p c in
  FireworkParticle.x q = x + Point.x p * 60 /\
  FireworkParticle.y q = y + Point.y p * 60 /\
  Rabs (FireworkParticle.vx q) <= 0.075 /\
  Rabs (FireworkParticle.vy q) <= 0.075 /\
  In (FireworkParticle.color q) DRONE_COLORS /\
  FireworkParticle.useTrail q = Some false.
Proof.
  cbn. pose proof (rnd_range (S c)). pose proof (rnd_range (S (S c))).
  repeat split; try reflexivity; try (apply Rabs_le; lra).
  destruct (rnd c >? 0.8); [tauto|]. destruct (rnd c >? 0.5); tauto.
Qed.

(** *** Dispatch *)

Variable customShape : option (list Point.t).

Lemma eqb_other (t tag : string) (tags : list string) :
  ~ In t tags -> In tag tags -> String.eqb t tag = false.
Proof.
  intros Hn Hin. apply String.eqb_neq. intros ->. now apply Hn.
Qed.

Lemma createExplosion_fallback x y hue type customColor :
  truthy_str customColor = false ->
  ~ In type GENERATOR_TAGS ->
  createExplosion rnd customShape x y hue (Some type) customColor
  = explode_standard rnd x y.
Proof.
  intros Hc Ht. unfold createExplosion, drone_guard. rewrite Hc.
  repeat (rewrite (eqb_other type _ GENERATOR_TAGS Ht) by (cbn; tauto)).
  reflexivity.
Qed.

Lemma createExplosion_override x y hue type color :
  truthy_str (Some color) = true ->
  type <> "custom_shape" ->
  createExplosion rnd customShape x y hue (Some type) (Some color)
  = explode_customColor rnd x y color.
Proof.
  intros Hc Ht. unfold createExplosion, drone_guard. rewrite Hc.
  apply String.eqb_neq in Ht. now rewrite Ht.
Qed.

Lemma createExplosion_drone x y hue customColor p ps :
  customShape = Some (p :: ps) ->
  createExplosion rnd customShape x y hue (Some "custom_shape") customColor
  = explode_custom_shape rnd x y (p :: ps).
Proof.
  intros Hs. unfold createExplosion, drone_guard. now rewrite Hs.
Qed.

Lemma createExplosion_no_shape x y hue customColor :
  customShape = None \/ customShape = Some [] ->
  createExplosion rnd customShape x y hue (Some "custom_shape") customColor
  = if truthy_str customColor
    then explode_customColor rnd x y
           (match customColor with Some c => c | None => "" end)
    else explode_standard rnd x y.
Proof.
  intros [Hs|Hs]; unfold createExplosion, drone_guard; now rewrite Hs.
Qed.

End Explosion.

Lemma drone_batch_Forall2 rnd x y (shape : list Point.t) c : forall s,
  Forall2 (fun pt q => exists c', q = droneParticle rnd x y pt c') shape
    (map (fun jp => droneParticle rnd x y (snd jp) (c + 4 * fst jp)%nat)
         (combine (seq s (List.length shape)) shape)).
Proof.
  induction shape as [|p ps IH]; intros s; cbn [List.length seq combine map].
  - constructor.
  - constructor; [eexists; reflexivity|apply IH].
Qed.

(** C7.  With the unit square stored as the custom shape, a call of
    [createExplosion] at origin (0, 0) with type ['custom_shape'] appends
    exactly four particles, one per shape point and in the order of the
    points, at (-60,-60), (60,-60), (60,60), (-60,60); each velocity
    component is at most 0.075 in magnitude, each colour is one of
    [#00FFFF], [#FFFFFF], [#1E90FF], and [useTrail] is [false] on every
    one.  The projectile set is untouched. *)
Theorem drone_display_unit_square :
  forall (rnd : nat -> R) (hue : R) (customColor : option string) (w : World),
    (forall n, 0 <= rnd n < 1) ->
    let w' := exec (createExplosion rnd (Some unit_square) 0 0 hue
                                    (Some "custom_shape") customColor) w in
    exists batch : list FireworkParticle.t,
      particles w' = particles w ++ batch /\
      fireworks w' = fireworks w /\
      List.length batch = 4%nat /\
      Forall2 (fun pt q =>
                 FireworkParticle.x q = 0 + Point.x pt * 60 /\
                 FireworkParticle.y q = 0 + Point.y pt * 60)
              unit_square batch /\
      map (fun q => (FireworkParticle.x q, FireworkParticle.y q)) batch
      = [(-60, -60); (60, -60); (60, 60); (-60, 60)] /\
      (forall q, In q batch ->
         Rabs (FireworkParticle.vx q) <= 0.075 /\
         Rabs (FireworkParticle.vy q) <= 0.075 /\
         In (FireworkParticle.color q) DRONE_COLORS /\
         FireworkParticle.useTrail q = Some false).
Proof.
  intros rnd hue customColor w Hrnd w'.
  unfold w', unit_square.
  rewrite (createExplosion_drone rnd _ 0 0 hue customColor _ _ eq_refl).
  rewrite explode_custom_shape_spec.
  set (batch := map _ _).
  pose proof (drone_batch_Forall2 rnd 0 0 unit_square (randomCalls w) 0) as HF.
  fold unit_square in batch. change (map _ _) with batch in HF.
  exists batch. cbn [appended particles fireworks].
  split; [reflexivity|]. split; [reflexivity|].
  split; [reflexivity|].
  assert (Hall : forall q, In q batch ->
            exists pt c', In pt unit_square /\ q = droneParticle rnd 0 0 pt c').
  { intros q Hq. unfold batch in Hq.
    apply in_map_iff in Hq as [[j pt] [<- Hin]].
    apply in_combine_r in Hin. eauto. }
  split; [|split].
  - eapply Forall2_impl; [|exact HF].
    intros pt q [c' ->]. split; reflexivity.
  - unfold batch. cbn. repeat f_equal; lra.
  - intros q Hq. destruct (Hall q Hq) as (pt & c' & _ & ->).
    destruct (droneParticle_props rnd Hrnd 0 0 pt c')
      as (_ & _ & H3 & H4 & H5 & H6).
    auto.
Qed.

Lemma drone_display_unit_square_witness :
  exists batch : list FireworkParticle.t,
    particles (exec (createExplosion (fun _ => 1 / 2) (Some unit_square) 0 0 0
                                     (Some "custom_shape") None) world0)
    = batch /\
    List.length batch = 4%nat.
Proof.
  destruct (drone_display_unit_square (fun _ => 1 / 2) 0 None world0)
    as (batch & H1 & _ & H3 & _).
  - intros _. lra.
  - exists batch. split; [exact H1|exact H3].
Defined.

Lemma explode_standard_burst rnd x y w :
  (forall n, 0 <= rnd n < 1) ->
  standard_burst w (exec (explode_standard rnd x y) w).
Proof.
  intros Hrnd. rewrite explode_standard_spec.
  destruct (standardBatch_props rnd Hrnd x y (randomCalls w)) as (H1 & H2 & H3).
  exists (pick STANDARD_COLORS (rnd (randomCalls w))),
         (standardBatch rnd x y (randomCalls w)).
  repeat split; auto; apply H3 in H; tauto.
Qed.

Lemma explode_customColor_burst rnd x y color w :
  override_burst color w (exec (explode_customColor rnd x y color) w).
Proof.
  rewrite explode_customColor_spec. eexists. cbn [appended particles].
  split; [|split; [reflexivity|]].
  - now rewrite length_map, length_seq.
  - intros p Hp. apply in_map_iff in Hp as [j [<- _]]. cbn. auto.
Qed.

Lemma override_burst_not_standard color w w' :
  override_burst color w w' -> ~ standard_burst w w'.
Proof.
  intros (b1 & L1 & P1 & _) (c & b2 & _ & L2 & P2 & _).
  rewrite P1 in P2. apply app_inv_head in P2. subst b2.
  rewrite L1 in L2. discriminate L2.
Qed.

Lemma mystery_not_a_generator_tag : ~ In "mystery" GENERATOR_TAGS.
Proof.
  cbv [GENERATOR_TAGS In]. intros H.
  repeat (destruct H as [H|H]; [discriminate H|]). exact H.
Qed.

(** C9 (as the code has it).  A type tag that is none of the tags
    [createExplosion] tests for never makes the call produce nothing, and
    the projectile set is left alone.  When no truthy override colour is
    passed the call is the standard generator: it appends exactly 60
    particles of one colour of the standard palette with alpha in
    [[0.6, 1]].  When a truthy override colour is passed it appends the ten
    particles of the override-colour burst instead. *)
Theorem unknown_tag_falls_back_to_standard :
  forall (rnd : nat -> R) (customShape : option (list Point.t))
         (x y hue : R) (type : string) (customColor : option string)
         (w : World),
    (forall n, 0 <= rnd n < 1) ->
    ~ In type GENERATOR_TAGS ->
    let w' :=
      exec (createExplosion rnd customShape x y hue (Some type) customColor)
           w in
    fireworks w' = fireworks w /\
    (truthy_str customColor = false ->
     createExplosion rnd customShape x y hue (Some type) customColor
     = explode_standard rnd x y /\
     standard_burst w w') /\
    (forall color,
       customColor = Some color -> truthy_str customColor = true ->
       override_burst color w w').
Proof.
  intros rnd customShape x y hue type customColor w Hrnd Ht w'.
  assert (Hne : type <> "custom_shape")
    by (intros ->; apply Ht; cbv [GENERATOR_TAGS In]; tauto).
  destruct (truthy_str customColor) eqn:Hc.
  - destruct customColor as [color|]; [|discriminate Hc].
    assert (Hw' : w' = exec (explode_customColor rnd x y color) w)
      by (unfold w'; now rewrite createExplosion_override).
    rewrite Hw'. split; [now rewrite explode_customColor_spec|].
    split; [discriminate|].
    intros color' E _. injection E as <-. apply explode_customColor_burst.
  - assert (E : createExplosion rnd customShape x y hue (Some type) customColor
                = explode_standard rnd x y)
      by now apply createExplosion_fallback.
    unfold w'. rewrite E. split; [now rewrite explode_standard_spec|].
    split; [|discriminate].
    intros _. split; [reflexivity|now apply explode_standard_burst].
Qed.

Lemma unknown_tag_falls_back_to_standard_witness :
  standard_burst world0
    (exec (createExplosion (fun _ => 1 / 2) None 0 0 0 (Some "mystery") None)
          world0).
Proof.
  refine (proj2 (proj1 (proj2 (unknown_tag_falls_back_to_standard
                                 (fun _ => 1 / 2) None 0 0 0 "mystery" None
                                 world0 _ _)) eq_refl)).
  - intros _. lra.
  - exact mystery_not_a_generator_tag.
Defined.

(** C9, as stated, fails: an unrecognised tag passed together with an
    override colour gives the ten-particle override burst. *)
Lemma unknown_tag_with_override_color :
  let w' := exec (createExplosion (fun _ => 1 / 2) None 0 0 0
                                  (Some "mystery") (Some "red")) world0 in
  ~ In "mystery" GENERATOR_TAGS /\
  List.length (particles w') = 10%nat /\
  ~ standard_burst world0 w'.
Proof.
  intros w'. unfold w'.
  rewrite createExplosion_override by (reflexivity || discriminate).
  pose proof (explode_customColor_burst (fun _ => 1 / 2) 0 0 "red" world0)
    as Hb.
  split; [exact mystery_not_a_generator_tag|].
  split; [|exact (override_burst_not_standard _ _ _ Hb)].
  destruct Hb as (batch & L & P & _). rewrite P. exact L.
Qed.

(** C10 (as the code has it).  With type ['custom_shape'] and a null or
    empty stored shape the drone guard fails, so no drone formation is
    made, and the call never produces nothing.  When no truthy override
    colour is passed the call is the standard generator: 60 particles of
    one standard colour are appended.  When a truthy override colour is
    passed the ten particles of the override-colour burst are appended
    instead. *)
Theorem custom_shape_without_shape_is_standard :
  forall (rnd : nat -> R) (customShape : option (list Point.t))
         (x y hue : R) (customColor : option string) (w : World),
    (forall n, 0 <= rnd n < 1) ->
    customShape = None \/ customShape = Some [] ->
    let w' :=
      exec (createExplosion rnd customShape x y hue (Some "custom_shape")
                            customColor) w in
    drone_guard customShape "custom_shape" = None /\
    fireworks w' = fireworks w /\
    (truthy_str customColor = false ->
     createExplosion rnd customShape x y hue (Some "custom_shape") customColor
     = explode_standard rnd x y /\
     standard_burst w w') /\
    (forall color,
       customColor = Some color -> truthy_str customColor = true ->
       override_burst color w w').
Proof.
  intros rnd customShape x y hue customColor w Hrnd Hs w'.
  split; [destruct Hs as [->| ->]; reflexivity|].
  unfold w'.
  rewrite (createExplosion_no_shape rnd customShape x y hue customColor Hs).
  destruct (truthy_str customColor) eqn:Hc.
  - destruct customColor as [color|]; [|discriminate Hc].
    split; [now rewrite explode_customColor_spec|].
    split; [discriminate|].
    intros color' E _. injection E as <-. apply explode_customColor_burst.
  - split; [now rewrite explode_standard_spec|].
    split; [|discriminate].
    intros _. split; [reflexivity|now apply explode_standard_burst].
Qed.

Lemma custom_shape_without_shape_is_standard_witness :
  standard_burst world0
    (exec (createExplosion (fun _ => 1 / 2) (Some []) 0 0 0
                           (Some "custom_shape") None) world0).
Proof.
  refine (proj2 (proj1 (proj2 (proj2 (custom_shape_without_shape_is_standard
                                        (fun _ => 1 / 2) (Some []) 0 0 0 None
                                        world0 _ _))) eq_refl)).
  - intros _. lra.
  - right. reflexivity.
Defined.

(** C10, as stated, fails when an override colour comes with the call. *)
Lemma custom_shape_without_shape_with_override_color :
  let w' := exec (createExplosion (fun _ => 1 / 2) None 0 0 0
                                  (Some "custom_shape") (Some "red")) world0 in
  List.length (particles w') = 10%nat /\
  ~ standard_burst world0 w'.
Proof.
  intros w'. unfold w'.
  rewrite createExplosion_no_shape by (left; reflexivity).
  cbn [truthy_str String.eqb negb].
  pose proof (explode_customColor_burst (fun _ => 1 / 2) 0 0 "red" world0)
    as Hb.
  split; [|exact (override_burst_not_standard _ _ _ Hb)].
  destruct Hb as (batch & L & P & _). rewrite P. exact L.
Qed.

(** ** Explosions do not look at the projectile set *)

Section Frame.

Variable rnd : nat -> R.

Lemma frame_ret {A} (a : A) : fw_frame (ret a).
Proof. intros w fs. reflexivity. Qed.

Lemma frame_bind {A B} (m : M A) (k : A -> M B) :
  fw_frame m -> (forall a, fw_frame (k a)) -> fw_frame (bind m k).
Proof.
  intros Hm Hk w fs. unfold bind. rewrite Hm.
  destruct (m w) as [a w1]. cbn [fst snd]. rewrite Hk.
  now destruct (k a w1).
Qed.

Lemma frame_Math_random : fw_frame (Math_random rnd).
Proof. intros w fs. reflexivity. Qed.

Lemma frame_random a b : fw_frame (random rnd a b).
Proof.
  apply frame_bind; [apply frame_Math_random|intros; apply frame_ret].
Qed.

Lemma frame_push_particle p : fw_frame (push_particle p).
Proof. intros w fs. reflexivity. Qed.

Lemma frame_for_from body :
  (forall i, fw_frame (body i)) -> forall n s, fw_frame (for_from s n body).
Proof.
  intros Hb. induction n as [|n IH]; intros s; cbn [for_from].
  - apply frame_ret.
  - apply frame_bind; [apply Hb|intros; apply IH].
Qed.

Lemma frame_for_ n body :
  (forall i, fw_frame (body i)) -> fw_frame (for_ n body).
Proof. intros. now apply frame_for_from. Qed.

Lemma frame_forEach {A} (f : A -> M unit) :
  (forall a, fw_frame (f a)) -> forall l, fw_frame (forEach l f).
Proof.
  intros Hf. induction l as [|a l IH]; cbn [forEach].
  - apply frame_ret.
  - apply frame_bind; [apply Hf|intros; apply IH].
Qed.

Lemma frame_when b m : fw_frame m -> fw_frame (when b m).
Proof. intros. destruct b; [assumption|apply frame_ret]. Qed.

Ltac frame_step :=
  lazymatch goal with
  | |- fw_frame (ret _) => apply frame_ret
  | |- fw_frame (Math_random _) => apply frame_Math_random
  | |- fw_frame (random _ _ _) => apply frame_random
  | |- fw_frame (push_particle _) => apply frame_push_particle
  | |- fw_frame (bind _ _) => apply frame_bind; [|intros]
  | |- fw_frame (for_ _ _) => apply frame_for_; intros
  | |- fw_frame (forEach _ _) => apply frame_forEach; intros
  | |- fw_frame (when _ _) => apply frame_when
  | |- fw_frame (let _ := _ in _) => cbv zeta
  end.

Ltac frame := repeat frame_step.

Variable customShape : option (list Point.t).

Lemma frame_createExplosion x y hue type customColor :
  fw_frame (createExplosion rnd customShape x y hue type customColor).
Proof.
  unfold createExplosion.
  destruct (drone_guard customShape _);
    [unfold explode_custom_shape; frame|].
  destruct (truthy_str customColor); [unfold explode_customColor; frame|].
  repeat match goal with
         | |- fw_frame (if ?b then _ else _) => destruct b
         end.
  - unfold explode_tree_burst; frame.
  - unfold explode_love_burst; frame.
  - unfold explode_neon_flower; frame.
  - unfold explode_cyan_flower; frame.
  - unfold explode_floral_burst; frame.
  - unfold explode_violet_burst; frame.
  - unfold explode_strobe_flower; frame.
  - unfold explode_gold_flower; frame.
  - unfold explode_galaxy; frame.
  - unfold explode_heart; frame.
  - unfold explode_ring; frame.
  - unfold explode_glitter; frame.
  - unfold explode_palm; frame.
  - unfold explode_cosmic; frame.
  - unfold explode_streamer; frame.
  - unfold explode_standard, standard_particle; frame.
Qed.

Lemma frame_explodeFirework fw :
  fw_frame (explodeFirework rnd customShape fw).
Proof. apply frame_createExplosion. Qed.

Lemma exec_frame (m : M unit) fs w :
  fw_frame m -> exec m (with_fireworks fs w) = with_fireworks fs (exec m w).
Proof. intros H. unfold exec. now rewrite H. Qed.

End Frame.

(** ** In-place array operations at the end of a prefix *)

Lemma nth_error_middle {A} (pre : list A) (a : A) (post : list A) :
  nth_error (pre ++ a :: post) (List.length pre) = Some a.
Proof. induction pre as [|b pre IH]; [reflexivity|exact IH]. Qed.

Lemma set_at_middle {A} (pre : list A) (a v : A) (post : list A) :
  set_at (List.length pre) v (pre ++ a :: post) = pre ++ v :: post.
Proof.
  unfold set_at. induction pre as [|b pre IH]; [reflexivity|].
  cbn [List.length app skipn firstn].
  destruct (skipn (List.length pre) (pre ++ a :: post)) eqn:E.
  - exfalso. clear IH. induction pre as [|c pre IH']; [discriminate E|auto].
  - cbn [app]. f_equal. exact IH.
Qed.

Lemma splice1_middle {A} (pre : list A) (a : A) (post : list A) :
  splice1 (List.length pre) (pre ++ a :: post) = pre ++ post.
Proof.
  unfold splice1. induction pre as [|b pre IH]; [reflexivity|].
  cbn [List.length app skipn firstn]. f_equal. exact IH.
Qed.

Lemma snoc_cases {A} (l : list A) (k : nat) :
  List.length l = S k ->
  exists pre a, l = pre ++ [a] /\ List.length pre = k.
Proof.
  intros H. destruct (exists_last (l := l)) as (pre & a & ->).
  - intros ->. discriminate H.
  - exists pre, a. split; [reflexivity|].
    rewrite length_app in H. cbn in H. lia.
Qed.

(** ** The rocket loop *)

Section Rockets.

Variable rnd : nat -> R.
Variable customShape : option (list Point.t).

Let explode := explodeFirework rnd customShape.

Lemma with_fireworks_twice a b w :
  with_fireworks a (with_fireworks b w) = with_fireworks a w.
Proof. reflexivity. Qed.

Lemma with_fireworks_same w : with_fireworks (fireworks w) w = w.
Proof. now destruct w. Qed.

Lemma survivors_snoc pre f :
  survivors (pre ++ [f])
  = survivors pre
    ++ (if arrived (stepFirework f) then [] else [stepFirework f]).
Proof.
  unfold survivors. rewrite map_app, filter_app. cbn.
  now destruct (arrived (stepFirework f)).
Qed.

Lemma arrivals_snoc pre f :
  arrivals (pre ++ [f])
  = (if arrived (stepFirework f) then [stepFirework f] else [])
    ++ arrivals pre.
Proof.
  unfold arrivals. rewrite map_app, filter_app, rev_app_distr. cbn.
  now destruct (arrived (stepFirework f)).
Qed.

Lemma exec_get_fireworks {B} (k : list Firework.t -> M B) w :
  exec (bind get_fireworks k) w = exec (k (fireworks w)) w.
Proof. reflexivity. Qed.

Lemma exec_set_fireworks {B} fs (k : unit -> M B) w :
  exec (bind (set_fireworks fs) k) w = exec (k tt) (with_fireworks fs w).
Proof. reflexivity. Qed.

Lemma fireworksLoop_spec (k : nat) : forall pre post w,
  List.length pre = k ->
  exec (fireworksLoop rnd customShape k) (with_fireworks (pre ++ post) w)
  = exec (forEach (arrivals pre) explode)
         (with_fireworks (survivors pre ++ post) w).
Proof.
  induction k as [|k IH]; intros pre post w Hk.
  - destruct pre; [reflexivity|discriminate Hk].
  - destruct (snoc_cases pre k Hk) as (pre' & f & -> & Hk'). subst k.
    rewrite survivors_snoc, arrivals_snoc, <- !app_assoc.
    cbn [app fireworksLoop].
    rewrite exec_get_fireworks. cbn [with_fireworks fireworks].
    rewrite nth_error_middle, set_at_middle, exec_bind.
    fold (with_fireworks (pre' ++ f :: post) w).
    rewrite exec_set_fireworks, with_fireworks_twice.
    unfold when. destruct (arrived (stepFirework f)).
    + rewrite exec_bind.
      rewrite (exec_frame _ _ _ (frame_explodeFirework rnd customShape _)).
      rewrite exec_get_fireworks. cbn [with_fireworks fireworks].
      rewrite splice1_middle.
      change (exec (set_fireworks ?fs) ?w0) with (with_fireworks fs w0).
      rewrite with_fireworks_twice.
      rewrite (IH pre' post _ eq_refl). cbn [app forEach].
      rewrite exec_bind. f_equal. unfold explode.
      now rewrite (exec_frame _ _ _ (frame_explodeFirework rnd customShape _)).
    + rewrite exec_ret.
      rewrite (IH pre' (stepFirework f :: post) _ eq_refl). reflexivity.
Qed.

(** One frame of the rocket loop: every live projectile is stepped once;
    those that have arrived are gone and [createExplosion] has run once
    for each of them; the others stay, in order. *)
Lemma updateFireworks_spec w :
  exec (updateFireworks rnd customShape) w
  = exec (forEach (arrivals (fireworks w)) explode)
         (with_fireworks (survivors (fireworks w)) w).
Proof.
  unfold updateFireworks. rewrite exec_bind.
  cbn [eval exec get_fireworks fst snd].
  rewrite <- (with_fireworks_same w) at 2.
  rewrite <- (app_nil_r (fireworks w)) at 2.
  rewrite (fireworksLoop_spec _ (fireworks w) [] w eq_refl).
  now rewrite app_nil_r.
Qed.

End Rockets.

Lemma particles_with_fireworks fs w :
  particles (with_fireworks fs w) = particles w.
Proof. reflexivity. Qed.

Lemma fireworks_with_fireworks fs w : fireworks (with_fireworks fs w) = fs.
Proof. reflexivity. Qed.

Lemma standard_burst_same_particles w w1 w2 :
  standard_burst w w1 -> particles w2 = particles w1 -> standard_burst w w2.
Proof.
  intros (c & batch & H1 & H2 & H3 & H4) E.
  exists c, batch. rewrite E. auto.
Qed.

Lemma exec_frames_S (step : M unit) (n : nat) : forall w,
  exec (frames (S n) step) w = exec step (exec (frames n step) w).
Proof.
  induction n as [|n IH]; intros w.
  - cbn [frames]. now rewrite exec_bind.
  - change (frames (S (S n)) step) with (step ;;; frames (S n) step).
    rewrite exec_bind, IH. cbn [frames]. now rewrite exec_bind.
Qed.



Lemma stepFirework_keeps fw :
  Firework.distanceToTarget (stepFirework fw) = Firework.distanceToTarget fw /\
  Firework.type (stepFirework fw) = Firework.type fw /\
  Firework.customColor (stepFirework fw) = Firework.customColor fw /\
  Firework.hue (stepFirework fw) = Firework.hue fw.
Proof.
  unfold stepFirework.
  destruct (truthy_str (Firework.customColor fw)); cbn; auto.
Qed.

Lemma arrived_iff fw :
  arrived fw = true <->
  Firework.distanceTraveled fw >= Firework.distanceToTarget fw \/
  (truthy_str (Firework.customColor fw) = true /\ Firework.speed fw < 1.5).
Proof.
  unfold arrived, Rgeb.
  rewrite orb_true_iff, andb_true_iff, Rleb_true, Rltb_true.
  split; (intros [H|H]; [left; lra|right; exact H]).
Qed.

(** A projectile alone in the live set, followed frame by frame up to and
    past its first arrival at frame [n]. *)
Lemma single_projectile_frames rnd customShape w fw n :
  fireworks w = [fw] ->
  (1 <= n)%nat ->
  (forall k, (1 <= k < n)%nat ->
     arrived (Nat.iter k stepFirework fw) = false) ->
  arrived (Nat.iter n stepFirework fw) = true ->
  (forall k, (k < n)%nat ->
     exec (frames k (updateFireworks rnd customShape)) w
     = with_fireworks [Nat.iter k stepFirework fw] w) /\
  (forall m, (n <= m)%nat ->
     exec (frames m (updateFireworks rnd customShape)) w
     = with_fireworks []
         (exec (explodeFirework rnd customShape
                  (Nat.iter n stepFirework fw)) w)).
Proof.
  intros Hw Hn Hbefore Hat.
  assert (Hearly : forall k, (k < n)%nat ->
            exec (frames k (updateFireworks rnd customShape)) w
            = with_fireworks [Nat.iter k stepFirework fw] w).
  { induction k as [|k IH]; intros Hk.
    - change (Nat.iter 0 stepFirework fw) with fw.
      cbn [frames exec ret snd]. rewrite <- Hw.
      symmetry. apply with_fireworks_same.
    - rewrite exec_frames_S, IH by lia. rewrite updateFireworks_spec.
      change (fireworks (with_fireworks ?a ?b)) with a.
      rewrite with_fireworks_twice. unfold arrivals, survivors.
      cbn [map filter]. change (stepFirework (Nat.iter k stepFirework fw))
        with (Nat.iter (S k) stepFirework fw).
      rewrite (Hbefore (S k)) by lia. reflexivity. }
  split; [exact Hearly|].
  assert (Hn' : exec (frames n (updateFireworks rnd customShape)) w
                = with_fireworks []
                    (exec (explodeFirework rnd customShape
                             (Nat.iter n stepFirework fw)) w)).
  { destruct n as [|n]; [lia|].
    rewrite exec_frames_S, Hearly by lia. rewrite updateFireworks_spec.
    change (fireworks (with_fireworks ?a ?b)) with a.
    rewrite with_fireworks_twice. unfold arrivals, survivors.
    cbn [map filter]. change (stepFirework (Nat.iter n stepFirework fw))
      with (Nat.iter (S n) stepFirework fw).
    rewrite Hat. cbn [negb rev app forEach].
    rewrite exec_bind, exec_ret.
    now rewrite (exec_frame _ _ _ (frame_explodeFirework rnd customShape _)). }
  intros m Hm. induction m as [|m IH]; [lia|].
  destruct (Nat.eq_dec n (S m)) as [<-|Hne]; [exact Hn'|].
  rewrite exec_frames_S, IH by lia. rewrite updateFireworks_spec.
  reflexivity.
Qed.

(** ** A standard projectile from launch to burst *)

Lemma Math_pow_2 (v : R) : Math.pow v 2 = v * v.
Proof.
  unfold Math.pow.
  assert (E : Int_part 2 = 2%Z) by (symmetry; apply Int_part_spec; lra).
  rewrite E. destruct (Req_dec_T 2 (IZR 2)) as [_|H]; [|now elim H].
  change (powerRZ v 2) with (v * (v * 1)). lra.
Qed.

Lemma step_length (x y a s : R) :
  calculateDistance x y (x + Math.cos a * s) (y + Math.sin a * s) = Rabs s.
Proof.
  unfold calculateDistance, Math.sqrt, Math.cos, Math.sin.
  rewrite !Math_pow_2. rewrite <- sqrt_Rsqr_abs. f_equal.
  pose proof (sin2_cos2 a) as H. unfold Rsqr in *.
  replace ((x + cos a * s - x) * (x + cos a * s - x)
           + (y + sin a * s - y) * (y + sin a * s - y))
    with ((sin a * sin a + cos a * cos a) * (s * s)) by ring.
  rewrite H. ring.
Qed.

Lemma stepFirework_default fw :
  truthy_str (Firework.customColor fw) = false ->
  Firework.speed (stepFirework fw) = Firework.speed fw * 1.015 /\
  Firework.angle (stepFirework fw) = Firework.angle fw /\
  Firework.distanceTraveled (stepFirework fw)
  = Rabs (Firework.speed fw * 1.015) + Firework.distanceTraveled fw.
Proof.
  intros H. unfold stepFirework. rewrite H. cbn.
  now rewrite step_length.
Qed.

Lemma trajectory_default fw (k : nat) :
  truthy_str (Firework.customColor fw) = false ->
  2 <= Firework.speed fw ->
  let f := Nat.iter k stepFirework fw in
  Firework.customColor f = Firework.customColor fw /\
  Firework.distanceToTarget f = Firework.distanceToTarget fw /\
  Firework.type f = Firework.type fw /\
  2 <= Firework.speed f /\
  Firework.distanceTraveled fw + 2 * INR k <= Firework.distanceTraveled f.
Proof.
  intros Hc Hs. induction k as [|k IH].
  - cbn. repeat split; auto; lra.
  - change (Nat.iter (S k) stepFirework fw)
      with (stepFirework (Nat.iter k stepFirework fw)).
    cbv zeta in IH. destruct IH as (I1 & I2 & I3 & I4 & I5).
    set (f := Nat.iter k stepFirework fw) in *.
    destruct (stepFirework_keeps f) as (K1 & K2 & K3 & _).
    destruct (stepFirework_default f) as (D1 & _ & D3);
      [now rewrite I1|].
    cbv zeta. rewrite K1, K2, K3, D1, D3, S_INR.
    rewrite Rabs_right by lra.
    repeat split; auto; lra.
Qed.

Lemma first_true (P : nat -> bool) (N : nat) :
  P N = true ->
  exists n, (n <= N)%nat /\ P n = true /\ forall k, (k < n)%nat -> P k = false.
Proof.
  induction N as [N IH] using lt_wf_ind. intros HN.
  destruct (forallb (fun k => negb (P k)) (seq 0 N)) eqn:E.
  - exists N. split; [lia|]. split; [exact HN|]. intros k Hk.
    rewrite forallb_forall in E. specialize (E k).
    rewrite in_seq in E. apply negb_true_iff, E. lia.
  - assert (exists k, (k < N)%nat /\ P k = true) as (k & Hk & Pk).
    { clear IH HN. induction N as [|N IHN]; [discriminate E|].
      rewrite seq_S, forallb_app in E. cbn in E.
      destruct (P N) eqn:PN; [exists N; split; [lia|exact PN]|].
      cbn in E. rewrite andb_true_r in E.
      destruct (IHN E) as (k & Hk & Pk). exists k. split; [lia|exact Pk]. }
    destruct (IH k Hk Pk) as (n & Hn & Pn & Hfirst).
    exists n. split; [lia|]. split; [exact Pn|exact Hfirst].
Qed.

Lemma launched_distance r0 : Firework.distanceToTarget (launched r0) = 500.
Proof.
  cbn [launched Firework.distanceToTarget]. rewrite !Math_pow_2.
  unfold Math.sqrt.
  replace ((400 - 400) * (400 - 400) + (100 - 600) * (100 - 600))
    with (500 * 500) by lra.
  apply sqrt_square. lra.
Qed.

Lemma standard_not_a_generator_tag : ~ In "standard" GENERATOR_TAGS.
Proof.
  cbv [GENERATOR_TAGS In]. intros H.
  repeat (destruct H as [H|H]; [discriminate H|]). exact H.
Qed.

(** C6.  A projectile launched from (400, 600) toward (400, 100) with type
    ['standard'] into an empty live set has [distanceToTarget = 500].
    Running the rocket loop frame after frame, there is a first frame
    [n >= 1] at which its [distanceTraveled] reaches 500: after every
    earlier frame it is the one live projectile, short of 500, and no
    particle has been added; after frame [n] the live set is empty and
    exactly 60 particles have been appended, all of one colour of the
    six-colour standard palette and created with alpha in [[0.6, 1]]. *)
Theorem standard_launch_end_to_end :
  forall (rnd : nat -> R) (customShape : option (list Point.t)) (w0 : World),
    (forall n, 0 <= rnd n < 1) ->
    fireworks w0 = [] ->
    let w := exec (launchFirework rnd 400 600 400 100 (Some "standard")) w0 in
    let frame := updateFireworks rnd customShape in
    exists (fw : Firework.t) (n : nat),
      fireworks w = [fw] /\
      particles w = particles w0 /\
      Firework.type fw = Some "standard" /\
      Firework.distanceToTarget fw = 500 /\
      Firework.distanceTraveled fw = 0 /\
      (1 <= n)%nat /\
      (forall k, (k < n)%nat ->
         Firework.distanceTraveled (Nat.iter k stepFirework fw) < 500 /\
         fireworks (exec (frames k frame) w) = [Nat.iter k stepFirework fw] /\
         particles (exec (frames k frame) w) = particles w0) /\
      Firework.distanceTraveled (Nat.iter n stepFirework fw) >= 500 /\
      fireworks (exec (frames n frame) w) = [] /\
      standard_burst w (exec (frames n frame) w).
Proof.
  intros rnd customShape w0 Hrnd Hw0 w frame.
  set (fw := launched (rnd (randomCalls w0))).
  assert (Hw : w = mkWorld [fw] (particles w0) (currentFireworkIndex w0)
                     (nextAutoFireTime w0) (isDrawing w0) (S (randomCalls w0))).
  { unfold w, exec, launchFirework, bind, Math_random, push_firework.
    cbn [snd fst fireworks particles currentFireworkIndex nextAutoFireTime
         isDrawing randomCalls]. now rewrite Hw0. }
  assert (Hfw : fireworks w = [fw]) by now rewrite Hw.
  assert (Hc : truthy_str (Firework.customColor fw) = false) by reflexivity.
  assert (Hs : 2 <= Firework.speed fw) by (cbn; lra).
  assert (Hd : Firework.distanceToTarget fw = 500) by apply launched_distance.
  assert (Harr : forall k,
            arrived (Nat.iter k stepFirework fw) = true <->
            Firework.distanceTraveled (Nat.iter k stepFirework fw) >= 500).
  { intros k. destruct (trajectory_default fw k Hc Hs) as (T1 & T2 & _).
    rewrite arrived_iff, T1, T2, Hd.
    change (Firework.customColor fw) with (@None string). cbn [truthy_str].
    split; [intros [H|[H _]]; [exact H|discriminate H]|auto]. }
  destruct (first_true (fun k => arrived (Nat.iter k stepFirework fw)) 250)
    as (n & Hn & Pn & Hfirst).
  { apply Harr.
    destruct (trajectory_default fw 250 Hc Hs) as (_ & _ & _ & _ & T5).
    change (Firework.distanceTraveled fw) with 0 in T5.
    replace (INR 250) with 250 in T5 by (rewrite INR_IZR_INZ; reflexivity).
    lra. }
  assert (Hn1 : (1 <= n)%nat).
  { destruct n; [|lia]. apply Harr in Pn. cbn in Pn. lra. }
  destruct (single_projectile_frames rnd customShape w fw n Hfw Hn1
              (fun k Hk => Hfirst k (proj2 Hk)) Pn) as [Hearly Hlate].
  exists fw, n.
  split; [exact Hfw|]. split; [rewrite Hw; reflexivity|].
  split; [reflexivity|]. split; [exact Hd|]. split; [reflexivity|].
  split; [exact Hn1|]. split; [|split; [|split]].
  - intros k Hk. split; [|split].
    + specialize (Hfirst k Hk).
      destruct (Rlt_dec (Firework.distanceTraveled (Nat.iter k stepFirework fw))
                        500) as [Hlt|Hge]; [exact Hlt|].
      assert (arrived (Nat.iter k stepFirework fw) = true)
        by (apply Harr; lra).
      congruence.
    + unfold frame. rewrite (Hearly k Hk). apply fireworks_with_fireworks.
    + unfold frame. rewrite (Hearly k Hk), particles_with_fireworks.
      rewrite Hw. reflexivity.
  - now apply Harr.
  - unfold frame. rewrite (Hlate n (le_n n)). apply fireworks_with_fireworks.
  - unfold frame. rewrite (Hlate n (le_n n)).
    eapply standard_burst_same_particles; [|apply particles_with_fireworks].
    unfold explodeFirework.
    destruct (trajectory_default fw n Hc Hs) as (T1 & _ & T3 & _).
    rewrite T1, T3.
    change (Firework.type fw) with (Some "standard").
    change (Firework.customColor fw) with (@None string).
    rewrite createExplosion_fallback
      by (reflexivity || exact standard_not_a_generator_tag).
    exact (explode_standard_burst rnd _ _ w Hrnd).
Qed.

Lemma standard_launch_end_to_end_witness :
  exists (fw : Firework.t) (n : nat),
    fireworks (exec (launchFirework (fun _ => 1 / 2) 400 600 400 100
                                    (Some "standard")) world0) = [fw] /\
    fireworks
      (exec (frames n (updateFireworks (fun _ => 1 / 2) None))
            (exec (launchFirework (fun _ => 1 / 2) 400 600 400 100
                                  (Some "standard")) world0)) = [].
Proof.
  destruct (standard_launch_end_to_end (fun _ => 1 / 2) None world0)
    as (fw & n & H1 & _ & _ & _ & _ & _ & _ & _ & H9 & _).
  - intros _. lra.
  - reflexivity.
  - exists fw, n. split; [exact H1|exact H9].
Defined.

(** ** The particle loop *)

Section Particles.

Variable rnd : nat -> R.

Lemma stepParticle_frame p ps w :
  stepParticle rnd p (with_particles ps w)
  = (eval (stepParticle rnd p) w,
     with_particles ps (exec (stepParticle rnd p) w)).
Proof.
  unfold stepParticle, shimmerParticle, eval, exec, bind, Math_random.
  destruct (truthy_flag (FireworkParticle.shimmer (moveParticle p)));
    [|reflexivity].
  cbn [randomCalls with_particles].
  destruct (rnd (randomCalls w) >? 0.85); reflexivity.
Qed.

Lemma stepParticle_particles p w :
  particles (exec (stepParticle rnd p) w) = particles w.
Proof.
  unfold stepParticle, shimmerParticle, eval, exec, bind, Math_random.
  destruct (truthy_flag (FireworkParticle.shimmer (moveParticle p)));
    [|reflexivity].
  destruct (rnd (randomCalls w) >? 0.85); reflexivity.
Qed.

Lemma settle_snoc pre p : forall w,
  settleParticles rnd (pre ++ [p]) w
  = let (p', w1) := stepParticle rnd p w in
    let (out, w2) := settleParticles rnd pre w1 in
    (out ++ (if faded p' then [] else [p']), w2).
Proof.
  induction pre as [|q pre IH]; intros w; cbn [app settleParticles].
  - unfold bind, ret. destruct (stepParticle rnd p w) as [p' w1].
    now destruct (faded p').
  - unfold bind, ret. rewrite IH.
    destruct (stepParticle rnd p w) as [p' w1].
    destruct (settleParticles rnd pre w1) as [out w2].
    destruct (stepParticle rnd q w2) as [q' w3].
    now destruct (faded q').
Qed.

Lemma with_particles_twice a b w :
  with_particles a (with_particles b w) = with_particles a w.
Proof. reflexivity. Qed.

Lemma with_particles_same w : with_particles (particles w) w = w.
Proof. now destruct w. Qed.

Lemma exec_get_particles {B} (k : list FireworkParticle.t -> M B) w :
  exec (bind get_particles k) w = exec (k (particles w)) w.
Proof. reflexivity. Qed.

Lemma settle_snoc_eval pre p w :
  eval (settleParticles rnd (pre ++ [p])) w
  = eval (settleParticles rnd pre) (exec (stepParticle rnd p) w)
    ++ (if faded (eval (stepParticle rnd p) w) then []
        else [eval (stepParticle rnd p) w]).
Proof.
  unfold eval, exec. rewrite settle_snoc.
  destruct (stepParticle rnd p w) as [p' w1]. cbn [fst snd].
  now destruct (settleParticles rnd pre w1).
Qed.

Lemma settle_snoc_exec pre p w :
  exec (settleParticles rnd (pre ++ [p])) w
  = exec (settleParticles rnd pre) (exec (stepParticle rnd p) w).
Proof.
  unfold eval, exec. rewrite settle_snoc.
  destruct (stepParticle rnd p w) as [p' w1]. cbn [fst snd].
  now destruct (settleParticles rnd pre w1).
Qed.

Lemma eval_stepParticle_frame p ps w :
  eval (stepParticle rnd p) (with_particles ps w) = eval (stepParticle rnd p) w.
Proof. unfold eval at 1. now rewrite stepParticle_frame. Qed.

Lemma exec_stepParticle_frame p ps w :
  exec (stepParticle rnd p) (with_particles ps w)
  = with_particles ps (exec (stepParticle rnd p) w).
Proof. unfold exec at 1. now rewrite stepParticle_frame. Qed.

Lemma particlesLoop_spec (k : nat) : forall pre post w,
  List.length pre = k ->
  exec (particlesLoop rnd k) (with_particles (pre ++ post) w)
  = with_particles (eval (settleParticles rnd pre) w ++ post)
                   (exec (settleParticles rnd pre) w).
Proof.
  induction k as [|k IH]; intros pre post w Hk.
  - destruct pre; [reflexivity|discriminate Hk].
  - destruct (snoc_cases pre k Hk) as (pre' & p & -> & Hk'). subst k.
    rewrite settle_snoc_eval, settle_snoc_exec.
    cbn [particlesLoop]. rewrite exec_get_particles.
    change (particles (with_particles ?a ?b)) with a.
    rewrite <- !app_assoc. cbn [app].
    rewrite nth_error_middle, exec_bind, exec_bind.
    rewrite eval_stepParticle_frame, exec_stepParticle_frame.
    set (p' := eval (stepParticle rnd p) w).
    set (w1 := exec (stepParticle rnd p) w).
    rewrite set_at_middle, splice1_middle.
    destruct (faded p');
      change (exec (set_particles ?a) ?b) with (with_particles a b);
      rewrite with_particles_twice; apply IH; reflexivity.
Qed.

Lemma updateParticles_spec w :
  exec (updateParticles rnd) w
  = with_particles (eval (settleParticles rnd (particles w)) w)
                   (exec (settleParticles rnd (particles w)) w).
Proof.
  unfold updateParticles. rewrite exec_get_particles.
  rewrite <- (with_particles_same w) at 2.
  rewrite <- (app_nil_r (particles w)) at 2.
  rewrite (particlesLoop_spec _ (particles w) [] w eq_refl).
  now rewrite app_nil_r.
Qed.

(** *** Particles that do not shimmer *)

Lemma trailParticle_keeps p :
  FireworkParticle.alpha (trailParticle p) = FireworkParticle.alpha p /\
  FireworkParticle.decay (trailParticle p) = FireworkParticle.decay p /\
  FireworkParticle.shimmer (trailParticle p) = FireworkParticle.shimmer p /\
  FireworkParticle.color (trailParticle p) = FireworkParticle.color p.
Proof.
  unfold trailParticle.
  destruct (truthy_flag (FireworkParticle.useTrail p)); cbn; auto.
Qed.

Lemma ageParticle_props p :
  FireworkParticle.alpha (ageParticle p)
  = FireworkParticle.alpha p - FireworkParticle.decay p /\
  FireworkParticle.decay (ageParticle p) = FireworkParticle.decay p /\
  FireworkParticle.shimmer (ageParticle p) = FireworkParticle.shimmer p.
Proof.
  unfold ageParticle.
  destruct (trailParticle_keeps (moveParticle p)) as (-> & -> & -> & _).
  cbn. auto.
Qed.

Lemma age_iter_props p (n : nat) :
  FireworkParticle.alpha (Nat.iter n ageParticle p)
  = FireworkParticle.alpha p - INR n * FireworkParticle.decay p /\
  FireworkParticle.decay (Nat.iter n ageParticle p)
  = FireworkParticle.decay p /\
  FireworkParticle.shimmer (Nat.iter n ageParticle p)
  = FireworkParticle.shimmer p.
Proof.
  induction n as [|n (I1 & I2 & I3)].
  - cbn. repeat split; lra.
  - change (Nat.iter (S n) ageParticle p)
      with (ageParticle (Nat.iter n ageParticle p)).
    destruct (ageParticle_props (Nat.iter n ageParticle p)) as (-> & -> & ->).
    rewrite I1, I2, I3, S_INR. repeat split; lra.
Qed.

Lemma stepParticle_plain p w :
  plain p -> stepParticle rnd p w = (ageParticle p, w).
Proof.
  intros H. unfold stepParticle, shimmerParticle, bind.
  change (FireworkParticle.shimmer (moveParticle p))
    with (FireworkParticle.shimmer p).
  unfold plain in H. now rewrite H.
Qed.

Lemma settle_plain ps : forall w,
  Forall plain ps ->
  settleParticles rnd ps w
  = (filter (fun q => negb (faded q)) (map ageParticle ps), w).
Proof.
  induction ps as [|p ps IH]; intros w H; [reflexivity|].
  inversion H as [|? ? Hp Hps]; subst.
  cbn [settleParticles map filter]. unfold bind at 1. rewrite (IH w Hps).
  unfold bind, ret. rewrite (stepParticle_plain p w Hp).
  now destruct (faded (ageParticle p)).
Qed.

Lemma updateParticles_plain w :
  Forall plain (particles w) ->
  exec (updateParticles rnd) w
  = with_particles
      (filter (fun q => negb (faded q)) (map ageParticle (particles w))) w.
Proof.
  intros H. rewrite updateParticles_spec. unfold eval, exec.
  now rewrite (settle_plain _ w H).
Qed.

Lemma alive_through_S n p :
  alive_through (S n) p
  = alive_through n p
    && negb (FireworkParticle.alpha p
             - INR (S n) * FireworkParticle.decay p <=? 0).
Proof.
  unfold alive_through. rewrite seq_S, forallb_app. cbn [forallb Nat.add].
  now rewrite andb_true_r.
Qed.

Lemma faded_age_iter n p :
  faded (Nat.iter n ageParticle p)
  = (FireworkParticle.alpha p - INR n * FireworkParticle.decay p <=? 0).
Proof.
  unfold faded. now destruct (age_iter_props p n) as (-> & _).
Qed.

Lemma frames_plain (n : nat) : forall w,
  Forall plain (particles w) ->
  exec (frames n (updateParticles rnd)) w
  = with_particles
      (map (Nat.iter n ageParticle) (filter (alive_through n) (particles w))) w.
Proof.
  induction n as [|n IH]; intros w H.
  - cbn [frames exec ret snd alive_through seq forallb].
    assert (E : forall l : list FireworkParticle.t,
              map (Nat.iter 0 ageParticle) (filter (fun _ => true) l) = l).
    { induction l as [|a l IHl]; [reflexivity|]. cbn. now rewrite IHl. }
    rewrite E. symmetry. apply with_particles_same.
  - rewrite exec_frames_S, (IH w H), updateParticles_plain.
    + change (particles (with_particles ?a ?b)) with a.
      rewrite with_particles_twice. f_equal.
      induction (particles w) as [|p ps IHps]; [reflexivity|].
      inversion H as [|? ? Hp Hps]; subst.
      cbn [filter]. rewrite alive_through_S.
      destruct (alive_through n p); cbn [andb map filter].
      * change (ageParticle (Nat.iter n ageParticle p))
          with (Nat.iter (S n) ageParticle p).
        rewrite faded_age_iter.
        destruct (FireworkParticle.alpha p
                  - INR (S n) * FireworkParticle.decay p <=? 0);
          cbn [negb map]; [|f_equal]; now apply IHps.
      * now apply IHps.
    + change (particles (with_particles ?a ?b)) with a.
      apply Forall_forall. intros q Hq.
      apply in_map_iff in Hq as [p [<- Hp]].
      apply filter_In in Hp as [Hp _].
      rewrite Forall_forall in H. specialize (H p Hp). unfold plain in *.
      now destruct (age_iter_props p n) as (_ & _ & ->).
Qed.

End Particles.

(** ** A whole frame *)

Lemma stepParticle_fireworks rnd p w :
  fireworks (exec (stepParticle rnd p) w) = fireworks w.
Proof.
  unfold stepParticle, shimmerParticle, eval, exec, bind, Math_random.
  destruct (truthy_flag (FireworkParticle.shimmer (moveParticle p)));
    [|reflexivity].
  destruct (rnd (randomCalls w) >? 0.85); reflexivity.
Qed.

Lemma settleParticles_fireworks rnd ps : forall w,
  fireworks (exec (settleParticles rnd ps) w) = fireworks w.
Proof.
  induction ps as [|p ps IH]; intros w; [reflexivity|].
  cbn [settleParticles]. rewrite exec_bind, exec_bind, exec_ret.
  now rewrite stepParticle_fireworks, IH.
Qed.

Lemma updateParticles_fireworks rnd w :
  fireworks (exec (updateParticles rnd) w) = fireworks w.
Proof.
  rewrite updateParticles_spec. apply settleParticles_fireworks.
Qed.

Lemma updateFireworks_fireworks rnd customShape w :
  fireworks (exec (updateFireworks rnd customShape) w)
  = survivors (fireworks w).
Proof.
  rewrite updateFireworks_spec, exec_frame.
  - reflexivity.
  - apply frame_forEach. intros. apply frame_explodeFirework.
Qed.











(** ** The colour handed to the canvas *)

(** The three spellings of a colour the renderer tells apart. *)
Lemma particleStyle_forms toStr p :
  (startsWith (FireworkParticle.color p) "hsl" = true \/
   startsWith (FireworkParticle.color p) "rgb" = true ->
   particleStyle toStr p = FireworkParticle.color p) /\
  (startsWith (FireworkParticle.color p) "hsl" = false ->
   startsWith (FireworkParticle.color p) "rgb" = false ->
   particleStyle toStr p
   = String.concat "" ["rgba("; FireworkParticle.color p; ", ";
                       toStr (FireworkParticle.alpha p); ")"]).
Proof.
  unfold particleStyle. split.
  - intros [H|H]; rewrite H; [reflexivity|].
    now destruct (startsWith (FireworkParticle.color p) "hsl").
  - intros H1 H2. now rewrite H1, H2.
Qed.

(** C8 (the code departs from the claim).  Every particle of the drone
    display carries a hex colour and is drawn as a dot; the fill style
    computed for it is not the hex colour but the hex colour wrapped as if
    it were an ["r, g, b"] triplet, [rgba(#RRGGBB, alpha)], which is no
    CSS colour: the hex form is neither accepted nor treated as already
    opaque. *)
Theorem hex_colour_wrapped_as_triplet :
  forall (toStr : R -> string) (rnd : nat -> R) (x y : R) (pt : Point.t)
         (c : nat),
    let q := droneParticle rnd x y pt c in
    In (FireworkParticle.color q) DRONE_COLORS /\
    particleStyle toStr q
    = String.concat "" ["rgba("; FireworkParticle.color q; ", ";
                        toStr (FireworkParticle.alpha q); ")"] /\
    substring 0 6 (particleStyle toStr q) = "rgba(#" /\
    particleStyle toStr q <> FireworkParticle.color q /\
    (renderParticle toStr q
     = [FillDot (particleStyle toStr q) (FireworkParticle.x q)
                (FireworkParticle.y q) 0.8]
     \/ renderParticle toStr q
        = [FillDot (particleStyle toStr q) (FireworkParticle.x q)
                   (FireworkParticle.y q) 1.5]).
Proof.
  intros toStr rnd x y pt c q.
  assert (Hcol : FireworkParticle.color q = "#FFFFFF"
                 \/ FireworkParticle.color q = "#1E90FF"
                 \/ FireworkParticle.color q = "#00FFFF").
  { unfold q. cbn [droneParticle particle FireworkParticle.color].
    destruct (rnd c >? 0.8); [tauto|]. destruct (rnd c >? 0.5); tauto. }
  assert (Hstyle : particleStyle toStr q
                   = String.concat "" ["rgba("; FireworkParticle.color q; ", ";
                                       toStr (FireworkParticle.alpha q); ")"]).
  { apply particleStyle_forms;
      destruct Hcol as [-> | [-> | ->]]; reflexivity. }
  split; [destruct Hcol as [-> | [-> | ->]]; cbv [DRONE_COLORS In]; tauto|].
  split; [exact Hstyle|].
  split; [rewrite Hstyle; destruct Hcol as [-> | [-> | ->]]; reflexivity|].
  split.
  - rewrite Hstyle. destruct Hcol as [-> | [-> | ->]]; discriminate.
  - unfold renderParticle, size_or_2, num_or.
    cbn [q droneParticle particle FireworkParticle.trail FireworkParticle.shape
         FireworkParticle.useTrail FireworkParticle.size truthy_flag negb app
         FireworkParticle.x FireworkParticle.y].
    destruct (rnd c >? 0.9).
    + right. assert (E : Req_b 1.5 0 = false) by (rcases; [lra|reflexivity]).
      now rewrite E.
    + left. assert (E : Req_b 0.8 0 = false) by (rcases; [lra|reflexivity]).
      now rewrite E.
Qed.

(** * Further properties of the component and of the page driving it *)

(** ** normalizePath: where the normalized points lie *)





(** ** Shape capture *)




Lemma point_eta (p : Point.t) : Point.mk (Point.x p) (Point.y p) = p.
Proof. now destruct p. Qed.

Lemma moves_while_drawing (moves : list PointerEvent) : forall ps c,
  Forall2 (fun e p => getEventPos e = Some p) moves ps ->
  isDrawing (world c) = true ->
  fold_left (fun c e => handleInteractionMove true e c) moves c
  = mkCanvas (world c) (stars c) (completedPaths c) (currentPath c ++ ps)
             (lastInteractionTime c).
Proof.
  induction moves as [|e moves IH]; intros ps c HF Hd.
  - inversion HF; subst. rewrite app_nil_r. now destruct c.
  - inversion HF as [|? p ? ps' He HF']; subst.
    assert (Hstep : handleInteractionMove true e c
                    = mkCanvas (world c) (stars c) (completedPaths c)
                               (currentPath c ++ [p]) (lastInteractionTime c)).
    { unfold handleInteractionMove. rewrite Hd, He. cbn [andb].
      now rewrite point_eta. }
    cbn [fold_left]. rewrite Hstep.
    rewrite (IH ps'); [|exact HF'|exact Hd].
    cbn [world stars completedPaths currentPath lastInteractionTime].
    now rewrite <- app_assoc.
Qed.

(** X3.  In hand-drawing mode a drag gesture (pointer down, any number of
    moves, pointer up, each event carrying a position) appends exactly one
    stroke to the completed strokes, made of the positions in order; the
    stroke in progress is empty afterwards and the drawing flag is off.
    Points of an unfinished earlier stroke are discarded by the pointer
    down.  Projectiles, particles, stars, the round-robin index and the
    random source are untouched. *)
Theorem stroke_appends_one_path :
  forall (rnd : nat -> R) (customShape : option (list Point.t))
         (innerWidth innerHeight now now' : R)
         (e0 : PointerEvent) (moves : list PointerEvent)
         (p0 : Point.t) (ps : list Point.t) (c : Canvas),
    getEventPos e0 = Some p0 ->
    Forall2 (fun e p => getEventPos e = Some p) moves ps ->
    let c' := stroke rnd customShape true innerWidth innerHeight
                     now e0 moves now' c in
    completedPaths c' = completedPaths c ++ [p0 :: ps] /\
    currentPath c' = [] /\
    world c' = set_isDrawing false (world c) /\
    stars c' = stars c /\
    lastInteractionTime c' = now' /\
    capturedPoints c'
    = List.concat (completedPaths c) ++ p0 :: ps.
Proof.
  intros rnd customShape iw ih now now' e0 moves p0 ps c He0 HF c'.
  assert (E : c' = mkCanvas (set_isDrawing false (world c)) (stars c)
                            (completedPaths c ++ [p0 :: ps]) [] now').
  { unfold c', stroke, handleInteractionStart. rewrite He0, point_eta.
    rewrite (moves_while_drawing moves ps); [|exact HF|reflexivity].
    unfold handleInteractionEnd. cbn. reflexivity. }
  rewrite E. cbn [completedPaths currentPath world stars lastInteractionTime].
  repeat split. unfold capturedPoints. cbn [completedPaths currentPath].
  now rewrite concat_app, app_nil_r; cbn; rewrite app_nil_r.
Qed.

Lemma stroke_appends_one_path_witness :
  completedPaths
    (stroke (fun _ => 1 / 2) None true 800 600 0 (MouseEvent 1 2)
            [MouseEvent 3 4; TouchEvent [Point.mk 5 6]] 1
            (mkCanvas world0 [] [] [] 0))
  = [[Point.mk 1 2; Point.mk 3 4; Point.mk 5 6]].
Proof.
  refine (proj1 (stroke_appends_one_path
                   (fun _ => 1 / 2) None 800 600 0 1 (MouseEvent 1 2)
                   [MouseEvent 3 4; TouchEvent [Point.mk 5 6]]
                   (Point.mk 1 2) [Point.mk 3 4; Point.mk 5 6]
                   (mkCanvas world0 [] [] [] 0) eq_refl _)).
  repeat constructor.
Defined.



(** ** Pointer down outside hand-drawing mode, and auto-fire *)

Lemma nth_error_default {A} (l : list A) : forall n d,
  match nth_error l n with Some t => t | None => d end = nth n l d.
Proof.
  induction l as [|a l IH]; intros [|n] d; cbn; auto.
Qed.

Lemma floor_scaled_range (r : R) (k : Z) :
  0 <= r < 1 -> (0 < k)%Z ->
  (0 <= Math.floor (r * IZR k) < k)%Z.
Proof.
  intros Hr Hk. unfold Math.floor.
  destruct (base_Int_part (r * IZR k)) as [H1 H2].
  apply IZR_lt in Hk. split.
  - assert (IZR (-1) < IZR (Int_part (r * IZR k))) by (cbn; nra).
    apply lt_IZR in H. lia.
  - apply lt_IZR. nra.
Qed.

(** X5.  Outside hand-drawing mode and with no custom shape, a pointer
    down that carries a position launches exactly one projectile: from
    bottom-centre [(innerWidth / 2, innerHeight)] toward the pointer
    position, speed 2, nothing travelled, planned distance the Euclidean
    distance, an integer hue in [[0, 360)], no override colour, and the
    type the round-robin selector holds (['standard'] should the index be
    out of range); the index moves on by one, wrapping at 16.  Particles,
    stars and drawing buffers are untouched. *)
Theorem pointer_down_launches_one_projectile :
  forall (rnd : nat -> R) (innerWidth innerHeight now : R)
         (e : PointerEvent) (p : Point.t) (c : Canvas),
    (forall n, 0 <= rnd n < 1) ->
    getEventPos e = Some p ->
    let c' := handleInteractionStart rnd None false innerWidth innerHeight
                                     now e c in
    exists fw : Firework.t,
      fireworks (world c') = fireworks (world c) ++ [fw] /\
      (Firework.x fw = innerWidth / 2 /\ Firework.y fw = innerHeight /\
       Firework.targetX fw = Point.x p /\ Firework.targetY fw = Point.y p) /\
      (Firework.speed fw = 2 /\ Firework.distanceTraveled fw = 0 /\
       Firework.distanceToTarget fw
       = sqrt ((Point.x p - innerWidth / 2) * (Point.x p - innerWidth / 2)
               + (Point.y p - innerHeight) * (Point.y p - innerHeight)) /\
       0 <= Firework.distanceToTarget fw) /\
      (exists h : Z, Firework.hue fw = IZR h /\ (0 <= h < 360)%Z) /\
      Firework.customColor fw = None /\
      Firework.type fw
      = Some (nth (currentFireworkIndex (world c)) FIREWORK_TYPES "standard") /\
      currentFireworkIndex (world c')
      = ((currentFireworkIndex (world c) + 1) mod 16)%nat /\
      particles (world c') = particles (world c) /\
      stars c' = stars c /\ completedPaths c' = completedPaths c /\
      currentPath c' = currentPath c /\ lastInteractionTime c' = now.
Proof.
  intros rnd iw ih now e p c Hrnd He c'.
  unfold c', handleInteractionStart. rewrite He.
  cbn [world stars completedPaths currentPath lastInteractionTime].
  unfold exec, bind, getNextFireworkType, launchFirework, Math_random,
    push_firework.
  cbn [fst snd fireworks particles currentFireworkIndex nextAutoFireTime
       isDrawing randomCalls].
  eexists. split; [reflexivity|].
  cbn [Firework.x Firework.y Firework.targetX Firework.targetY Firework.speed
       Firework.distanceTraveled Firework.distanceToTarget Firework.hue
       Firework.customColor Firework.type].
  split; [auto|]. split.
  - rewrite !Math_pow_2. unfold Math.sqrt.
    repeat split; try reflexivity. apply sqrt_pos.
  - split.
    + eexists. split; [reflexivity|].
      apply (floor_scaled_range _ 360); [apply Hrnd|lia].
    + rewrite nth_error_default. repeat split; reflexivity.
Qed.

Lemma pointer_down_launches_one_projectile_witness :
  exists fw : Firework.t,
    fireworks
      (world (handleInteractionStart (fun _ => 1 / 2) None false 800 600 0
                                     (MouseEvent 100 200)
                                     (mkCanvas world0 [] [] [] 0)))
    = [fw].
Proof.
  destruct (pointer_down_launches_one_projectile
              (fun _ => 1 / 2) 800 600 0 (MouseEvent 100 200)
              (Point.mk 100 200) (mkCanvas world0 [] [] [] 0))
    as (fw & H & _).
  - intros _. lra.
  - reflexivity.
  - exists fw. exact H.
Defined.

Lemma drone_batch_cases rnd x y (shape : list Point.t) c :
  forall q,
    In q (map (fun jp => droneParticle rnd x y (snd jp) (c + 4 * fst jp)%nat)
              (combine (seq 0 (List.length shape)) shape)) ->
    exists pt c', In pt shape /\ q = droneParticle rnd x y pt c'.
Proof.
  intros q Hq. apply in_map_iff in Hq as [[j pt] [<- Hin]].
  apply in_combine_r in Hin. eauto.
Qed.

(** X6.  Outside hand-drawing mode, with a non-empty custom shape stored, a
    pointer down at [(x, y)] launches no projectile and leaves the
    round-robin index alone: it appends one particle per shape point, in
    the order of the points, at [(x, y) + 60 * point], with velocity
    components at most 0.075 in magnitude, alpha 1, a colour among
    [#00FFFF], [#FFFFFF], [#1E90FF], no trail and the shimmer flag set. *)
Theorem pointer_down_with_shape_is_drone_display :
  forall (rnd : nat -> R) (pt0 : Point.t) (pts : list Point.t)
         (innerWidth innerHeight now : R)
         (e : PointerEvent) (p : Point.t) (c : Canvas),
    (forall n, 0 <= rnd n < 1) ->
    getEventPos e = Some p ->
    let shape := pt0 :: pts in
    let c' := handleInteractionStart rnd (Some shape) false
                                     innerWidth innerHeight now e c in
    exists batch : list FireworkParticle.t,
      particles (world c') = particles (world c) ++ batch /\
      fireworks (world c') = fireworks (world c) /\
      currentFireworkIndex (world c') = currentFireworkIndex (world c) /\
      Forall2 (fun pt q =>
                 FireworkParticle.x q = Point.x p + Point.x pt * 60 /\
                 FireworkParticle.y q = Point.y p + Point.y pt * 60)
              shape batch /\
      (forall q, In q batch ->
         Rabs (FireworkParticle.vx q) <= 0.075 /\
         Rabs (FireworkParticle.vy q) <= 0.075 /\
         FireworkParticle.alpha q = 1 /\
         In (FireworkParticle.color q) DRONE_COLORS /\
         FireworkParticle.useTrail q = Some false /\
         FireworkParticle.shimmer q = Some true).
Proof.
  intros rnd pt0 pts iw ih now e p c Hrnd He shape c'.
  unfold c', handleInteractionStart. rewrite He. cbn [world].
  rewrite (createExplosion_drone rnd _ _ _ 0 None pt0 pts eq_refl).
  rewrite explode_custom_shape_spec. fold shape.
  eexists. cbn [appended particles fireworks currentFireworkIndex].
  split; [reflexivity|]. split; [reflexivity|]. split; [reflexivity|].
  split.
  - eapply Forall2_impl;
      [|apply (drone_batch_Forall2 rnd (Point.x p) (Point.y p) shape
                 (randomCalls (world c)) 0)].
    intros pt q [c0 ->]. split; reflexivity.
  - intros q Hq. apply drone_batch_cases in Hq as (pt & c0 & _ & ->).
    destruct (droneParticle_props rnd Hrnd (Point.x p) (Point.y p) pt c0)
      as (_ & _ & H3 & H4 & H5 & H6).
    repeat split; auto.
Qed.

Lemma pointer_down_with_shape_is_drone_display_witness :
  exists batch : list FireworkParticle.t,
    particles
      (world (handleInteractionStart (fun _ => 1 / 2) (Some unit_square) false
                                     800 600 0 (MouseEvent 100 200)
                                     (mkCanvas world0 [] [] [] 0)))
    = batch /\
    Forall2 (fun pt q =>
               FireworkParticle.x q = 100 + Point.x pt * 60 /\
               FireworkParticle.y q = 200 + Point.y pt * 60)
            unit_square batch.
Proof.
  destruct (pointer_down_with_shape_is_drone_display
              (fun _ => 1 / 2) (Point.mk (-1) (-1))
              [Point.mk 1 (-1); Point.mk 1 1; Point.mk (-1) 1]
              800 600 0 (MouseEvent 100 200) (Point.mk 100 200)
              (mkCanvas world0 [] [] [] 0))
    as (batch & H1 & _ & _ & H4 & _).
  - intros _. lra.
  - reflexivity.
  - exists batch. split; [exact H1|exact H4].
Defined.



(** ** Every launched projectile explodes *)

Lemma nat_above (r : R) : 0 <= r -> exists N : nat, r <= INR N.
Proof.
  intros Hr. destruct (archimed r) as [H _].
  exists (Z.to_nat (up r)).
  assert (0 <= up r)%Z by (apply le_IZR; lra).
  rewrite INR_IZR_INZ, Z2Nat.id by assumption. lra.
Qed.

(** X8.  Whatever the launch point, the target and the type, a projectile
    launched by [launchFirework] into an empty live set is removed after
    finitely many frames of the rocket loop and never comes back: there is
    a frame [n >= 1] before which it is the one live projectile and from
    which on the live set is empty.  While it flies it has travelled at
    least 2 per frame and less than the planned distance, so [n] exceeds
    half the planned distance by at most one frame. *)
Theorem launched_projectile_explodes :
  forall (rnd : nat -> R) (customShape : option (list Point.t))
         (sx sy tx ty : R) (type : option string) (w0 : World),
    fireworks w0 = [] ->
    let w := exec (launchFirework rnd sx sy tx ty type) w0 in
    let frame := updateFireworks rnd customShape in
    let d := sqrt ((tx - sx) * (tx - sx) + (ty - sy) * (ty - sy)) in
    exists (fw : Firework.t) (n : nat),
      fireworks w = [fw] /\
      Firework.distanceToTarget fw = d /\
      (1 <= n)%nat /\
      (forall k, (k < n)%nat ->
         fireworks (exec (frames k frame) w) = [Nat.iter k stepFirework fw]) /\
      (forall k, (1 <= k < n)%nat ->
         2 * INR k
         <= Firework.distanceTraveled (Nat.iter k stepFirework fw) < d) /\
      (forall m, (n <= m)%nat -> fireworks (exec (frames m frame) w) = []) /\
      (n = 1%nat \/ 2 * INR (n - 1) < d).
Proof.
  intros rnd customShape sx sy tx ty type w0 Hw0 w frame d.
  set (t := match type with Some t => t | None => "standard" end).
  set (fw := Firework.mk sx sy tx ty 2 (Math.atan2 (ty - sy) (tx - sx))
               (IZR (Math.floor (rnd (randomCalls w0) * 360))) 100
               (Math.sqrt (Math.pow (tx - sx) 2 + Math.pow (ty - sy) 2)) 0
               (repeat (Point.mk sx sy) 3) 3 false (Some t) None None).
  assert (Hfw : fireworks w = [fw]).
  { unfold w, exec, launchFirework, bind, Math_random, push_firework.
    cbn [snd fst fireworks particles currentFireworkIndex nextAutoFireTime
         isDrawing randomCalls]. now rewrite Hw0. }
  assert (Hd : Firework.distanceToTarget fw = d).
  { cbn [fw Firework.distanceToTarget]. now rewrite !Math_pow_2. }
  assert (Hd0 : 0 <= d) by apply sqrt_pos.
  assert (Hc : truthy_str (Firework.customColor fw) = false) by reflexivity.
  assert (Hs : 2 <= Firework.speed fw) by (cbn; lra).
  assert (Hdist : forall k,
            2 * INR k
            <= Firework.distanceTraveled (Nat.iter k stepFirework fw)).
  { intros k. destruct (trajectory_default fw k Hc Hs) as (_ & _ & _ & _ & T5).
    change (Firework.distanceTraveled fw) with 0 in T5. lra. }
  assert (Harr : forall k,
            arrived (Nat.iter k stepFirework fw) = true <->
            Firework.distanceTraveled (Nat.iter k stepFirework fw) >= d).
  { intros k. destruct (trajectory_default fw k Hc Hs) as (T1 & T2 & _).
    rewrite arrived_iff, T1, T2, Hd.
    change (Firework.customColor fw) with (@None string). cbn [truthy_str].
    split; [intros [H|[H _]]; [exact H|discriminate H]|auto]. }
  destruct (nat_above (d / 2)) as [N HN]; [lra|].
  destruct (first_true (fun k => arrived (Nat.iter (S k) stepFirework fw)) N)
    as (n0 & Hn0 & Pn0 & Hfirst).
  { apply Harr. specialize (Hdist (S N)). rewrite S_INR in Hdist. lra. }
  assert (Hbefore : forall k, (1 <= k < S n0)%nat ->
            arrived (Nat.iter k stepFirework fw) = false).
  { intros [|k] Hk; [lia|]. apply Hfirst. lia. }
  destruct (single_projectile_frames rnd customShape w fw (S n0) Hfw
              ltac:(lia) Hbefore Pn0) as [Hearly Hlate].
  assert (Hshort : forall k, (1 <= k < S n0)%nat ->
            Firework.distanceTraveled (Nat.iter k stepFirework fw) < d).
  { intros k Hk. specialize (Hbefore k Hk).
    destruct (Rlt_dec (Firework.distanceTraveled (Nat.iter k stepFirework fw))
                      d) as [Hlt|Hge]; [exact Hlt|].
    assert (arrived (Nat.iter k stepFirework fw) = true) by (apply Harr; lra).
    congruence. }
  exists fw, (S n0).
  split; [exact Hfw|]. split; [exact Hd|]. split; [lia|].
  split; [|split; [|split]].
  - intros k Hk. unfold frame. rewrite (Hearly k Hk).
    apply fireworks_with_fireworks.
  - intros k Hk. split; [apply Hdist|now apply Hshort].
  - intros m Hm. unfold frame. rewrite (Hlate m Hm).
    apply fireworks_with_fireworks.
  - destruct n0 as [|n0]; [left; reflexivity|right].
    replace (S (S n0) - 1)%nat with (S n0) by lia.
    specialize (Hdist (S n0)). specialize (Hshort (S n0) ltac:(lia)). lra.
Qed.

Lemma launched_projectile_explodes_witness :
  exists (fw : Firework.t) (n : nat),
    fireworks (exec (launchFirework (fun _ => 1 / 2) 400 600 100 50
                                    (Some "heart")) world0) = [fw] /\
    fireworks
      (exec (frames n (updateFireworks (fun _ => 1 / 2) None))
            (exec (launchFirework (fun _ => 1 / 2) 400 600 100 50
                                  (Some "heart")) world0)) = [].
Proof.
  destruct (launched_projectile_explodes (fun _ => 1 / 2) None 400 600 100 50
              (Some "heart") world0 eq_refl)
    as (fw & n & H1 & _ & _ & _ & _ & H6 & _).
  exists fw, n. split; [exact H1|]. apply H6. lia.
Defined.

(** ** Stars *)

Lemma blinkStar_keeps (s : Star.t) :
  Star.x (blinkStar s) = Star.x s /\ Star.y (blinkStar s) = Star.y s /\
  Star.size (blinkStar s) = Star.size s /\
  Rabs (Star.blinkSpeed (blinkStar s)) = Rabs (Star.blinkSpeed s).
Proof.
  unfold blinkStar. cbn.
  destruct ((Star.opacity s + Star.blinkSpeed s >? 1)
            || (Star.opacity s + Star.blinkSpeed s <? 0)); repeat split.
  replace (Star.blinkSpeed s * -1) with (- Star.blinkSpeed s) by lra.
  apply Rabs_Ropp.
Qed.

Lemma blinkStar_inv (s : Star.t) : star_inv s -> star_inv (blinkStar s).
Proof.
  unfold star_inv, blinkStar. cbn.
  set (o := Star.opacity s). set (v := Star.blinkSpeed s).
  intros (Hb & Ho & Hhi & Hlo).
  destruct (Rlt_dec 1 (o + v)) as [H1|H1];
    destruct (Rlt_dec (o + v) 0) as [H0|H0];
    [lra | | | ].
  - assert (E : (o + v >? 1) = true) by now apply Rltb_true.
    rewrite E. cbn [orb].
    replace (v * -1) with (- v) by lra. rewrite Rabs_Ropp.
    unfold Rabs in *. destruct (Rcase_abs v); repeat split; lra.
  - assert (E1 : (o + v >? 1) = false) by (apply Rltb_false; lra).
    assert (E0 : (o + v <? 0) = true) by now apply Rltb_true.
    rewrite E1, E0. cbn [orb].
    replace (v * -1) with (- v) by lra. rewrite Rabs_Ropp.
    unfold Rabs in *. destruct (Rcase_abs v); repeat split; lra.
  - assert (E1 : (o + v >? 1) = false) by (apply Rltb_false; lra).
    assert (E0 : (o + v <? 0) = false) by (apply Rltb_false; lra).
    rewrite E1, E0. cbn [orb].
    unfold Rabs in *. destruct (Rcase_abs v); repeat split; lra.
Qed.

Lemma star_fresh_inv (s : Star.t) : star_fresh s -> star_inv s.
Proof.
  unfold star_fresh, star_inv. intros (Ho & Hv & _).
  rewrite Rabs_right by lra. repeat split; lra.
Qed.

Lemma iter_map {A} (f : A -> A) (k : nat) (l : list A) :
  Nat.iter k (map f) l = map (Nat.iter k f) l.
Proof.
  induction k as [|k IH].
  - cbn. now rewrite map_id.
  - change (Nat.iter (S k) (map f) l) with (map f (Nat.iter k (map f) l)).
    rewrite IH, map_map. reflexivity.
Qed.

Lemma blink_iter (s : Star.t) (k : nat) :
  star_inv s ->
  star_inv (Nat.iter k blinkStar s) /\
  Star.x (Nat.iter k blinkStar s) = Star.x s /\
  Star.y (Nat.iter k blinkStar s) = Star.y s /\
  Star.size (Nat.iter k blinkStar s) = Star.size s /\
  Rabs (Star.blinkSpeed (Nat.iter k blinkStar s)) = Rabs (Star.blinkSpeed s).
Proof.
  intros H. induction k as [|k (I & Ix & Iy & Is & Iv)].
  - cbn. auto.
  - change (Nat.iter (S k) blinkStar s)
      with (blinkStar (Nat.iter k blinkStar s)).
    destruct (blinkStar_keeps (Nat.iter k blinkStar s)) as (-> & -> & -> & ->).
    split; [now apply blinkStar_inv|auto].
Qed.

Lemma makeStars_S rnd iw ih n w :
  eval (makeStars rnd iw ih (S n)) w
  = eval (newStar rnd iw ih) w
      :: eval (makeStars rnd iw ih n) (exec (newStar rnd iw ih) w).
Proof.
  unfold eval, exec. cbn [makeStars]. unfold bind at 1.
  destruct (newStar rnd iw ih w) as [s w1]. unfold bind. cbn [fst snd].
  now destruct (makeStars rnd iw ih n w1).
Qed.

Lemma newStar_fresh rnd iw ih w :
  (forall n, 0 <= rnd n < 1) -> star_fresh (eval (newStar rnd iw ih) w).
Proof.
  intros Hrnd. unfold star_fresh, eval, newStar, bind, Math_random, ret.
  cbn [fst snd randomCalls Star.opacity Star.blinkSpeed Star.size].
  set (c := randomCalls w).
  pose proof (Hrnd (S (S c))). pose proof (Hrnd (S (S (S c)))).
  pose proof (Hrnd (S (S (S (S c))))). lra.
Qed.

Lemma makeStars_fresh rnd iw ih (n : nat) : forall w,
  (forall n, 0 <= rnd n < 1) ->
  List.length (eval (makeStars rnd iw ih n) w) = n /\
  Forall star_fresh (eval (makeStars rnd iw ih n) w).
Proof.
  induction n as [|n IH]; intros w Hrnd.
  - split; [reflexivity|constructor].
  - rewrite makeStars_S.
    destruct (IH (exec (newStar rnd iw ih) w) Hrnd) as [L F].
    split; [cbn [List.length]; now rewrite L|].
    constructor; [now apply newStar_fresh|exact F].
Qed.

Lemma runFrames_stars rnd cs ihm eaf iw ih (times : list R) : forall c,
  stars (runFrames rnd cs ihm eaf iw ih times c)
  = Nat.iter (List.length times) (map blinkStar) (stars c) /\
  completedPaths (runFrames rnd cs ihm eaf iw ih times c) = completedPaths c /\
  currentPath (runFrames rnd cs ihm eaf iw ih times c) = currentPath c.
Proof.
  unfold runFrames.
  induction times as [|t times IH]; intros c; [cbn; auto|].
  cbn [fold_left List.length].
  destruct (IH (animateCanvas rnd cs ihm eaf iw ih t c))
    as (-> & -> & ->).
  cbn [animateCanvas stars completedPaths currentPath].
  split; [|auto]. rewrite !iter_map, map_map.
  apply map_ext. intros s. symmetry. apply Nat.iter_succ_r.
Qed.

(** X9.  [initStars] makes 50 stars in a window narrower than 600 pixels
    and 100 otherwise.  However many frames follow, no star is added or
    removed, each keeps its position, its size and the magnitude of its
    blink speed (between 0.005 and 0.025), and its opacity stays within one
    blink step of [[0, 1]]: in [[-0.025, 1.025]], so the alpha it is drawn
    with, [|opacity|], is at most 1.025.  The frames leave the drawing
    buffers alone. *)
Theorem stars_oscillate_within_bounds :
  forall (rnd : nat -> R) (customShape : option (list Point.t))
         (isHandDrawingMode enableAutoFire : bool)
         (innerWidth innerHeight : R) (times : list R) (c : Canvas),
    (forall n, 0 <= rnd n < 1) ->
    let c0 := initStars rnd innerWidth innerHeight c in
    let c' := runFrames rnd customShape isHandDrawingMode enableAutoFire
                        innerWidth innerHeight times c0 in
    List.length (stars c0)
    = (if innerWidth <? 600 then 50%nat else 100%nat) /\
    Forall2 (fun s s' =>
               Star.x s' = Star.x s /\ Star.y s' = Star.y s /\
               Star.size s' = Star.size s /\
               Rabs (Star.blinkSpeed s') = Star.blinkSpeed s /\
               0.005 <= Rabs (Star.blinkSpeed s') < 0.025 /\
               -0.025 <= Star.opacity s' <= 1.025 /\
               0 <= starAlpha s' <= 1.025)
            (stars c0) (stars c') /\
    completedPaths c' = completedPaths c /\
    currentPath c' = currentPath c.
Proof.
  intros rnd cs ihm eaf iw ih times c Hrnd c0 c'.
  set (count := if iw <? 600 then 50%nat else 100%nat).
  assert (E0 : stars c0 = eval (makeStars rnd iw ih count) (world c)).
  { unfold c0, initStars, eval. fold count.
    now destruct (makeStars rnd iw ih count (world c)). }
  assert (Eb : completedPaths c0 = completedPaths c
               /\ currentPath c0 = currentPath c).
  { unfold c0, initStars. fold count.
    now destruct (makeStars rnd iw ih count (world c)). }
  destruct (makeStars_fresh rnd iw ih count (world c) Hrnd) as [L F].
  rewrite <- E0 in L, F.
  destruct (runFrames_stars rnd cs ihm eaf iw ih times c0) as (Es & Ep & Ec).
  fold c' in Es, Ep, Ec.
  split; [exact L|]. split; [|rewrite Ep, Ec; exact Eb].
  rewrite Es, iter_map. clear Es E0 L.
  induction F as [|s l Hs F IH]; [constructor|].
  cbn [map]. constructor; [|apply IH].
  destruct (blink_iter s (List.length times) (star_fresh_inv s Hs))
    as ((Ib & Io & _ & _) & Ix & Iy & Isz & Iv).
  destruct Hs as (_ & Hv & _).
  assert (Ev : Rabs (Star.blinkSpeed s) = Star.blinkSpeed s)
    by (apply Rabs_right; lra).
  rewrite Iv, Ev in *.
  repeat split; try assumption; try lra.
  - unfold starAlpha, Math.abs. apply Rabs_pos.
  - unfold starAlpha, Math.abs. apply Rabs_le. lra.
Qed.

Lemma stars_oscillate_within_bounds_witness :
  List.length
    (stars (initStars (fun _ => 1 / 2) 800 600 (mkCanvas world0 [] [] [] 0)))
  = 100%nat.
Proof.
  destruct (stars_oscillate_within_bounds
              (fun _ => 1 / 2) None false true 800 600 [0; 16; 33]
              (mkCanvas world0 [] [] [] 0)) as (H & _).
  - intros _. lra.
  - rewrite H.
    assert (E : (800 <? 600) = false) by (apply Rltb_false; lra).
    now rewrite E.
Defined.

(** ** What an explosion appends *)

Section Emits.

Variable rnd : nat -> R.
Hypothesis rnd_range : forall n, 0 <= rnd n < 1.
Variable Q : FireworkParticle.t -> Prop.

Lemma emits_ret {A} (a : A) (R : A -> Prop) : R a -> emits Q 0 (ret a) R.
Proof.
  intros H w. split; [exact H|]. exists []. cbn. rewrite app_nil_r. auto.
Qed.

Lemma emits_bind {A B} n1 n2 (m : M A) (k : A -> M B) R1 R2 :
  emits Q n1 m R1 -> (forall a, R1 a -> emits Q n2 (k a) R2) ->
  emits Q (n1 + n2) (bind m k) R2.
Proof.
  intros Hm Hk w. destruct (Hm w) as (Ha & b1 & P1 & L1 & F1).
  destruct (Hk _ Ha (exec m w)) as (Hb & b2 & P2 & L2 & F2).
  split.
  - unfold eval, bind in *. unfold exec in Hb. now destruct (m w).
  - exists (b1 ++ b2). rewrite exec_bind, P2, P1, <- app_assoc, length_app.
    split; [reflexivity|]. split; [lia|]. now apply Forall_app.
Qed.

Lemma emits_Math_random : emits Q 0 (Math_random rnd) (fun r => 0 <= r < 1).
Proof.
  intros w. split; [apply rnd_range|]. exists []. cbn. rewrite app_nil_r. auto.
Qed.

Lemma emits_random_range a b :
  a <= b -> emits Q 0 (random rnd a b) (fun r => a <= r <= b).
Proof.
  intros Hab w. split.
  - unfold eval, random, bind, Math_random, ret. cbn.
    pose proof (rnd_range (randomCalls w)). nra.
  - exists []. cbn. rewrite app_nil_r. auto.
Qed.

Lemma emits_random_any a b : emits Q 0 (random rnd a b) (fun _ => True).
Proof.
  intros w. split; [exact I|]. exists []. cbn. rewrite app_nil_r. auto.
Qed.

Lemma emits_push p : Q p -> emits Q 1 (push_particle p) (fun _ => True).
Proof.
  intros H w. split; [exact I|]. exists [p]. cbn. auto.
Qed.

Lemma emits_for_from f body :
  (forall i, emits Q (f i) (body i) (fun _ => True)) ->
  forall n s, emits Q (sumf f s n) (for_from s n body) (fun _ => True).
Proof.
  intros Hb. induction n as [|n IH]; intros s; cbn [for_from sumf].
  - now apply emits_ret.
  - eapply emits_bind; [apply Hb|intros; apply IH].
Qed.

Lemma emits_for_ f n body :
  (forall i, emits Q (f i) (body i) (fun _ => True)) ->
  emits Q (sumf f 0 n) (for_ n body) (fun _ => True).
Proof. intros. now apply emits_for_from. Qed.

Lemma emits_forEach {A} k (g : A -> M unit) :
  (forall a, emits Q k (g a) (fun _ => True)) ->
  forall l, emits Q (List.length l * k) (forEach l g) (fun _ => True).
Proof.
  intros Hg. induction l as [|a l IH]; cbn [forEach List.length Nat.mul].
  - now apply emits_ret.
  - eapply emits_bind; [apply Hg|intros; apply IH].
Qed.

Lemma emits_when (b : bool) n m :
  emits Q n m (fun _ => True) ->
  emits Q (if b then n else 0%nat) (when b m) (fun _ => True).
Proof. intros H. destruct b; [exact H|now apply emits_ret]. Qed.

Lemma emits_count {A} n n' (m : M A) R :
  emits Q n m R -> n = n' -> emits Q n' m R.
Proof. now intros H <-. Qed.

End Emits.

Ltac fresh_goal :=
  cbv beta in *; unfold fresh_particle;
  cbn [particle FireworkParticle.trail FireworkParticle.alpha
       FireworkParticle.decay FireworkParticle.size];
  repeat match goal with
         | |- context [if ?b then _ else _] => destruct b
         end;
  repeat split; lra.

Ltac emits_step Hrnd :=
  lazymatch goal with
  | |- emits _ _ (ret _) _ => apply emits_ret; exact I
  | |- emits _ _ (Math_random _) _ => apply (emits_Math_random _ Hrnd)
  | |- emits _ _ (random _ _ _) _ =>
      first [ apply (emits_random_range _ Hrnd); lra
            | apply emits_random_any ]
  | |- emits _ _ (push_particle _) _ => apply emits_push; fresh_goal
  | |- emits _ _ (bind _ _) _ => eapply emits_bind; [|intros ? ?]
  | |- emits _ _ (for_ _ _) _ => eapply emits_for_; intros
  | |- emits _ _ (forEach _ _) _ => eapply emits_forEach; intros
  | |- emits _ _ (when _ _) _ => eapply emits_when
  | |- emits _ _ (let _ := _ in _) _ => cbv zeta
  end.

Ltac emits_auto Hrnd := repeat emits_step Hrnd.

Section Bursts.

Variable rnd : nat -> R.
Hypothesis rnd_range : forall n, 0 <= rnd n < 1.

Ltac burst_emits :=
  eapply emits_count;
  [ emits_auto rnd_range | try reflexivity ].

Lemma explode_custom_shape_emits x y shape :
  emits fresh_particle (List.length shape)
        (explode_custom_shape rnd x y shape) (fun _ => True).
Proof. unfold explode_custom_shape. burst_emits. cbn. lia. Qed.

Lemma explode_customColor_emits x y c :
  emits fresh_particle 10 (explode_customColor rnd x y c) (fun _ => True).
Proof. unfold explode_customColor. burst_emits. Qed.

Lemma explode_tree_burst_emits x y :
  emits fresh_particle 450 (explode_tree_burst rnd x y) (fun _ => True).
Proof. unfold explode_tree_burst. burst_emits. Qed.

Lemma explode_love_burst_emits x y :
  emits fresh_particle 120 (explode_love_burst rnd x y) (fun _ => True).
Proof. unfold explode_love_burst. burst_emits. Qed.

Lemma explode_neon_flower_emits x y :
  emits fresh_particle 395 (explode_neon_flower rnd x y) (fun _ => True).
Proof. unfold explode_neon_flower. burst_emits. Qed.

Lemma explode_cyan_flower_emits x y :
  emits fresh_particle 300 (explode_cyan_flower rnd x y) (fun _ => True).
Proof. unfold explode_cyan_flower. burst_emits. Qed.

Lemma explode_floral_burst_emits x y :
  emits fresh_particle 410 (explode_floral_burst rnd x y) (fun _ => True).
Proof. unfold explode_floral_burst. burst_emits. Qed.

Lemma explode_violet_burst_emits x y :
  emits fresh_particle 160 (explode_violet_burst rnd x y) (fun _ => True).
Proof. unfold explode_violet_burst. burst_emits. Qed.

Lemma explode_strobe_flower_emits x y :
  emits fresh_particle 184 (explode_strobe_flower rnd x y) (fun _ => True).
Proof. unfold explode_strobe_flower. burst_emits. Qed.

Lemma explode_gold_flower_emits x y :
  emits fresh_particle 150 (explode_gold_flower rnd x y) (fun _ => True).
Proof. unfold explode_gold_flower. burst_emits. Qed.

Lemma explode_galaxy_emits x y :
  emits fresh_particle 140 (explode_galaxy rnd x y) (fun _ => True).
Proof. unfold explode_galaxy. burst_emits. Qed.

Lemma explode_heart_emits x y :
  emits fresh_particle 60 (explode_heart rnd x y) (fun _ => True).
Proof. unfold explode_heart. burst_emits. Qed.

Lemma explode_ring_emits x y :
  emits fresh_particle 50 (explode_ring rnd x y) (fun _ => True).
Proof. unfold explode_ring. burst_emits. Qed.

Lemma explode_glitter_emits x y :
  emits fresh_particle 100 (explode_glitter rnd x y) (fun _ => True).
Proof. unfold explode_glitter. burst_emits. Qed.

Lemma explode_palm_emits x y :
  emits fresh_particle 80 (explode_palm rnd x y) (fun _ => True).
Proof. unfold explode_palm. burst_emits. Qed.

Lemma explode_cosmic_emits x y :
  emits fresh_particle 88 (explode_cosmic rnd x y) (fun _ => True).
Proof. unfold explode_cosmic. burst_emits. Qed.

Lemma explode_streamer_emits x y :
  emits fresh_particle 60 (explode_streamer rnd x y) (fun _ => True).
Proof. unfold explode_streamer. burst_emits. Qed.

Lemma explode_standard_emits x y :
  emits fresh_particle 60 (explode_standard rnd x y) (fun _ => True).
Proof. unfold explode_standard, standard_particle. burst_emits. Qed.

End Bursts.

Section Batches.

Variable rnd : nat -> R.
Hypothesis rnd_range : forall n, 0 <= rnd n < 1.
Variable customShape : option (list Point.t).

Lemma createExplosion_emits x y hue type_arg customColor :
  emits fresh_particle (explosionSize customShape type_arg customColor)
        (createExplosion rnd customShape x y hue type_arg customColor)
        (fun _ => True).
Proof.
  unfold createExplosion, explosionSize. cbv zeta.
  destruct (drone_guard customShape _);
    [now apply explode_custom_shape_emits|].
  destruct (truthy_str customColor);
    [now apply explode_customColor_emits|].
  unfold burstSize.
  repeat match goal with
         | |- emits _ (if ?b then _ else _) _ _ => destruct b
         end.
  - now apply explode_tree_burst_emits.
  - now apply explode_love_burst_emits.
  - now apply explode_neon_flower_emits.
  - now apply explode_cyan_flower_emits.
  - now apply explode_floral_burst_emits.
  - now apply explode_violet_burst_emits.
  - now apply explode_strobe_flower_emits.
  - now apply explode_gold_flower_emits.
  - now apply explode_galaxy_emits.
  - now apply explode_heart_emits.
  - now apply explode_ring_emits.
  - now apply explode_glitter_emits.
  - now apply explode_palm_emits.
  - now apply explode_cosmic_emits.
  - now apply explode_streamer_emits.
  - now apply explode_standard_emits.
Qed.

Lemma explosions_append_fresh (l : list Firework.t) : forall w,
  exists batch,
    particles (exec (forEach l (explodeFirework rnd customShape)) w)
    = particles w ++ batch /\ Forall fresh_particle batch.
Proof.
  induction l as [|f l IH]; intros w; cbn [forEach].
  - exists []. now rewrite exec_ret, app_nil_r.
  - rewrite exec_bind.
    destruct (createExplosion_emits (Firework.x f) (Firework.y f)
                (Firework.hue f) (Firework.type f) (Firework.customColor f) w)
      as (_ & b1 & P1 & _ & F1).
    destruct (IH (exec (explodeFirework rnd customShape f) w))
      as (b2 & P2 & F2).
    exists (b1 ++ b2). rewrite P2. unfold explodeFirework at 1.
    rewrite P1, <- app_assoc. split; [reflexivity|now apply Forall_app].
Qed.

End Batches.

(** X10. Every call of [createExplosion] appends a batch of new particles
    to the particle array and touches nothing before it; the size of the
    batch is fixed by the pattern: one particle per point of a drone
    display, 10 for an override colour, otherwise the table [burstSize]
    (450 for the tree, 395, 300, 410, ... 60 for the default).  Each new
    particle has no trail yet, alpha in [0.6, 1], decay in [0.04, 0.12]
    and a size in [0.7, 3.5]; the projectiles are left alone. *)
Theorem createExplosion_appends_fresh_batch :
  forall (rnd : nat -> R) (customShape : option (list Point.t))
         (x y hue : R) (type_arg customColor : option string) (w : World),
    (forall n, 0 <= rnd n < 1) ->
    let w' := exec (createExplosion rnd customShape x y hue type_arg
                                    customColor) w in
    exists batch,
      particles w' = particles w ++ batch /\
      List.length batch = explosionSize customShape type_arg customColor /\
      Forall fresh_particle batch /\
      fireworks w' = fireworks w.
Proof.
  intros rnd cs x y hue ty cc w Hr w'.
  destruct (createExplosion_emits rnd Hr cs x y hue ty cc w)
    as (_ & batch & P & L & F).
  exists batch. repeat split; try assumption.
  subst w'. rewrite <- (with_fireworks_same w) at 1.
  rewrite (exec_frame _ _ _ (frame_createExplosion rnd cs x y hue ty cc)).
  reflexivity.
Qed.

Lemma createExplosion_appends_fresh_batch_witness :
  let rnd := fun _ : nat => 0.5 in
  (forall n, 0 <= rnd n < 1) /\
  exists batch,
    particles (exec (createExplosion rnd None 0 0 0 (Some "tree_burst") None)
                    world0)
    = particles world0 ++ batch /\
    List.length batch = 450%nat /\ Forall fresh_particle batch.
Proof.
  intros rnd.
  assert (Hr : forall n, 0 <= rnd n < 1) by (intros; unfold rnd; lra).
  split; [exact Hr|].
  destruct (createExplosion_appends_fresh_batch rnd None 0 0 0
              (Some "tree_burst") None world0 Hr)
    as (batch & P & L & F & _).
  exists batch. repeat split; assumption.
Defined.

(** ** Trails stay within their cap *)

Lemma fresh_trail_ok p : fresh_particle p -> trail_ok p.
Proof. intros (H & _). unfold trail_ok. now rewrite H. Qed.

Lemma trailParticle_ok p : trail_ok p -> trail_ok (trailParticle p).
Proof.
  unfold trail_ok, trailParticle.
  destruct (truthy_flag (FireworkParticle.useTrail p)); [|auto].
  intros H. cbv zeta.
  change (maxTrail (set_trail ?t p)) with (maxTrail p).
  cbn [set_trail FireworkParticle.trail].
  set (t0 := match FireworkParticle.trail p with
             | Some t => t
             | None => []
             end).
  assert (L : (List.length t0 <= maxTrail p)%nat).
  { subst t0. destruct (FireworkParticle.trail p); [exact H|cbn; lia]. }
  destruct (Nat.ltb_spec (maxTrail p)
              (List.length (t0 ++ [Point.mk (FireworkParticle.x p)
                                            (FireworkParticle.y p)])))
    as [G|G]; [|exact G].
  destruct t0 as [|a t0]; cbn [app tl List.length] in *; [lia|].
  rewrite length_app. cbn. lia.
Qed.

Lemma stepParticle_trail_ok rnd p w :
  trail_ok p -> trail_ok (eval (stepParticle rnd p) w).
Proof.
  intros H. unfold stepParticle, shimmerParticle, eval, bind.
  assert (M : trail_ok (moveParticle p)) by exact H.
  destruct (truthy_flag (FireworkParticle.shimmer (moveParticle p)));
    [|now apply trailParticle_ok].
  unfold Math_random. cbn [fst snd].
  destruct (_ >? 0.85); cbn [fst snd ret]; now apply trailParticle_ok.
Qed.

Lemma settleParticles_Forall rnd (P : FireworkParticle.t -> Prop) :
  (forall p w, P p -> P (eval (stepParticle rnd p) w)) ->
  forall ps w, Forall P ps -> Forall P (eval (settleParticles rnd ps) w).
Proof.
  intros Hs. induction ps as [|p ps IH]; intros w H.
  - constructor.
  - inversion H as [|? ? Hp Hps]; subst.
    cbn [settleParticles]. unfold eval, bind.
    specialize (IH w Hps). unfold eval in IH.
    destruct (settleParticles rnd ps w) as [tail w1]. cbn [fst] in IH.
    specialize (Hs p w1 Hp). unfold eval in Hs.
    destruct (stepParticle rnd p w1) as [p' w2]. cbn [fst ret] in *.
    destruct (faded p'); [exact IH|now constructor].
Qed.

Lemma autoFire_particles rnd hd af iw ih now w :
  particles (exec (autoFire rnd hd af iw ih now) w) = particles w.
Proof.
  unfold exec, autoFire.
  destruct (af && negb (isDrawing w) && negb hd); [|reflexivity].
  destruct (now >? nextAutoFireTime w); [|reflexivity].
  reflexivity.
Qed.

Lemma animate_trail_ok rnd cs hd af iw ih now w :
  (forall n, 0 <= rnd n < 1) ->
  Forall trail_ok (particles w) ->
  Forall trail_ok (particles (exec (animate rnd cs hd af iw ih now) w)).
Proof.
  intros Hr H. unfold animate. rewrite !exec_bind.
  set (w1 := exec (autoFire rnd hd af iw ih now) w).
  assert (H1 : Forall trail_ok (particles w1))
    by (subst w1; now rewrite autoFire_particles).
  clearbody w1. clear H.
  rewrite updateFireworks_spec.
  destruct (explosions_append_fresh rnd Hr cs (arrivals (fireworks w1))
              (with_fireworks (survivors (fireworks w1)) w1))
    as (batch & P & F).
  set (w2 := exec _ (with_fireworks _ w1)) in *.
  assert (H2 : Forall trail_ok (particles w2)).
  { rewrite P, particles_with_fireworks. apply Forall_app. split; [exact H1|].
    eapply Forall_impl; [|exact F]. exact fresh_trail_ok. }
  clearbody w2. rewrite updateParticles_spec.
  change (particles (with_particles ?ps _)) with ps.
  apply settleParticles_Forall; [|exact H2].
  intros p w0. apply stepParticle_trail_ok.
Qed.

(** X11. No operation of the canvas lets a trail outgrow its cap (8
    points, 15 for a particle of size above 2): if every particle's trail
    is within its cap, it still is after a frame of [animate], after a
    pointer press (which may add a whole drone display), after a pointer
    move and after a release. *)
Theorem trails_never_exceed_cap :
  forall (rnd : nat -> R) (customShape : option (list Point.t))
         (isHandDrawingMode enableAutoFire : bool)
         (innerWidth innerHeight now : R) (e : PointerEvent) (c : Canvas),
    (forall n, 0 <= rnd n < 1) ->
    trails_capped c ->
    trails_capped (animateCanvas rnd customShape isHandDrawingMode
                                 enableAutoFire innerWidth innerHeight now c)
    /\ trails_capped (handleInteractionStart rnd customShape
                        isHandDrawingMode innerWidth innerHeight now e c)
    /\ trails_capped (handleInteractionMove isHandDrawingMode e c)
    /\ trails_capped (handleInteractionEnd isHandDrawingMode now c).
Proof.
  intros rnd cs hd af iw ih now e c Hr H. unfold trails_capped in *.
  repeat split.
  - now apply animate_trail_ok.
  - unfold handleInteractionStart.
    destruct hd; [destruct (getEventPos e); exact H|].
    destruct cs as [shape|]; destruct (getEventPos e) as [p|];
      cbn [world]; try exact H.
    destruct (createExplosion_emits rnd Hr (Some shape) (Point.x p)
                (Point.y p) 0 (Some "custom_shape") None (world c))
      as (_ & batch & P & _ & F).
    rewrite P. apply Forall_app. split; [exact H|].
    eapply Forall_impl; [|exact F]. exact fresh_trail_ok.
  - unfold handleInteractionMove.
    destruct (hd && isDrawing (world c)); [|exact H].
    destruct (getEventPos e); exact H.
  - unfold handleInteractionEnd.
    destruct (hd && isDrawing (world c)); exact H.
Qed.

Lemma trails_never_exceed_cap_witness :
  let rnd := fun _ : nat => 0.5 in
  let c := mkCanvas world0 [] [] [] 0 in
  (forall n, 0 <= rnd n < 1) /\ trails_capped c /\
  trails_capped (animateCanvas rnd None false true 800 600 1 c).
Proof.
  intros rnd c.
  assert (Hr : forall n, 0 <= rnd n < 1) by (intros; unfold rnd; lra).
  assert (H : trails_capped c) by constructor.
  split; [exact Hr|]. split; [exact H|].
  exact (proj1 (trails_never_exceed_cap rnd None false true 800 600 1
                  (MouseEvent 0 0) c Hr H)).
Defined.

(** ** How long a particle lives *)

Lemma fresh_alive_4 p n :
  fresh_particle p -> (n <= 4)%nat -> alive_through n p = true.
Proof.
  intros (_ & Ha & Hd & _) Hn. unfold alive_through.
  apply forallb_forall. intros k Hk. apply in_seq in Hk.
  apply negb_true_iff, Rleb_false.
  assert (K : INR k <= 4).
  { replace 4 with (INR 4) by (cbn; lra). apply le_INR. lia. }
  pose proof (pos_INR k). nra.
Qed.

Lemma fresh_gone_26 p n :
  fresh_particle p -> (26 <= n)%nat -> alive_through n p = false.
Proof.
  intros (_ & Ha & Hd & _) Hn.
  destruct (alive_through n p) eqn:E; [|reflexivity].
  unfold alive_through in E. rewrite forallb_forall in E.
  assert (I : In 26%nat (seq 1 n)) by (apply in_seq; lia).
  apply E, negb_true_iff, Rleb_false in I.
  exfalso.
  assert (V : INR 26 = 26) by (cbn; lra).
  rewrite V in I. lra.
Qed.

(** X12. A particle that does not shimmer lives between 5 and 26 frames:
    starting from particles as explosions make them (alpha in [0.6, 1],
    decay in [0.04, 0.12]) that carry no shimmer flag, the particle loop
    removes none of them during the first four frames and has removed all
    of them after the 26th. *)
Theorem plain_particles_live_5_to_26_frames :
  forall (rnd : nat -> R) (w : World) (n : nat),
    Forall plain (particles w) ->
    Forall fresh_particle (particles w) ->
    let w' := exec (frames n (updateParticles rnd)) w in
    ((n <= 4)%nat -> List.length (particles w') = List.length (particles w))
    /\ ((26 <= n)%nat -> particles w' = []).
Proof.
  intros rnd w n Hp Hf w'. subst w'. rewrite (frames_plain rnd n w Hp).
  change (particles (with_particles ?ps _)) with ps.
  clear Hp. split; intros Hn; rewrite ?length_map.
  - induction Hf as [|p ps Hq _ IH]; [reflexivity|].
    cbn [filter]. rewrite (fresh_alive_4 p n Hq Hn). cbn. now rewrite IH.
  - induction Hf as [|p ps Hq _ IH]; [reflexivity|].
    cbn [filter]. now rewrite (fresh_gone_26 p n Hq Hn).
Qed.

Lemma plain_particles_live_5_to_26_frames_witness :
  let p := FireworkParticle.mk 0 0 1 1 1 "255, 182, 193" 0.06 (Some false)
             None (Some 2) None None in
  let w := with_particles [p] world0 in
  Forall plain (particles w) /\ Forall fresh_particle (particles w) /\
  particles (exec (frames 26 (updateParticles (fun _ => 0.5))) w) = [].
Proof.
  intros p w.
  assert (Hp : Forall plain (particles w)) by (repeat constructor).
  assert (Hf : Forall fresh_particle (particles w)).
  { repeat constructor; cbn; lra. }
  split; [exact Hp|]. split; [exact Hf|].
  apply (plain_particles_live_5_to_26_frames (fun _ => 0.5) w 26 Hp Hf).
  apply Nat.le_refl.
Defined.

(** ** Trails and what is drawn *)

Lemma maxTrail_ge_8 p : (8 <= maxTrail p)%nat.
Proof.
  unfold maxTrail. destruct (FireworkParticle.size p); [|lia].
  destruct (_ && _); lia.
Qed.

Lemma ageParticle_trail q :
  (List.length (trail_or_nil q) <= maxTrail q)%nat ->
  FireworkParticle.useTrail (ageParticle q) = FireworkParticle.useTrail q /\
  FireworkParticle.size (ageParticle q) = FireworkParticle.size q /\
  FireworkParticle.shape (ageParticle q) = FireworkParticle.shape q /\
  if truthy_flag (FireworkParticle.useTrail q) then
    exists t,
      FireworkParticle.trail (ageParticle q) = Some t /\
      List.length t = Nat.min (S (List.length (trail_or_nil q))) (maxTrail q)
  else FireworkParticle.trail (ageParticle q) = FireworkParticle.trail q.
Proof.
  intros C. unfold ageParticle, trailParticle.
  change (FireworkParticle.useTrail (moveParticle q))
    with (FireworkParticle.useTrail q).
  change (FireworkParticle.trail (moveParticle q))
    with (FireworkParticle.trail q).
  change (maxTrail (moveParticle q)) with (maxTrail q).
  destruct (truthy_flag (FireworkParticle.useTrail q));
    [|repeat split; reflexivity].
  cbv zeta. repeat split; try reflexivity.
  fold (trail_or_nil q).
  set (t1 := trail_or_nil q ++ _).
  assert (L : List.length t1 = S (List.length (trail_or_nil q))).
  { subst t1. rewrite length_app. cbn. lia. }
  exists (if (maxTrail q <? List.length t1)%nat then tl t1 else t1).
  split; [reflexivity|].
  destruct (Nat.ltb_spec (maxTrail q) (List.length t1)) as [G|G].
  - destruct t1 as [|a t1]; cbn [tl List.length] in *; lia.
  - lia.
Qed.

Lemma age_iter_trail p : forall k,
  FireworkParticle.trail p = None ->
  let q := Nat.iter k ageParticle p in
  FireworkParticle.useTrail q = FireworkParticle.useTrail p /\
  FireworkParticle.size q = FireworkParticle.size p /\
  FireworkParticle.shape q = FireworkParticle.shape p /\
  if truthy_flag (FireworkParticle.useTrail p) then
    List.length (trail_or_nil q) = Nat.min k (maxTrail p) /\
    ((1 <= k)%nat -> FireworkParticle.trail q <> None)
  else FireworkParticle.trail q = None.
Proof.
  intros k H0. cbv zeta. induction k as [|k IH].
  - change (Nat.iter 0 ageParticle p) with p. repeat split; try reflexivity.
    destruct (truthy_flag _); [|exact H0].
    unfold trail_or_nil. rewrite H0. split; [reflexivity|lia].
  - change (Nat.iter (S k) ageParticle p)
      with (ageParticle (Nat.iter k ageParticle p)).
    destruct IH as (U & S' & Sh & T).
    assert (M : maxTrail (Nat.iter k ageParticle p) = maxTrail p)
      by (unfold maxTrail; now rewrite S').
    assert (C : (List.length (trail_or_nil (Nat.iter k ageParticle p))
                 <= maxTrail (Nat.iter k ageParticle p))%nat).
    { rewrite M. destruct (truthy_flag (FireworkParticle.useTrail p)).
      - destruct T as (-> & _). lia.
      - unfold trail_or_nil. rewrite T. cbn. lia. }
    destruct (ageParticle_trail (Nat.iter k ageParticle p) C)
      as (U1 & S1 & Sh1 & T1).
    rewrite U1, S1, Sh1, U, S', Sh. repeat split; try reflexivity.
    rewrite U in T1.
    rewrite M in T1.
    destruct (truthy_flag (FireworkParticle.useTrail p)).
    + destruct T as (L & _). destruct T1 as (t & E & Lt).
      unfold trail_or_nil at 1. rewrite E, Lt, L.
      pose proof (maxTrail_ge_8 p). split; [lia|discriminate].
    + now rewrite T1.
Qed.

Lemma trail_drawn_after toStr p k :
  FireworkParticle.trail p = None -> not_heart p -> (1 <= k)%nat ->
  trail_drawn toStr k (Nat.iter k ageParticle p).
Proof.
  intros H0 Hh Hk.
  destruct (age_iter_trail p k H0) as (U & S' & Sh & T).
  set (q := Nat.iter k ageParticle p) in *.
  assert (M : maxTrail q = maxTrail p) by (unfold maxTrail; now rewrite S').
  unfold trail_drawn, renderParticle. rewrite U, Sh, M.
  unfold not_heart in Hh. rewrite Hh.
  destruct (truthy_flag (FireworkParticle.useTrail p)).
  - destruct T as (L & N). specialize (N Hk). unfold trail_or_nil in L.
    destruct (FireworkParticle.trail q) as [t|]; [|contradiction].
    exists t. split; [reflexivity|]. split; [exact L|].
    cbn [andb negb]. rewrite app_nil_r.
    pose proof (maxTrail_ge_8 p).
    destruct (Nat.eqb_spec k 1) as [->|K].
    + destruct (Nat.ltb_spec 1 (List.length t)); [lia|reflexivity].
    + destruct (Nat.ltb_spec 1 (List.length t)); [reflexivity|lia].
  - rewrite T. split; reflexivity.
Qed.

(** X13. Starting from particles without a trail and without the shimmer
    flag, none of them a heart, every particle still on the canvas after
    [k >= 1] frames of the particle loop is drawn as follows: a trailing
    particle has a trail of [min k cap] points and is drawn as that one
    stroke and no dot, so on the first frame, where the trail has a single
    point, it is not drawn at all; a particle without [useTrail] has no
    trail and is drawn as one dot. *)
Theorem trail_grows_and_first_frame_is_blank :
  forall (rnd : nat -> R) (toStr : R -> string) (w : World) (k : nat),
    Forall plain (particles w) ->
    Forall (fun p => FireworkParticle.trail p = None /\ not_heart p)
           (particles w) ->
    (1 <= k)%nat ->
    Forall (trail_drawn toStr k)
           (particles (exec (frames k (updateParticles rnd)) w)).
Proof.
  intros rnd toStr w k Hp Hf Hk. rewrite (frames_plain rnd k w Hp).
  change (particles (with_particles ?ps _)) with ps.
  clear Hp. induction Hf as [|p ps (H0 & Hh) _ IH]; [constructor|].
  cbn [filter]. destruct (alive_through k p); [|exact IH].
  cbn [map]. constructor; [|exact IH]. now apply trail_drawn_after.
Qed.

Lemma trail_grows_and_first_frame_is_blank_witness :
  let p := FireworkParticle.mk 0 0 7 0 1 "rgb(255, 215, 0)" 0.05 (Some true)
             None (Some 1.8) None None in
  let w := with_particles [p] world0 in
  Forall plain (particles w) /\
  Forall (fun p => FireworkParticle.trail p = None /\ not_heart p)
         (particles w) /\
  (1 <= 1)%nat /\
  Forall (trail_drawn (fun _ => "1") 1)
         (particles (exec (frames 1 (updateParticles (fun _ => 0.5))) w)).
Proof.
  intros p w.
  assert (Hp : Forall plain (particles w)) by (repeat constructor).
  assert (Hf : Forall (fun p => FireworkParticle.trail p = None
                                /\ not_heart p) (particles w)).
  { repeat constructor. }
  split; [exact Hp|]. split; [exact Hf|]. split; [lia|].
  exact (trail_grows_and_first_frame_is_blank (fun _ => 0.5) (fun _ => "1")
           w 1 Hp Hf (le_n 1)).
Defined.

(** ** The particle loop as a whole *)

Lemma settleParticles_unfaded rnd ps : forall w,
  Forall (fun q => faded q = false) (eval (settleParticles rnd ps) w) /\
  (List.length (eval (settleParticles rnd ps) w) <= List.length ps)%nat.
Proof.
  induction ps as [|p ps IH]; intros w.
  - split; [constructor|apply Nat.le_refl].
  - cbn [settleParticles]. unfold eval, bind.
    specialize (IH w). unfold eval in IH.
    destruct (settleParticles rnd ps w) as [tail w1]. cbn [fst] in IH.
    destruct (stepParticle rnd p w1) as [p' w2]. cbn [fst ret List.length].
    destruct IH as (F & L). destruct (faded p') eqn:E.
    + split; [exact F|lia].
    + split; [now constructor|cbn [List.length]; lia].
Qed.

(** X14. One pass of the backward particle loop leaves no faded particle
    behind and never adds one: afterwards every particle on the canvas has
    alpha above 0, there are at most as many as before, and the
    projectiles are as they were.  When no particle shimmers, the pass is
    exactly: age every particle, then drop the faded ones, keeping the
    order, without drawing a random number. *)
Theorem particle_loop_drops_every_faded_particle :
  forall (rnd : nat -> R) (w : World),
    let w' := exec (updateParticles rnd) w in
    Forall (fun q => 0 < FireworkParticle.alpha q) (particles w') /\
    (List.length (particles w') <= List.length (particles w))%nat /\
    fireworks w' = fireworks w /\
    (Forall plain (particles w) ->
     particles w'
     = filter (fun q => negb (faded q)) (map ageParticle (particles w)) /\
     randomCalls w' = randomCalls w).
Proof.
  intros rnd w w'.
  destruct (settleParticles_unfaded rnd (particles w) w) as (F & L).
  assert (E : particles w' = eval (settleParticles rnd (particles w)) w).
  { subst w'. now rewrite updateParticles_spec. }
  repeat split.
  - rewrite E. eapply Forall_impl; [|exact F].
    intros q Hq. unfold faded in Hq. now apply Rleb_false in Hq.
  - now rewrite E.
  - subst w'. rewrite updateParticles_spec.
    change (fireworks (with_particles ?ps ?v)) with (fireworks v).
    apply settleParticles_fireworks.
  - subst w'. now rewrite (updateParticles_plain rnd w H).
  - subst w'. now rewrite (updateParticles_plain rnd w H).
Qed.

Lemma particle_loop_drops_every_faded_particle_witness :
  let w := with_particles [fading_particle; fading_particle] world0 in
  Forall plain (particles w) /\
  particles (exec (updateParticles (fun _ => 0.5)) w)
  = filter (fun q => negb (faded q)) (map ageParticle (particles w)).
Proof.
  intros w.
  assert (Hp : Forall plain (particles w)) by (repeat constructor).
  split; [exact Hp|].
  exact (proj1 (proj2 (proj2 (proj2
           (particle_loop_drops_every_faded_particle (fun _ => 0.5) w)))
           Hp)).
Defined.

(** ** Text turned into a shape (App) *)

Lemma in_for_step {A} (body : nat -> list A) (a : A) (step : nat) :
  (0 < step)%nat ->
  forall fuel v bound,
    In a (for_step fuel v bound step body) <->
    exists i, (i < fuel)%nat /\ (v + step * i < bound)%nat /\
              In a (body (v + step * i)%nat).
Proof.
  intros Hs. induction fuel as [|fuel IH]; intros v bound; cbn [for_step].
  - split; [contradiction|]. intros (i & Hi & _). lia.
  - destruct (Nat.ltb_spec v bound) as [Hv|Hv].
    + rewrite in_app_iff, IH. split.
      * intros [H|(i & Hi & Hb & H)].
        -- exists 0%nat. rewrite Nat.mul_0_r, Nat.add_0_r.
           repeat split; [lia|exact Hv|exact H].
        -- exists (S i).
           replace (v + step * S i)%nat with (v + step + step * i)%nat
             by lia.
           repeat split; [lia|exact Hb|exact H].
      * intros (i & Hi & Hb & H). destruct i as [|i].
        -- left. now rewrite Nat.mul_0_r, Nat.add_0_r in H.
        -- right. exists i.
           replace (v + step + step * i)%nat with (v + step * S i)%nat
             by lia.
           repeat split; [lia|exact Hb|exact H].
    + split; [contradiction|]. intros (i & _ & Hb & _). lia.
Qed.

(** X15. The pixel scan of [processTextToPoints] returns exactly the
    lattice points of the offscreen canvas with both coordinates multiples
    of 6 whose red channel is above 128: a point is in the result if and
    only if it is [(x, y)] with [x < width], [y < height], [x] and [y]
    divisible by 6 and [data[(y * width + x) * 4] > 128]. *)
Theorem scanPixels_samples_bright_lattice :
  forall (data : list nat) (width height : nat) (p : Point.t),
    In p (scanPixels data width height) <->
    exists x y : nat,
      p = Point.mk (INR x) (INR y) /\
      (x < width)%nat /\ (y < height)%nat /\
      (x mod 6 = 0)%nat /\ (y mod 6 = 0)%nat /\
      (128 < nth ((y * width + x) * 4) data 0)%nat.
Proof.
  intros data W H p. unfold scanPixels. cbv zeta.
  rewrite in_for_step by lia. split.
  - intros (j & _ & Hj & Hin). rewrite in_for_step in Hin by lia.
    destruct Hin as (i & _ & Hi & Hin). cbn [Nat.add] in *.
    destruct (Nat.ltb_spec 128 (nth ((6 * j * W + 6 * i) * 4) data 0%nat))
      as [B|B]; [|contradiction].
    destruct Hin as [<-|[]].
    exists (6 * i)%nat, (6 * j)%nat.
    repeat split; try assumption.
    + rewrite Nat.mul_comm. apply Nat.Div0.mod_mul.
    + rewrite Nat.mul_comm. apply Nat.Div0.mod_mul.
  - intros (x & y & -> & Hx & Hy & Mx & My & B).
    apply Nat.Div0.div_exact in Mx. apply Nat.Div0.div_exact in My.
    exists (y / 6)%nat. cbn [Nat.add]. rewrite <- My.
    repeat split; [lia|exact Hy|].
    rewrite in_for_step by lia.
    exists (x / 6)%nat. cbn [Nat.add]. rewrite <- Mx.
    repeat split; [lia|exact Hx|].
    destruct (Nat.ltb_spec 128 (nth ((y * W + x) * 4) data 0%nat));
      [now left|lia].
Qed.

(** X16. The inline normalization of [processTextToPoints] is that of
    [normalizePath]: with at least one scanned point the shape becomes
    [normalizePath points], the drawing menu closes in the same mode and
    the text input is emptied; with no scanned point nothing is set. *)
Theorem text_shape_is_normalizePath :
  forall (points : list Point.t) (a : AppState),
    let a' := commitTextPoints points a in
    (points = [] -> a' = a) /\
    (points <> [] ->
     appCustomShape a' = Some (normalizePath points) /\
     drawingConfig a' = mkDrawingConfig false (mode (drawingConfig a)) /\
     textInput a' = "" /\
     hasInteracted a' = hasInteracted a).
Proof.
  intros points a a'. subst a'. split.
  - now intros ->.
  - intros Hne. destruct points as [|q ps]; [contradiction|].
    pose proof (bounds_of_cons q ps) as Hb. unfold has_box in Hb.
    unfold commitTextPoints, normalizePath. rewrite Hb.
    cbn [List.length Nat.ltb Nat.leb]. cbv zeta. unfold maxDim_of.
    repeat split.
Qed.

Lemma text_shape_is_normalizePath_witness :
  let points := [Point.mk 0 0; Point.mk 6 0; Point.mk 6 12] in
  points <> [] /\
  appCustomShape (commitTextPoints points
                    (mkApp (mkDrawingConfig true text) None true "HI"))
  = Some (normalizePath points).
Proof.
  intros points.
  assert (Hne : points <> []) by discriminate.
  split; [exact Hne|].
  exact (proj1 (proj2 (text_shape_is_normalizePath points
                         (mkApp (mkDrawingConfig true text) None true "HI"))
                      Hne)).
Defined.

(** ** One frame as a pipeline *)

Lemma survivors_length fws :
  (List.length (survivors fws) <= List.length fws)%nat.
Proof.
  unfold survivors.
  rewrite <- (length_map stepFirework fws). apply filter_length_le.
Qed.

Lemma autoFire_fireworks rnd hd af iw ih now w :
  fireworks (exec (autoFire rnd hd af iw ih now) w) = fireworks w \/
  exists fw,
    fireworks (exec (autoFire rnd hd af iw ih now) w) = fireworks w ++ [fw].
Proof.
  unfold exec, autoFire.
  destruct (af && negb (isDrawing w) && negb hd); [|now left].
  destruct (now >? nextAutoFireTime w); [|now left].
  right. eexists. reflexivity.
Qed.

(** X17. A frame of [animate] is a pipeline of its three stages.  After the
    auto-fire stage (which adds at most one projectile), every projectile
    is stepped once and the arrived ones are removed; the explosions of
    the arrived ones append a batch of new particles; then every particle,
    the new ones included, is stepped once in the same frame by the
    particle loop.  With no arrival the batch is empty. *)
Theorem frame_is_a_pipeline :
  forall (rnd : nat -> R) (customShape : option (list Point.t))
         (isHandDrawingMode enableAutoFire : bool)
         (innerWidth innerHeight now : R) (w : World),
    (forall n, 0 <= rnd n < 1) ->
    let w1 := exec (autoFire rnd isHandDrawingMode enableAutoFire
                             innerWidth innerHeight now) w in
    let w' := exec (animate rnd customShape isHandDrawingMode enableAutoFire
                            innerWidth innerHeight now) w in
    fireworks w' = survivors (fireworks w1) /\
    (List.length (fireworks w') <= S (List.length (fireworks w)))%nat /\
    exists batch w2,
      Forall fresh_particle batch /\
      (arrivals (fireworks w1) = [] -> batch = []) /\
      particles w' = eval (settleParticles rnd (particles w ++ batch)) w2.
Proof.
  intros rnd cs hd af iw ih now w Hr w1 w'.
  assert (E : w' = exec (updateParticles rnd)
                     (exec (updateFireworks rnd cs) w1)).
  { subst w' w1. unfold animate. now rewrite !exec_bind. }
  assert (F : fireworks w' = survivors (fireworks w1)).
  { rewrite E, updateParticles_fireworks. apply updateFireworks_fireworks. }
  split; [exact F|]. split.
  - rewrite F. etransitivity; [apply survivors_length|].
    subst w1.
    destruct (autoFire_fireworks rnd hd af iw ih now w) as [->|(fw & ->)];
      [lia|rewrite length_app; cbn; lia].
  - assert (P1 : particles w1 = particles w)
      by (subst w1; apply autoFire_particles).
    rewrite E, updateParticles_spec.
    change (particles (with_particles ?ps _)) with ps.
    rewrite updateFireworks_spec.
    destruct (arrivals (fireworks w1)) as [|f l] eqn:A.
    + exists [], (with_fireworks (survivors (fireworks w1)) w1).
      split; [constructor|]. split; [reflexivity|].
      cbn [forEach]. rewrite exec_ret, particles_with_fireworks, P1.
      now rewrite app_nil_r.
    + destruct (explosions_append_fresh rnd Hr cs (f :: l)
                  (with_fireworks (survivors (fireworks w1)) w1))
        as (batch & P & Fb).
      exists batch. eexists. split; [exact Fb|]. split; [discriminate|].
      rewrite P, particles_with_fireworks, P1. reflexivity.
Qed.

Lemma frame_is_a_pipeline_witness :
  let rnd := fun _ : nat => 0.5 in
  (forall n, 0 <= rnd n < 1) /\
  fireworks (exec (animate rnd None false false 800 600 1) world0)
  = survivors (fireworks (exec (autoFire rnd false false 800 600 1) world0)).
Proof.
  intros rnd.
  assert (Hr : forall n, 0 <= rnd n < 1) by (intros; unfold rnd; lra).
  split; [exact Hr|].
  exact (proj1 (frame_is_a_pipeline rnd None false false 800 600 1 world0
                  Hr)).
Defined.

(** ** The stored trail of a projectile *)

Lemma stepFirework_coords fw : coords_ok fw -> coords_ok (stepFirework fw).
Proof.
  intros (L & C).
  assert (E : Firework.coordinates (stepFirework fw)
              = Point.mk (Firework.x fw) (Firework.y fw)
                  :: removelast (Firework.coordinates fw)
              /\ Firework.coordinateCount (stepFirework fw)
                 = Firework.coordinateCount fw).
  { unfold stepFirework.
    destruct (truthy_str (Firework.customColor fw)); split; reflexivity. }
  destruct E as (E1 & E2). unfold coords_ok. rewrite E1, E2.
  split; [|exact C]. cbn [List.length].
  rewrite removelast_firstn_len, length_firstn. lia.
Qed.

Lemma survivors_coords fws :
  Forall coords_ok fws -> Forall coords_ok (survivors fws).
Proof.
  intros H. unfold survivors. apply Forall_forall. intros f Hf.
  apply filter_In in Hf as (Hf & _). apply in_map_iff in Hf as (g & <- & Hg).
  apply stepFirework_coords. rewrite Forall_forall in H. now apply H.
Qed.

Lemma autoFire_coords rnd hd af iw ih now w :
  trailed w -> trailed (exec (autoFire rnd hd af iw ih now) w).
Proof.
  intros H. unfold trailed, exec, autoFire.
  destruct (af && negb (isDrawing w) && negb hd); [|exact H].
  destruct (now >? nextAutoFireTime w); [|exact H].
  apply Forall_app. split; [exact H|].
  constructor; [|constructor]. split; [reflexivity|now left].
Qed.

Lemma coords_segment fw :
  coords_ok fw ->
  exists c, fireworkSegment fw
            = Some (c, Point.mk (Firework.x fw) (Firework.y fw)).
Proof.
  intros (L & C). unfold fireworkSegment.
  destruct (nth_error (Firework.coordinates fw)
                      (List.length (Firework.coordinates fw) - 1))
    as [c|] eqn:E.
  - now exists c.
  - apply nth_error_None in E. lia.
Qed.

(** X18. The rocket loop never reads a missing trail point.  Every
    projectile is created with 3 stored points (a launch) or 5 (a finale
    ray), and one step drops the oldest and adds the current position, so
    the count never changes: the property is kept by a frame of [animate],
    by a pointer press, move and release and by [triggerFinale], and under
    it the segment the loop strokes, from the oldest stored point to the
    current position, exists for every projectile. *)
Theorem projectile_trail_never_empty :
  forall (rnd : nat -> R) (customShape : option (list Point.t))
         (isHandDrawingMode enableAutoFire : bool)
         (innerWidth innerHeight now : R) (e : PointerEvent) (c : Canvas),
    trailed (world c) ->
    trailed (world (animateCanvas rnd customShape isHandDrawingMode
                      enableAutoFire innerWidth innerHeight now c))
    /\ trailed (world (handleInteractionStart rnd customShape
                         isHandDrawingMode innerWidth innerHeight now e c))
    /\ trailed (world (handleInteractionMove isHandDrawingMode e c))
    /\ trailed (world (handleInteractionEnd isHandDrawingMode now c))
    /\ trailed (exec (triggerFinale rnd innerWidth innerHeight) (world c))
    /\ Forall (fun fw =>
                 exists c0, fireworkSegment fw
                            = Some (c0, Point.mk (Firework.x fw)
                                                 (Firework.y fw)))
              (fireworks (world c)).
Proof.
  intros rnd cs hd af iw ih now e c H.
  split; [|split; [|split; [|split; [|split]]]].
  - unfold animateCanvas. cbn [world]. unfold trailed, animate.
    rewrite !exec_bind, updateParticles_fireworks, updateFireworks_fireworks.
    apply survivors_coords. now apply autoFire_coords.
  - unfold handleInteractionStart.
    destruct hd; [destruct (getEventPos e); exact H|].
    destruct cs as [shape|]; destruct (getEventPos e) as [p|];
      cbn [world]; try exact H.
    + unfold trailed. rewrite <- (with_fireworks_same (world c)) at 1.
      rewrite (exec_frame _ _ _ (frame_createExplosion rnd (Some shape)
                 (Point.x p) (Point.y p) 0 (Some "custom_shape") None)).
      exact H.
    + unfold trailed. apply Forall_app. split; [exact H|].
      constructor; [|constructor]. split; [reflexivity|now left].
  - unfold handleInteractionMove.
    destruct (hd && isDrawing (world c)); [|exact H].
    destruct (getEventPos e); exact H.
  - unfold handleInteractionEnd.
    destruct (hd && isDrawing (world c)); exact H.
  - unfold trailed. rewrite triggerFinale_unfold. unfold for_.
    rewrite finale_loop. cbn [fireworks].
    apply Forall_app. split; [exact H|].
    apply Forall_forall. intros f Hf.
    apply in_map_iff in Hf as (j & <- & _).
    split; [reflexivity|now right].
  - eapply Forall_impl; [|exact H]. exact coords_segment.
Qed.

Lemma projectile_trail_never_empty_witness :
  let c := mkCanvas (with_fireworks [launched 0.5] world0) [] [] [] 0 in
  trailed (world c) /\
  trailed (world (animateCanvas (fun _ => 0.5) None false true 800 600 1 c)).
Proof.
  intros c.
  assert (H : trailed (world c)).
  { constructor; [|constructor]. split; [reflexivity|now left]. }
  split; [exact H|].
  exact (proj1 (projectile_trail_never_empty (fun _ => 0.5) None false true
                  800 600 1 (MouseEvent 0 0) c H)).
Defined.
